(** * A rhythm game on RxJS streams: the scoring core of [src/main.ts]

    The development embeds the pure functions of [main.ts] (the noise source
    [lcg], the timeline builder [parseCSV], the column and colour assignment,
    the key mapping) and the reactive pipeline of [main] (note timers, game
    end, debounced key presses, verdicts, score, audio feedback) on a virtual
    clock counted in milliseconds since [gameStartTime].

    Numbers.  A JavaScript [number] is modelled by [JS.num]: [NaN], the two
    infinities, or a finite value carried as a rational.  [JS.double] rounds
    a rational to the nearest double (ties to even, overflow to an infinity,
    gradual underflow).  The two parsers return doubles, and the instants
    the game depends on (the due time [start * 1000 + 2000] of a note, its
    two margins of 150 ms, the delay [start * 1000] of the song itself) are
    computed with every operation rounded ([JS.mul64], [JS.add64],
    [JS.sub64]).  Where a result is only handed to a sampler or drawn
    (velocity, duration, the fall of a circle) the operations are taken
    exactly ([JS.add], [JS.mul], ...).  The noise source works on integers,
    with the rounding above [2^53] written out ([JS.round53]).  The sign of
    zero is outside the model.

    Strings.  A text is modelled by the bytes of its UTF-8 encoding. *)

From Stdlib Require Import ZArith QArith Qround Qabs Qpower Lqa Lia List String Ascii Bool.
From Stdlib Require Import Permutation Sorted.
From Stdlib Require Qcanon.
Import ListNotations.

Set Implicit Arguments.

(* ================================================================== *)
(** ** JavaScript numbers, strings and the two global parsers          *)
(* ================================================================== *)

Module JS.

Inductive num : Type :=
| NaN
| Inf (negative : bool)
| Fin (q : Q).

Definition of_Z (z : Z) : num := Fin (inject_Z z).

Definition Qneg_b (q : Q) : bool := negb (Qle_bool 0 q).

Definition neg (x : num) : num :=
  match x with
  | NaN => NaN
  | Inf s => Inf (negb s)
  | Fin q => Fin (- q)
  end.

Definition add (x y : num) : num :=
  match x, y with
  | NaN, _ | _, NaN => NaN
  | Inf a, Inf b => if Bool.eqb a b then Inf a else NaN
  | Inf a, Fin _ | Fin _, Inf a => Inf a
  | Fin p, Fin q => Fin (p + q)
  end.

Definition sub (x y : num) : num := add x (neg y).

Definition mul (x y : num) : num :=
  match x, y with
  | NaN, _ | _, NaN => NaN
  | Inf a, Inf b => Inf (xorb a b)
  | Inf a, Fin q | Fin q, Inf a =>
      if Qeq_bool q 0 then NaN else Inf (xorb a (Qneg_b q))
  | Fin p, Fin q => Fin (p * q)
  end.

(** Division; a zero divisor counts as [+0]. *)
Definition div (x y : num) : num :=
  match x, y with
  | NaN, _ | _, NaN => NaN
  | Inf _, Inf _ => NaN
  | Inf a, Fin q => Inf (xorb a (Qneg_b q))
  | Fin _, Inf _ => Fin 0
  | Fin p, Fin q =>
      if Qeq_bool q 0
      then (if Qeq_bool p 0 then NaN else Inf (Qneg_b p))
      else Fin (p / q)
  end.

(** Rounding toward zero. *)
Definition Qtrunc (q : Q) : Z :=
  if Qneg_b q then Qceiling q else Qfloor q.

(** The [%] operator: the remainder has the sign of the dividend. *)
Definition rem (x y : num) : num :=
  match x, y with
  | NaN, _ | _, NaN => NaN
  | Inf _, _ => NaN
  | Fin p, Inf _ => Fin p
  | Fin p, Fin q =>
      if Qeq_bool q 0 then NaN
      else Fin (Qred (p - inject_Z (Qtrunc (p / q)) * q))
  end.

(** [x <= y]; every comparison with [NaN] is false. *)
Definition le (x y : num) : bool :=
  match x, y with
  | NaN, _ | _, NaN => false
  | Inf a, Inf b => orb a (negb b)
  | Inf a, Fin _ => a
  | Fin _, Inf b => negb b
  | Fin p, Fin q => Qle_bool p q
  end.

Definition ge (x y : num) : bool := le y x.

(** [x === y] on numbers. *)
Definition strict_eq (x y : num) : bool :=
  match x, y with
  | NaN, _ | _, NaN => false
  | Inf a, Inf b => Bool.eqb a b
  | Inf _, Fin _ | Fin _, Inf _ => false
  | Fin p, Fin q => Qeq_bool p q
  end.

(** Equality of the values two model numbers stand for. *)
Definition same (x y : num) : Prop :=
  match x, y with
  | NaN, NaN => True
  | Inf a, Inf b => a = b
  | Fin p, Fin q => p == q
  | _, _ => False
  end.

(** *** Integers inside a double

    An integer of magnitude below [2^53] is a double; a larger one is
    rounded to 53 significant bits, ties to even.  Products and sums of
    integer-valued doubles are the rounded exact results. *)

Definition round53 (z : Z) : Z :=
  let a := Z.abs z in
  if (a <? 2 ^ 53)%Z then z
  else
    let e := (Z.log2 a - 52)%Z in
    let q := Z.shiftr a e in
    let r := (a - Z.shiftl q e)%Z in
    let half := Z.shiftl 1 (e - 1) in
    let q' :=
      if (r <? half)%Z then q
      else if (half <? r)%Z then (q + 1)%Z
      else if Z.even q then q else (q + 1)%Z in
    (Z.sgn z * Z.shiftl q' e)%Z.

(** *** Rounding to a double

    A double is [m * 2^e] with [|m| < 2^53] and [e >= -1074]; a number is
    rounded to the nearest one, to the one with the even [m] when two are
    equally near, and to an infinity from [2^1024 - 2^970] on. *)

(** The nearest integer, the even one on a tie. *)
Definition round_half_even (x : Q) : Z :=
  let f := Qfloor x in
  match ((x - inject_Z f) ?= (1 # 2))%Q with
  | Lt => f
  | Gt => (f + 1)%Z
  | Eq => if Z.even f then f else (f + 1)%Z
  end.

(** The integer part of the binary logarithm of a positive rational. *)
Definition log2_floor (q : Q) : Z :=
  let l := (Z.log2 (Qnum q) - Z.log2 (Zpos (Qden q)))%Z in
  if Qle_bool (2 ^ l) q then l else (l - 1)%Z.

(** The exponent of the unit in the last place of the doubles around [q]. *)
Definition ulp_exponent (q : Q) : Z :=
  Z.max (-1074) (log2_floor (Qabs q) - 52).

(** Rounding without a bound on the exponent. *)
Definition nearest (q : Q) : Q :=
  let g := 2 ^ ulp_exponent q in
  Qred (inject_Z (round_half_even (q / g)) * g).

Definition double (q : Q) : num :=
  if Qeq_bool q 0 then Fin 0
  else
    let r := nearest q in
    if Qle_bool (2 ^ 1024) (Qabs r) then Inf (Qneg_b q) else Fin r.

Definition rounded (x : num) : num :=
  match x with
  | Fin q => double q
  | _ => x
  end.

(** [x + y], [x - y] and [x * y] as the machine computes them. *)
Definition add64 (x y : num) : num := rounded (add x y).
Definition sub64 (x y : num) : num := rounded (sub x y).
Definition mul64 (x y : num) : num := rounded (mul x y).

(** *** Strings *)

(** The white space and line terminators that [trim], [parseFloat] and
    [parseInt] strip, by their UTF-8 encodings.  One byte: TAB, LF, VT, FF,
    CR and the space. *)
Definition white_space_1 (c : ascii) : bool :=
  let n := nat_of_ascii c in
  (Nat.eqb n 9 || Nat.eqb n 10 || Nat.eqb n 11
   || Nat.eqb n 12 || Nat.eqb n 13 || Nat.eqb n 32)%bool.

(** Two bytes: the no-break space U+00A0. *)
Definition white_space_2 (c1 c2 : ascii) : bool :=
  (Nat.eqb (nat_of_ascii c1) 194 && Nat.eqb (nat_of_ascii c2) 160)%bool.

(** Three bytes: U+1680, U+2000 to U+200A, U+2028, U+2029, U+202F, U+205F,
    U+3000 and the byte order mark U+FEFF. *)
Definition white_space_3 (c1 c2 c3 : ascii) : bool :=
  let n1 := nat_of_ascii c1 in
  let n2 := nat_of_ascii c2 in
  let n3 := nat_of_ascii c3 in
  ((Nat.eqb n1 225 && Nat.eqb n2 154 && Nat.eqb n3 128)
   || (Nat.eqb n1 226 && Nat.eqb n2 128
       && ((Nat.leb 128 n3 && Nat.leb n3 138)
           || Nat.eqb n3 168 || Nat.eqb n3 169 || Nat.eqb n3 175))
   || (Nat.eqb n1 226 && Nat.eqb n2 129 && Nat.eqb n3 159)
   || (Nat.eqb n1 227 && Nat.eqb n2 128 && Nat.eqb n3 128)
   || (Nat.eqb n1 239 && Nat.eqb n2 187 && Nat.eqb n3 191))%bool.

Fixpoint trim_start (s : string) : string :=
  match s with
  | String c1 s1 =>
      if white_space_1 c1 then trim_start s1
      else
        match s1 with
        | String c2 s2 =>
            if white_space_2 c1 c2 then trim_start s2
            else
              match s2 with
              | String c3 s3 =>
                  if white_space_3 c1 c2 c3 then trim_start s3 else s
              | EmptyString => s
              end
        | EmptyString => s
        end
  | EmptyString => EmptyString
  end.

(** Drops the trailing white space: the text is cut where nothing but
    white space follows. *)
Fixpoint trim_end (s : string) : string :=
  match s with
  | EmptyString => EmptyString
  | String c s' =>
      if String.eqb (trim_start s) EmptyString then EmptyString
      else String c (trim_end s')
  end.

Definition trim (s : string) : string := trim_end (trim_start s).

(** [s.split(sep)] for a one-character separator: never an empty array. *)
Fixpoint split (sep : ascii) (s : string) : list string :=
  match s with
  | EmptyString => [EmptyString]
  | String c s' =>
      if Ascii.eqb c sep then EmptyString :: split sep s'
      else match split sep s' with
           | w :: ws => String c w :: ws
           | [] => [String c EmptyString]
           end
  end.

(** *** [parseFloat] and [parseInt] *)

Definition digit_value (c : ascii) : option Z :=
  let n := nat_of_ascii c in
  if (Nat.leb 48 n && Nat.leb n 57)%bool then Some (Z.of_nat (n - 48))
  else None.

Definition hex_digit_value (c : ascii) : option Z :=
  let n := nat_of_ascii c in
  if (Nat.leb 48 n && Nat.leb n 57)%bool then Some (Z.of_nat (n - 48))
  else if (Nat.leb 65 n && Nat.leb n 70)%bool then Some (Z.of_nat (n - 55))
  else if (Nat.leb 97 n && Nat.leb n 102)%bool then Some (Z.of_nat (n - 87))
  else None.

(** Reads the longest run of digits of the given radix: the value read so
    far, the number of digits, and the rest of the string. *)
Fixpoint read_digits (value_of : ascii -> option Z) (radix : Z)
         (s : string) (acc : Z) (count : nat) : Z * nat * string :=
  match s with
  | String c s' =>
      match value_of c with
      | Some d => read_digits value_of radix s' (acc * radix + d)%Z (S count)
      | None => (acc, count, s)
      end
  | EmptyString => (acc, count, s)
  end.

Definition read_sign (s : string) : bool * string :=
  match s with
  | String "-"%char s' => (true, s')
  | String "+"%char s' => (false, s')
  | _ => (false, s)
  end.

(** The exponent part ([e], a sign, digits), taken only when it is complete. *)
Definition read_exponent (s : string) : Z :=
  match s with
  | String c s' =>
      if (Ascii.eqb c "e" || Ascii.eqb c "E")%bool then
        let '(sg, s'') := read_sign s' in
        let '(v, n, _) := read_digits digit_value 10 s'' 0%Z 0%nat in
        match n with
        | O => 0%Z
        | S _ => if sg then (- v)%Z else v
        end
      else 0%Z
  | EmptyString => 0%Z
  end.

(** [m * 10^e] as a reduced fraction. *)
Definition scale10 (m e : Z) : Q :=
  match e with
  | Z0 => inject_Z m
  | Zpos p => inject_Z (m * Z.pow_pos 10 p)
  | Zneg p => Qred (Qmake m (Pos.pow 10 p))
  end.

(** [parseFloat(s)]: leading white space is skipped, the longest prefix that
    is a decimal literal is read and its value rounded to a double, and
    [NaN] is the result when there is no such prefix. *)
Definition parseFloat (s : string) : num :=
  let '(sg, s1) := read_sign (trim_start s) in
  if String.prefix "Infinity" s1 then Inf sg
  else
    let '(ip, n1, r1) := read_digits digit_value 10 s1 0%Z 0%nat in
    let '(m, n2, r2) :=
      match r1 with
      | String c r =>
          if Ascii.eqb c "." then
            let '(m, n2, r2) := read_digits digit_value 10 r ip 0%nat in
            match n1, n2 with
            | O, O => (ip, O, r1)
            | _, _ => (m, n2, r2)
            end
          else (ip, O, r1)
      | EmptyString => (ip, O, r1)
      end in
    match n1, n2 with
    | O, O => NaN
    | _, _ =>
        let v := scale10 m (read_exponent r2 - Z.of_nat n2) in
        double (if sg then - v else v)
    end.

(** [parseInt(s)] without a radix: an optional sign, then hexadecimal digits
    after [0x], decimal digits otherwise; the integer read is rounded to a
    double. *)
Definition parseInt (s : string) : num :=
  let '(sg, s1) := read_sign (trim_start s) in
  let '(v, n, _) :=
    match s1 with
    | String "0"%char (String x s2) =>
        if (Ascii.eqb x "x" || Ascii.eqb x "X")%bool
        then read_digits hex_digit_value 16 s2 0%Z 0%nat
        else read_digits digit_value 10 s1 0%Z 0%nat
    | _ => read_digits digit_value 10 s1 0%Z 0%nat
    end in
  match n with
  | O => NaN
  | S _ => double (inject_Z (if sg then - v else v))
  end.

(** A destructured array element may be [undefined]; the parsers first turn
    their argument into a string. *)
Definition to_string (o : option string) : string :=
  match o with
  | Some s => s
  | None => "undefined"
  end.

End JS.

(* ================================================================== *)
(** ** Results of calls that can throw                                 *)
(* ================================================================== *)

Inductive Exn : Type :=
| TypeError (what : string)   (* a property read or a call on [undefined] *)
| EmptyError.                 (* RxJS: [last()] on a stream without values *)

Inductive Result (A : Type) : Type :=
| Returned (a : A)
| Threw (e : Exn).
Arguments Threw {A} e.

Definition bind_result {A B} (r : Result A) (k : A -> Result B) : Result B :=
  match r with
  | Returned a => k a
  | Threw e => Threw e
  end.

Notation "x <- r ;; k" := (bind_result r (fun x => k))
  (at level 61, r at next level, right associativity).

(* ================================================================== *)
(** ** Constants                                                       *)
(* ================================================================== *)

Module Viewport.
Definition CANVAS_WIDTH : Z := 200.
Definition CANVAS_HEIGHT : Z := 400.
End Viewport.

Module Constants.
Definition TICK_RATE_MS : Z := 16.
Definition SONG_NAME : string := "IWonder".
Definition BOTTOM_ROW : Z := 350.
End Constants.

(* ================================================================== *)
(** ** The noise source [lcg]                                          *)
(* ================================================================== *)

(** One update of the captured [seed]:
    [seed = (seed * 67890 + 34086315) % 12345], on integer-valued doubles. *)
Definition lcg_step (seed : Z) : Z :=
  Z.rem (JS.round53 (JS.round53 (seed * 67890) + 34086315)) 12345.

(** The closure returned by [lcg(seed)] is its captured variable. *)
Record Rng : Type := mkRng { rng_seed : Z }.

Definition lcg (seed : Z) : Rng := mkRng seed.

(** A call [rng()]: the seed is updated and [seed / 12345] returned. *)
Definition call (g : Rng) : Q * Rng :=
  let seed := lcg_step (rng_seed g) in
  (Qmake seed 12345, mkRng seed).

(** The first [n] values of a generator. *)
Fixpoint draws (n : nat) (g : Rng) : list Q :=
  match n with
  | O => []
  | S n' => let '(x, g') := call g in x :: draws n' g'
  end.

(** The value of the [n]-th call (counted from 0) on a fresh [lcg(S)]. *)
Definition nth_output (S : Z) (n : nat) : Q :=
  nth n (draws (Datatypes.S n) (lcg S)) 0.

(** Two generators living side by side, each with its own captured seed;
    a schedule says which one is called next ([false] the first, [true]
    the second).  The trace records who was called and what came out. *)
Fixpoint run_schedule (sched : list bool) (a b : Rng) : list (bool * Q) :=
  match sched with
  | [] => []
  | false :: rest => let '(x, a') := call a in (false, x) :: run_schedule rest a' b
  | true :: rest => let '(x, b') := call b in (true, x) :: run_schedule rest a b'
  end.

Definition outputs_of (who : bool) (trace : list (bool * Q)) : list Q :=
  map snd (filter (fun e => Bool.eqb (fst e) who) trace).

(** The exact recurrence of the specification, on the mathematical
    integers. *)
Definition lcg_spec_step (seed : Z) : Z := (seed * 67890 + 34086315) mod 12345.

(* ================================================================== *)
(** ** Notes and the timeline builder [parseCSV]                       *)
(* ================================================================== *)

Record NoteSpec : Type := mkNoteSpec {
  user_played : bool;
  instrument_name : string;
  velocity : JS.num;
  pitch : JS.num;
  start : JS.num;
  end_ : JS.num
}.

Record ExtendedNoteSpec : Type := mkExtendedNoteSpec {
  base : NoteSpec;                 (* [...note] *)
  timeToRelease : JS.num;
  column : JS.num
}.

Record State : Type := mkState { gameEnd : bool }.

(** The body of the [map] callback of [parseCSV] on one line.  The array
    destructuring leaves a missing field [undefined]; [instrument_name.trim()]
    on [undefined] throws. *)
Definition parse_line (line : string) : Result NoteSpec :=
  let fields := JS.split "," line in
  let user_played := nth_error fields 0 in
  let instrument_name := nth_error fields 1 in
  let velocity := nth_error fields 2 in
  let pitch := nth_error fields 3 in
  let start := nth_error fields 4 in
  let end_ := nth_error fields 5 in
  match instrument_name with
  | None => Threw (TypeError "instrument_name.trim")
  | Some name =>
      Returned
        {| user_played :=
             match user_played with
             | Some s => String.eqb s "True"
             | None => false
             end;
           instrument_name := JS.trim name;
           velocity := JS.div (JS.parseFloat (JS.to_string velocity)) (JS.of_Z 127);
           pitch := JS.parseInt (JS.to_string pitch);
           start := JS.parseFloat (JS.to_string start);
           end_ := JS.parseFloat (JS.to_string end_) |}
  end.

(** [Set.add], keeping insertion order. *)
Definition set_add (x : string) (s : list string) : list string :=
  if existsb (String.eqb x) s then s else s ++ [x].

(** What the callback adds to [instrumentsFromCSV] on one line:
    [if (instrument_name) instrumentsFromCSV.add(instrument_name.trim())]. *)
Definition track_instrument (line : string) (set : list string) : list string :=
  match nth_error (JS.split "," line) 1 with
  | Some name =>
      if String.eqb name EmptyString then set else set_add (JS.trim name) set
  | None => set
  end.

(** The lines the callback runs on: [lines.slice(1)] without the lines
    that are blank after trimming. *)
Definition data_lines (csv : string) : list string :=
  filter (fun line => negb (String.eqb (JS.trim line) EmptyString))
         (tl (JS.split "010"%char csv)).

(** [Array.prototype.map] with a callback that can throw: the first
    exception ends the whole call. *)
Fixpoint map_result {A B} (f : A -> Result B) (l : list A) : Result (list B) :=
  match l with
  | [] => Returned []
  | x :: rest =>
      y <- f x ;;
      ys <- map_result f rest ;;
      Returned (y :: ys)
  end.

(** Names every object answers to under [in], through [Object.prototype]. *)
Definition object_prototype_keys : list string :=
  ["constructor"; "hasOwnProperty"; "isPrototypeOf"; "propertyIsEnumerable";
   "toLocaleString"; "toString"; "valueOf"; "__proto__";
   "__defineGetter__"; "__defineSetter__"; "__lookupGetter__";
   "__lookupSetter__"]%string.

(** [instrument in samples], with [samples] given by its own keys. *)
Definition key_in (samples : list string) (instrument : string) : bool :=
  existsb (String.eqb instrument) (samples ++ object_prototype_keys).

(** What [parseCSV] leaves behind: the notes it returns and the argument of
    its one [console.warn], when that is called. *)
Record Parsed : Type := mkParsed {
  parsed_notes : list NoteSpec;
  warned_missing : option (list string)
}.

Definition parseCSV (csv : string) (samples : list string) : Result Parsed :=
  let lines := data_lines csv in
  notes <- map_result parse_line lines ;;
  let instrumentsFromCSV := fold_left (fun s l => track_instrument l s) lines [] in
  let missingInstruments :=
    filter (fun instrument => negb (key_in samples instrument))
           instrumentsFromCSV in
  Returned
    {| parsed_notes := notes;
       warned_missing :=
         match missingInstruments with
         | [] => None
         | _ :: _ => Some missingInstruments
         end |}.

Definition initialScore : Z := 0.

(** [pitch % 4]. *)
Definition assignColumnByPitch (pitch : JS.num) : JS.num :=
  JS.rem pitch (JS.of_Z 4).

(** The [switch] compares with [===]. *)
Definition getColourByColumn (column : JS.num) : string :=
  if JS.strict_eq column (JS.of_Z 0) then "green"
  else if JS.strict_eq column (JS.of_Z 1) then "red"
  else if JS.strict_eq column (JS.of_Z 2) then "blue"
  else if JS.strict_eq column (JS.of_Z 3) then "yellow"
  else "black".

Definition getColumnIndexFromKeyCode (keyCode : string) : JS.num :=
  if String.eqb keyCode "KeyH" then JS.of_Z 0
  else if String.eqb keyCode "KeyJ" then JS.of_Z 1
  else if String.eqb keyCode "KeyK" then JS.of_Z 2
  else if String.eqb keyCode "KeyL" then JS.of_Z 3
  else JS.of_Z (-1).

(** [notes.map(note => ({...note, timeToRelease, column}))]. *)
Definition extend (n : NoteSpec) : ExtendedNoteSpec :=
  {| base := n;
     timeToRelease :=
       JS.sub (start n)
              (JS.div (JS.of_Z Constants.TICK_RATE_MS) (JS.of_Z 1000));
     column := assignColumnByPitch (pitch n) |}.

Definition sample_csv : string :=
  "user_played,instrument_name,velocity,pitch,start,end
True,piano,64,64,1.0,1.5
False,violin,127,61,0.5,2
".

(* ================================================================== *)
(** ** Streams on the virtual clock                                    *)
(* ================================================================== *)

(** An observable, once subscribed at time 0 (the run of [main], which
    subscribes everything in one synchronous turn), is the list of its
    emissions in emission order, each with the millisecond it happens in,
    and the way it ends.  Callbacks due in the same millisecond run in the
    order their timers were created, and a due timer runs before an input
    event of the same millisecond. *)

Inductive Ending : Type :=
| Open                          (* never completes *)
| Completed (t : Z)
| Failed (t : Z) (e : Exn).

Record Stream (A : Type) : Type := mkStream {
  events : list (Z * A);
  ending : Ending
}.

Module Rx.

Section Operators.
Variables A B : Type.

(** The delay a browser timer really gets: the argument is converted to a
    32-bit integer (not a finite number: 0; fractions dropped; wrap-around),
    and a negative delay counts as 0. *)
Definition to_long (x : JS.num) : Z :=
  match x with
  | JS.Fin q =>
      let m := (JS.Qtrunc q mod 2 ^ 32)%Z in
      if (m <? 2 ^ 31)%Z then m else (m - 2 ^ 32)%Z
  | _ => 0%Z
  end.

Definition timer_due (dueTime : JS.num) : Z := Z.max 0 (to_long dueTime).

(** [timer(dueTime).pipe(map(() => a))]. *)
Definition timer (dueTime : JS.num) (a : A) : Stream A :=
  {| events := [(timer_due dueTime, a)];
     ending := Completed (timer_due dueTime) |}.

(** [from(array)]: everything is emitted while subscribing. *)
Definition from (l : list A) : Stream A :=
  {| events := List.map (fun a => (0%Z, a)) l; ending := Completed 0 |}.

(** [fromEvent]: the events as they arrive; never completes. *)
Definition fromEvent (arrivals : list (Z * A)) : Stream A :=
  {| events := arrivals; ending := Open |}.

Definition map (f : A -> B) (s : Stream A) : Stream B :=
  {| events := List.map (fun e => (fst e, f (snd e))) (events s);
     ending := ending s |}.

(** A [map] whose callback also reads the clock. *)
Definition map_now (f : Z -> A -> B) (s : Stream A) : Stream B :=
  {| events := List.map (fun e => (fst e, f (fst e) (snd e))) (events s);
     ending := ending s |}.

(** Interleaving of two timed lists; on a tie the left one, whose timer is
    older, goes first. *)
Fixpoint merge_events (l1 : list (Z * A)) : list (Z * A) -> list (Z * A) :=
  fix inner (l2 : list (Z * A)) : list (Z * A) :=
    match l1, l2 with
    | [], _ => l2
    | _, [] => l1
    | e1 :: l1', e2 :: l2' =>
        if (fst e1 <=? fst e2)%Z then e1 :: merge_events l1' l2
        else e2 :: inner l2'
    end.

Definition merge_ending (e1 e2 : Ending) : Ending :=
  match e1, e2 with
  | Failed t e, _ => Failed t e
  | _, Failed t e => Failed t e
  | Completed t1, Completed t2 => Completed (Z.max t1 t2)
  | _, _ => Open
  end.

(** [merge] of two streams of timers. *)
Definition merge (s1 s2 : Stream A) : Stream A :=
  {| events := merge_events (events s1) (events s2);
     ending := merge_ending (ending s1) (ending s2) |}.

(** [merge(s, array)]: the array is emitted while [merge] subscribes to it,
    so its elements come before everything [s] emits from timers. *)
Definition merge_array (s : Stream A) (l : list A) : Stream A :=
  {| events := events (from l) ++ events s;
     ending := merge_ending (ending s) (ending (from l)) |}.

(** [last()]: the last value, at completion; [EmptyError] when the source
    completes without a value. *)
Definition last (s : Stream A) : Stream A :=
  match ending s with
  | Completed t =>
      match rev (events s) with
      | e :: _ => {| events := [(t, snd e)]; ending := Completed t |}
      | [] => {| events := []; ending := Failed t EmptyError |}
      end
  | other => {| events := []; ending := other |}
  end.

(** [delay(d)]: values are shifted, an error is not. *)
Definition delay (d : Z) (s : Stream A) : Stream A :=
  let shifted := List.map (fun e => (fst e + d, snd e)%Z) (events s) in
  match ending s with
  | Failed t e =>
      {| events := filter (fun e => (fst e <? t)%Z) shifted;
         ending := Failed t e |}
  | Completed t =>
      {| events := shifted;
         ending := Completed (fold_left (fun m e => Z.max m (fst e)) shifted t) |}
  | Open => {| events := shifted; ending := Open |}
  end.

(** [debounceTime(d)]: a value is emitted [d] ms after it arrived unless the
    next one arrives before that. *)
Fixpoint debounce_events (d : Z) (l : list (Z * A)) : list (Z * A) :=
  match l with
  | [] => []
  | e :: rest =>
      match rest with
      | [] => [(fst e + d, snd e)%Z]
      | e' :: _ =>
          if (fst e' <? fst e + d)%Z then debounce_events d rest
          else (fst e + d, snd e)%Z :: debounce_events d rest
      end
  end.

(** When the source completes, the value still waiting is emitted at once;
    when it fails, that value is lost. *)
Definition debounceTime (d : Z) (s : Stream A) : Stream A :=
  let debounced := debounce_events d (events s) in
  match ending s with
  | Open => {| events := debounced; ending := Open |}
  | Completed t =>
      {| events := List.map (fun e => (Z.min (fst e) t, snd e)) debounced;
         ending := Completed t |}
  | Failed t x =>
      {| events := filter (fun e => (fst e <? t)%Z) debounced;
         ending := Failed t x |}
  end.

(** What is left of an ending when the stream is cut at [t]. *)
Definition cut_ending (t : Z) (cut : Ending) (e : Ending) : Ending :=
  match e with
  | Completed t0 => if (t0 <? t)%Z then e else cut
  | Failed t0 _ => if (t0 <? t)%Z then e else cut
  | Open => cut
  end.

(** [takeUntil(notifier)]: the source passes until the notifier emits its
    first value, then the result completes; an error of the notifier is
    passed on; a notifier that completes silently changes nothing. *)
Definition takeUntil (notifier : Stream B) (s : Stream A) : Stream A :=
  match events notifier, ending notifier with
  | (t, _) :: _, _ =>
      {| events := filter (fun e => (fst e <? t)%Z) (events s);
         ending := cut_ending t (Completed t) (ending s) |}
  | [], Failed t e =>
      {| events := filter (fun e => (fst e <? t)%Z) (events s);
         ending := cut_ending t (Failed t e) (ending s) |}
  | [], _ => s
  end.

(** The last value a stream has emitted up to and including time [t]. *)
Definition latest_at (t : Z) (l : list (Z * B)) : option B :=
  fold_left (fun acc e => if (fst e <=? t)%Z then Some (snd e) else acc) l None.

(** [withLatestFrom(other)]: a source value is paired with the latest value
    of [other]; it is dropped while [other] has emitted nothing. *)
Definition withLatestFrom (other : Stream B) (s : Stream A) : Stream (A * B) :=
  {| events :=
       flat_map (fun e =>
                   match latest_at (fst e) (events other) with
                   | Some b => [(fst e, (snd e, b))]
                   | None => []
                   end) (events s);
     ending := ending s |}.

(** Running accumulation. *)
Fixpoint scan_events (f : B -> A -> B) (acc : B) (l : list (Z * A))
  : list (Z * B) :=
  match l with
  | [] => []
  | e :: rest => let acc' := f acc (snd e) in (fst e, acc') :: scan_events f acc' rest
  end.

Definition scan (f : B -> A -> B) (seed : B) (s : Stream A) : Stream B :=
  {| events := scan_events f seed (events s); ending := ending s |}.

(** [startWith(a)]: [a] is emitted on subscription, before the source is
    subscribed. *)
Definition startWith (a : A) (s : Stream A) : Stream A :=
  {| events := (0%Z, a) :: events s; ending := ending s |}.

(** A [map] whose callback can throw: the exception ends the stream as an
    error, and nothing is emitted after it. *)
Fixpoint map_try_events (f : A -> Result B) (l : list (Z * A)) (e : Ending)
  : list (Z * B) * Ending :=
  match l with
  | [] => ([], e)
  | x :: rest =>
      match f (snd x) with
      | Returned b =>
          let '(bs, e') := map_try_events f rest e in ((fst x, b) :: bs, e')
      | Threw exn => ([], Failed (fst x) exn)
      end
  end.

Definition map_try (f : A -> Result B) (s : Stream A) : Stream B :=
  let '(bs, e) := map_try_events f (events s) (ending s) in
  {| events := bs; ending := e |}.

(** [timer(t0).pipe(switchMap(() => s))]: [s] is subscribed when the timer
    fires, and runs from then. *)
Definition after (t0 : Z) (s : Stream A) : Stream A :=
  {| events := List.map (fun e => ((t0 + fst e)%Z, snd e)) (events s);
     ending :=
       match ending s with
       | Open => Open
       | Completed t => Completed (t0 + t)
       | Failed t e => Failed (t0 + t) e
       end |}.

(** [finalize(callback)]: the moment the callback runs, which is when the
    stream completes or fails.  It never runs for a stream that stays open:
    no subscription of [main] is ever cancelled. *)
Definition finalized (s : Stream A) : option Z :=
  match ending s with
  | Completed t => Some t
  | Failed t _ => Some t
  | Open => None
  end.

End Operators.

(** [from(l).pipe(mergeMap(f))] for inner streams of timers: all inner
    streams are subscribed at once, in the order of [l]. *)
Definition mergeMap {A B} (f : A -> Stream B) (l : list A) : Stream B :=
  fold_right (fun a acc => merge (f a) acc) (from []) l.

End Rx.

(* ================================================================== *)
(** ** The game: [main]                                                *)
(* ================================================================== *)

Record KeyPress : Type := mkKeyPress { code : string; time : Z }.

Record Verdict : Type := mkVerdict {
  note : ExtendedNoteSpec;
  isCorrectTiming : bool;
  isCorrectColumn : bool
}.

(** One call [sampler.triggerAttackRelease(Tone.Frequency(midi, "midi").toNote(),
    duration, undefined, velocity)] on the sampler of [instrument]. *)
Record Trigger : Type := mkTrigger {
  instrument : string;
  midi : JS.num;
  duration : JS.num;
  loudness : JS.num
}.

(** Which function of [main] made the call. *)
Inductive AudioCall : Type :=
| UserPlayedNote (t : Trigger)    (* from [playUserPlayedNote] *)
| RandomNote (t : Trigger).       (* from [playRandomNote] *)

(** [x.toFixed(2)], as the number the resulting text denotes. *)
Definition toFixed2 (x : Q) : Q :=
  let n := Qfloor (Qabs x * 100 + (1 # 2)) in
  Qred (Qmake (if JS.Qneg_b x then - n else n) 100).

Section Game.

(** [Object.keys(samples)]: the instruments that have a sampler. *)
Variable samples : list string.

Definition has_sampler (name : string) : bool :=
  existsb (String.eqb name) samples.

Definition playUserPlayedNote (n : ExtendedNoteSpec) : Result Trigger :=
  if has_sampler (instrument_name (base n)) then
    Returned {| instrument := instrument_name (base n);
                midi := pitch (base n);
                duration := JS.sub (end_ (base n)) (start (base n));
                loudness := velocity (base n) |}
  else Threw (TypeError "samples[note.instrument_name].triggerAttackRelease").

(** Three calls of [rng], whatever happens to the lookup of the sampler. *)
Definition playRandomNote (rng : Rng) : Result Trigger * Rng :=
  let '(randomValue, rng) := call rng in
  let availableInstruments := samples in
  let randomIndex :=
    Qfloor (randomValue * inject_Z (Z.of_nat (List.length availableInstruments))) in
  let randomInstrument :=
    if (randomIndex <? 0)%Z then None
    else nth_error availableInstruments (Z.to_nat randomIndex) in
  let randomPitch := Qfloor (randomValue * 88 + 21) in
  let '(r, rng) := call rng in
  let randomDuration := (1 # 10) + r * (4 # 10) in
  let '(r, rng) := call rng in
  let randomVelocity := (1 # 2) + r * (1 # 2) in
  (match randomInstrument with
   | Some name =>
       Returned {| instrument := name;
                   midi := JS.of_Z randomPitch;
                   duration := JS.Fin (toFixed2 randomDuration);
                   loudness := JS.Fin randomVelocity |}
   | None => Threw (TypeError "samples[randomInstrument].triggerAttackRelease")
   end, rng).

(** The notes of the song, extended with column and release time. *)
Variable extendedNotes : list ExtendedNoteSpec.

(** The [keypress] events of the document: arrival time and [event.code]. *)
Variable keypresses : list (Z * string).

Definition backgroundNotes : list ExtendedNoteSpec :=
  filter (fun n => negb (user_played (base n))) extendedNotes.

Definition userPlayedNotes : list ExtendedNoteSpec :=
  filter (fun n => user_played (base n)) extendedNotes.

(** [note.start * 1000 + 2000], the product and the sum each rounded to a
    double. *)
Definition actualNoteStartTime (n : ExtendedNoteSpec) : JS.num :=
  JS.add64 (JS.mul64 (start (base n)) (JS.of_Z 1000)) (JS.of_Z 2000).

Definition userNotes_ : Stream ExtendedNoteSpec :=
  Rx.mergeMap (fun n => Rx.timer (actualNoteStartTime n) n) userPlayedNotes.

(** When the song itself sounds a note: [sound$ = timer(note.start * 1000)],
    subscribed when the outer [timer(2000)] fires.  ([playBackgroundNotes]
    then triggers the sampler of a note that is not user-played.) *)
Definition sound_due (n : ExtendedNoteSpec) : Z :=
  (2000 + Rx.timer_due (JS.mul64 (start (base n)) (JS.of_Z 1000)))%Z.

Definition gameEnd_ : Stream State :=
  Rx.map (fun _ => {| gameEnd := true |})
    (Rx.delay 2000
       (Rx.last (Rx.merge_array userNotes_ backgroundNotes))).

Definition keyPresses_ : Stream KeyPress :=
  Rx.takeUntil gameEnd_
    (Rx.debounceTime 50
       (Rx.map_now (fun now c => {| code := c; time := now |})
          (Rx.fromEvent keypresses))).

(** The callback of [map] in [combined$]. *)
Definition judge (keyPress : KeyPress) (n : ExtendedNoteSpec) : Verdict :=
  let margin := JS.of_Z 150 in
  let isCorrectTiming :=
    (JS.ge (JS.of_Z (time keyPress)) (JS.sub64 (actualNoteStartTime n) margin)
     && JS.le (JS.of_Z (time keyPress)) (JS.add64 (actualNoteStartTime n) margin))%bool in
  let keyColumn := getColumnIndexFromKeyCode (code keyPress) in
  let isCorrectColumn := JS.strict_eq keyColumn (column n) in
  {| note := n;
     isCorrectTiming := isCorrectTiming;
     isCorrectColumn := isCorrectColumn |}.

Definition combined_ : Stream Verdict :=
  Rx.map (fun p => judge (fst p) (snd p))
    (Rx.withLatestFrom userNotes_ keyPresses_).

Definition points (v : Verdict) : Z :=
  if (isCorrectTiming v && isCorrectColumn v)%bool then 1 else 0.

Definition score_ : Stream Z :=
  Rx.startWith initialScore
    (Rx.scan (fun acc value => (acc + value)%Z) initialScore
       (Rx.map points combined_)).

Definition played (r : Result Trigger) : Result AudioCall :=
  t <- r ;; Returned (UserPlayedNote t).

Definition penalty (r : Result Trigger * Rng) : Result AudioCall * Rng :=
  (t <- fst r ;; Returned (RandomNote t), snd r).

(** The subscriber of [combined$] that gives audio feedback. *)
Definition feedback (v : Verdict) (rng : Rng) : Result AudioCall * Rng :=
  if (isCorrectTiming v && isCorrectColumn v)%bool then
    (played (playUserPlayedNote (note v)), rng)
  else if (isCorrectTiming v && negb (isCorrectColumn v))%bool then
    penalty (playRandomNote rng)
  else if (isCorrectColumn v && negb (isCorrectTiming v))%bool then
    penalty (playRandomNote rng)
  else
    penalty (playRandomNote rng).

(** The subscriber run on every verdict in turn, the one [rng] threaded
    through; an exception in one call does not end the subscription. *)
Fixpoint feedback_all (l : list (Z * Verdict)) (rng : Rng)
  : list (Z * Result AudioCall) :=
  match l with
  | [] => []
  | e :: rest =>
      let '(r, rng') := feedback (snd e) rng in
      (fst e, r) :: feedback_all rest rng'
  end.

End Game.

(** [show] and [hide] set the [visibility] attribute of an element. *)
Inductive Visibility : Type := visible | hidden.

(** [render(state)], by what it does to the game-over element. *)
Definition render (state : State) : Visibility :=
  if gameEnd state then visible else hidden.

(** What a run of [main] does that can be observed: the calls of [render]
    (from [gameEnd$]), the texts written to [scoreText] (from [score$]) and
    the audio feedback (from [combined$]).  The two subscriptions with an
    empty callback do nothing; the falling circles and the playback of the
    song itself are not part of this core. *)
Record Run : Type := mkRun {
  rendered : Stream Visibility;
  scoreText : Stream Z;
  audio : list (Z * Result AudioCall)
}.

(** [main(csvContents, samples)], started when [Date.now()] is [now], with
    the key presses that arrive during the run. *)
Definition main (csvContents : string) (samples : list string)
           (now : Z) (keypresses : list (Z * string)) : Result Run :=
  let rng := lcg now in
  parsed <- parseCSV csvContents samples ;;
  let extendedNotes := List.map extend (parsed_notes parsed) in
  Returned
    {| rendered := Rx.map render (gameEnd_ extendedNotes);
       scoreText := score_ extendedNotes keypresses;
       audio := feedback_all samples
                  (events (combined_ extendedNotes keypresses)) rng |}.

Definition instruments : list string :=
  ["bass-electric"; "violin"; "piano"; "trumpet"; "saxophone"; "trombone";
   "flute"]%string.

Definition one_note_csv : string :=
  "user_played,instrument_name,velocity,pitch,start,end
True,piano,64,64,1.0,1.5
".

(* ================================================================== *)
(** ** Definitions used to state the properties                        *)
(* ================================================================== *)

(** The generator after [n] calls. *)
Definition advance (n : nat) (g : Rng) : Rng :=
  Nat.iter n (fun g => snd (call g)) g.

(** How often a schedule calls one of its two generators. *)
Definition calls_of (who : bool) (sched : list bool) : nat :=
  List.length (filter (Bool.eqb who) sched).

(** A verdict that earns the point. *)
Definition fully_correct (v : Verdict) : bool :=
  (isCorrectTiming v && isCorrectColumn v)%bool.

(** How many verdicts of a list earn the point. *)
Definition count_correct (vs : list Verdict) : Z :=
  Z.of_nat (List.length (filter fully_correct vs)).

(** The call [playUserPlayedNote] makes for a note. *)
Definition intended_trigger (n : ExtendedNoteSpec) : Trigger :=
  {| instrument := instrument_name (base n);
     midi := pitch (base n);
     duration := JS.sub (end_ (base n)) (start (base n));
     loudness := velocity (base n) |}.

(** The text of the [i]-th field of a line, as the parsers receive it. *)
Definition field (i : nat) (line : string) : string :=
  JS.to_string (nth_error (JS.split "," line) i).

(** A text is numeric for [parseFloat] when, after white space and an
    optional sign, it goes on with [Infinity], with a digit, or with a point
    and a digit. *)
Definition starts_number (s : string) : bool :=
  let '(_, s1) := JS.read_sign (JS.trim_start s) in
  if String.prefix "Infinity" s1 then true
  else
    match s1 with
    | String c rest =>
        match JS.digit_value c with
        | Some _ => true
        | None =>
            if Ascii.eqb c "." then
              match rest with
              | String d _ =>
                  match JS.digit_value d with
                  | Some _ => true
                  | None => false
                  end
              | EmptyString => false
              end
            else false
        end
    | EmptyString => false
    end.

Definition malformed_csv : string :=
  "user_played,instrument_name,velocity,pitch,start,end
True,piano,64,64,abc,1.5
True,piano,64,65,1.0,1.5
".

(** The moment the last timer of a user-played note fires; 0 when there is
    no such note. *)
Definition last_trigger (extendedNotes : list ExtendedNoteSpec) : Z :=
  fold_right (fun n m => Z.max (Rx.timer_due (actualNoteStartTime n)) m) 0%Z
             (userPlayedNotes extendedNotes).

(** The stream whose end [gameEnd$] waits for. *)
Definition merged_notes (extendedNotes : list ExtendedNoteSpec)
  : Stream ExtendedNoteSpec :=
  Rx.merge_array (userNotes_ extendedNotes) (backgroundNotes extendedNotes).

(** [|keyTime - expected| <= 150], which no time satisfies when [expected]
    is not a finite number. *)
Definition within_tolerance (keyTime : Z) (expected : JS.num) : Prop :=
  match expected with
  | JS.Fin e => Qabs (inject_Z keyTime - e) <= 150
  | _ => False
  end.

(** The next unresolved note at time [t], in the words of the
    specification: the first scheduled user-played note whose trigger is
    still to come. *)
Definition next_unresolved (t : Z) (scheduled : Stream ExtendedNoteSpec)
  : option ExtendedNoteSpec :=
  option_map snd (find (fun e => (t <? fst e)%Z) (events scheduled)).

(** Two user-played notes, due at 3000 ms in column 0 and at 7000 ms in
    column 1. *)
Definition first_note : ExtendedNoteSpec :=
  extend (mkNoteSpec true "piano" (JS.Fin (64 / 127)) (JS.of_Z 64)
                     (JS.Fin 1) (JS.Fin (3 # 2))).

Definition second_note : ExtendedNoteSpec :=
  extend (mkNoteSpec true "piano" (JS.Fin (64 / 127)) (JS.of_Z 65)
                     (JS.Fin 5) (JS.Fin (11 # 2))).

Definition two_notes : list ExtendedNoteSpec := [first_note; second_note].

(** The one record of [one_note_csv]. *)
Definition one_note : NoteSpec :=
  mkNoteSpec true "piano" (JS.Fin (64 / 127)) (JS.of_Z 64)
             (JS.Fin 1) (JS.Fin (3 # 2)).

(** A song file with its header line and no note. *)
Definition empty_song_csv : string :=
  "user_played,instrument_name,velocity,pitch,start,end
".

(** A user-played note at 1 s and a background note at 10 s. *)
Definition late_background : list ExtendedNoteSpec :=
  [ extend one_note;
    extend (mkNoteSpec false "violin" (JS.Fin (100 / 127)) (JS.of_Z 60)
                       (JS.Fin 10) (JS.Fin 11)) ].

(* ================================================================== *)
(** ** The circles and the playback of the song                        *)
(* ================================================================== *)

Module Note.
(** [0.07 * Viewport.CANVAS_WIDTH], taken exactly. *)
Definition RADIUS : Q := (7 # 100) * inject_Z Viewport.CANVAS_WIDTH.
End Note.

(** [array[i]] for a number [i]: [undefined] unless [i] is one of the
    indices of the array. *)
Definition array_get {A : Type} (l : list A) (i : JS.num) : option A :=
  match i with
  | JS.Fin q =>
      if (Qeq_bool q (inject_Z (Qfloor q)) && Qle_bool 0 q)%bool
      then nth_error l (Z.to_nat (Qfloor q))
      else None
  | _ => None
  end.

(** The attributes [createNoteCircle] gives a circle: the radius, the
    horizontal position in percent ([None] stands for the text
    [undefined%]), the vertical position and the fill colour. *)
Record Circle : Type := mkCircle {
  r : Q;
  cx : option Z;
  cy : JS.num;
  fill : string
}.

Definition createNoteCircle (n : ExtendedNoteSpec) : Circle :=
  let columnPositions := [20; 40; 60; 80]%Z in
  {| r := Note.RADIUS;
     cx := array_get columnPositions (column n);
     cy := JS.of_Z 0;
     fill := getColourByColumn (column n) |}.

(** [Constants.BOTTOM_ROW - note.start]. *)
Definition noteDistance (n : ExtendedNoteSpec) : JS.num :=
  JS.sub (JS.of_Z Constants.BOTTOM_ROW) (start (base n)).

(** [(noteDistance / 1.25) * 4]. *)
Definition animationDuration (n : ExtendedNoteSpec) : JS.num :=
  JS.mul (JS.div (noteDistance n) (JS.Fin (5 # 4))) (JS.of_Z 4).

(** The ticks of [interval(period)] that are due before [stop]: tick [k] is
    emitted at [period * (k + 1)]. *)
Definition interval_until (period stop : Z) : list (Z * Z) :=
  List.map (fun k => ((period * (Z.of_nat k + 1))%Z, Z.of_nat k))
           (seq 0 (Z.to_nat ((stop - 1) / period))).

(** [interval(period)], watched until [stop]: it never completes by
    itself. *)
Definition interval_before (period stop : Z) : Stream Z :=
  {| events := interval_until period stop; ending := Open |}.

(** [animation$] of a note, from its subscription: the vertical positions
    written to [cy].  The notifier of [takeUntil] is subscribed before the
    interval, so a tick due in the millisecond of the notifier is not
    emitted. *)
Definition animation_ (n : ExtendedNoteSpec) : Stream JS.num :=
  let notifier := Rx.timer (animationDuration n) tt in
  Rx.map
    (fun elapsed =>
       JS.mul (JS.div (JS.of_Z elapsed) (animationDuration n))
              (JS.add (JS.of_Z Constants.BOTTOM_ROW) (JS.Fin Note.RADIUS)))
    (Rx.takeUntil notifier
       (Rx.map (fun tick => (tick * Constants.TICK_RATE_MS)%Z)
          (interval_before Constants.TICK_RATE_MS
             (Rx.timer_due (animationDuration n))))).

(** What happens to the circle of a note. *)
Inductive DomOp : Type :=
| AppendCircle (c : Circle)     (* [svg.appendChild(noteCircle)] *)
| SetCy (y : JS.num)            (* [noteCircle.setAttribute("cy", yPos)] *)
| RemoveCircle.                 (* [svg.removeChild(noteCircle)] *)

(** The life of a circle created at time [t0]: it is appended, moved by
    every value of its animation, and removed by the callback of
    [finalize] when that runs. *)
Definition circle_life (n : ExtendedNoteSpec) (t0 : Z) : list (Z * DomOp) :=
  (t0, AppendCircle (createNoteCircle n))
  :: List.map (fun e => ((t0 + fst e)%Z, SetCy (snd e))) (events (animation_ n))
  ++ match Rx.finalized (animation_ n) with
     | Some t => [((t0 + t)%Z, RemoveCircle)]
     | None => []
     end.

(** The two timers [mergeMap] sets up for a note. *)
Inductive Cue : Type :=
| AnimationStart (n : ExtendedNoteSpec)
| Sound (n : ExtendedNoteSpec).

(** What a callback of those timers did. *)
Inductive Performed : Type :=
| Sounded (t : Trigger)              (* [playBackgroundNotes] triggered a sampler *)
| Appeared (n : ExtendedNoteSpec).   (* a circle was created and its animation started *)

Section Playback.
Variable samples : list string.
Variable extendedNotes : list ExtendedNoteSpec.

(** [playBackgroundNotes(samples)(note)]: nothing for a user-played note. *)
Definition playBackgroundNotes (n : ExtendedNoteSpec) : Result (option Trigger) :=
  if negb (user_played (base n)) then
    if has_sampler samples (instrument_name (base n)) then
      Returned (Some {| instrument := instrument_name (base n);
                        midi := pitch (base n);
                        duration := JS.sub (end_ (base n)) (start (base n));
                        loudness := velocity (base n) |})
    else Threw (TypeError "samples[note.instrument_name].triggerAttackRelease")
  else Returned None.

(** [note.start * 1000 - animationDuration]. *)
Definition animationStartTime (n : ExtendedNoteSpec) : JS.num :=
  JS.sub (JS.mul (start (base n)) (JS.of_Z 1000)) (animationDuration n).

(** [merge(animationStart$, sound$)] of one note, before the callbacks of
    [map] run. *)
Definition note_cues (n : ExtendedNoteSpec) : Stream Cue :=
  Rx.merge (Rx.timer (animationStartTime n) (AnimationStart n))
           (Rx.timer (JS.mul64 (start (base n)) (JS.of_Z 1000)) (Sound n)).

(** The callbacks of the two [map]s. *)
Definition perform (c : Cue) : Result (option Performed) :=
  match c with
  | AnimationStart n =>
      if user_played (base n) then Returned (Some (Appeared n))
      else Returned None
  | Sound n =>
      t <- playBackgroundNotes n ;; Returned (option_map Sounded t)
  end.

(** The stream subscribed at the end of the setup:
    [timer(2000).pipe(switchMap(() => from(extendedNotes).pipe(mergeMap(...))))]. *)
Definition playback_ : Stream (option Performed) :=
  Rx.after 2000
    (Rx.map_try perform (Rx.mergeMap note_cues extendedNotes)).


End Playback.

(** The pitch of a trigger that went through. *)
Definition midi_of (r : Result Trigger) : option JS.num :=
  match r with
  | Returned t => Some (midi t)
  | Threw _ => None
  end.

(** Whether a character occurs in a string. *)
Fixpoint contains (c : ascii) (s : string) : bool :=
  match s with
  | EmptyString => false
  | String x s' => (Ascii.eqb x c || contains c s')%bool
  end.

(** The line feed, as a character and as the separator of [join]. *)
Definition LF : ascii := "010"%char.
Definition LFs : string := String LF EmptyString.

(** A line that [parseCSV] keeps after dropping the header. *)
Definition nonblank (line : string) : bool :=
  negb (String.eqb (JS.trim line) EmptyString).

(** The instrument names a list of lines brings into [instrumentsFromCSV]:
    the second fields that are not empty, trimmed. *)
Definition instrument_names (lines : list string) : list string :=
  flat_map (fun line =>
              match nth_error (JS.split "," line) 1 with
              | Some name =>
                  if String.eqb name EmptyString then [] else [JS.trim name]
              | None => []
              end) lines.

Definition column_keys : list string := ["KeyH"; "KeyJ"; "KeyK"; "KeyL"]%string.
Definition column_colours : list string :=
  ["green"; "red"; "blue"; "yellow"]%string.

(** A song with an instrument that has no sampler. *)
Definition organ_csv : string :=
  "header
False,organ,64,60,0,1
False, organ ,64,62,1,2
True,piano,64,64,2,3".

(** Emission order agrees with the clock. *)
Definition in_time_order {A : Type} (l : list (Z * A)) : Prop :=
  StronglySorted (fun a b => (fst a <= fst b)%Z) l.

(** The values a stream emits in the millisecond [t], in emission order. *)
Definition emitted_at {A : Type} (t : Z) (l : list (Z * A)) : list A :=
  List.map snd (filter (fun e => (fst e =? t)%Z) l).

(** When the timer of a user-played note fires. *)
Definition note_due (n : ExtendedNoteSpec) : Z :=
  Rx.timer_due (actualNoteStartTime n).

(** A press is followed by silence: no other press arrives within [d] ms
    after it. *)
Definition quiet_after {A : Type} (d : Z) (x : Z * A) (post : list (Z * A)) : Prop :=
  match post with
  | [] => True
  | next :: _ => (fst x + d <= fst next)%Z
  end.

(** Every press of a list but the last is followed by another one less than
    [d] ms later, as when a key is held down and repeats. *)
Fixpoint repeats_within {A : Type} (d : Z) (l : list (Z * A)) : Prop :=
  match l with
  | x :: (y :: _) as rest => (fst y < fst x + d)%Z /\ repeats_within d rest
  | _ => True
  end.

(** The key press [keyPresses$] makes of a [keypress] event. *)
Definition pressed (k : Z * string) : KeyPress :=
  {| code := snd k; time := fst k |}.

(** The calls of the two kinds in the audio feedback. *)
Definition is_user_call (r : Result AudioCall) : bool :=
  match r with
  | Returned (UserPlayedNote _) => true
  | _ => false
  end.

Definition is_random_call (r : Result AudioCall) : bool :=
  match r with
  | Returned (RandomNote _) => true
  | _ => false
  end.

(** The sounds and the circles of a run of the playback. *)
Definition sounds (l : list (Z * option Performed)) : list (Z * Trigger) :=
  flat_map (fun e =>
              match snd e with
              | Some (Sounded t) => [(fst e, t)]
              | _ => []
              end) l.

Definition appearances (l : list (Z * option Performed))
  : list (Z * ExtendedNoteSpec) :=
  flat_map (fun e =>
              match snd e with
              | Some (Appeared n) => [(fst e, n)]
              | _ => []
              end) l.



(** When the circle of a note appears. *)
Definition appears_at (n : ExtendedNoteSpec) : Z :=
  (2000 + Rx.timer_due (animationStartTime n))%Z.

(** What [parseCSV] makes of [organ_csv]. *)
Definition organ_parsed : Parsed :=
  Eval vm_compute in
    match parseCSV organ_csv instruments with
    | Returned p => p
    | Threw _ => mkParsed [] None
    end.


(** A note as [parseCSV] and [extend] make it of a song line with the given
    start field. *)
Definition song_note (played : bool) (p : Z) (start_field : string)
  : ExtendedNoteSpec :=
  extend (mkNoteSpec played "piano" (JS.Fin (64 / 127)) (JS.of_Z p)
                     (JS.parseFloat start_field) (JS.parseFloat "200")).

(** The no-break space U+00A0, in UTF-8. *)
Definition nbsp : string := String "194"%char (String "160"%char EmptyString).

(* ================================================================== *)
(** * Properties                                                       *)
(* ================================================================== *)

Unset Implicit Arguments.

(** ** Sanity checks of the embedding on concrete inputs *)

Example parseFloat_1_5 : JS.parseFloat "1.5" = JS.Fin (3 # 2).
Proof. reflexivity. Qed.

Example parseFloat_exp : JS.parseFloat " -12.50e-1xyz" = JS.Fin (- 5 # 4).
Proof. reflexivity. Qed.

Example parseFloat_dot5 : JS.parseFloat ".5" = JS.Fin (1 # 2).
Proof. reflexivity. Qed.

Example parseFloat_5dot : JS.parseFloat "5." = JS.Fin 5.
Proof. reflexivity. Qed.

Example parseFloat_abc : JS.parseFloat "abc" = JS.NaN.
Proof. reflexivity. Qed.

Example parseFloat_dot : JS.parseFloat "." = JS.NaN.
Proof. reflexivity. Qed.

Example parseFloat_1e : JS.parseFloat "1e" = JS.Fin 1.
Proof. reflexivity. Qed.

Example parseFloat_1e3 : JS.parseFloat "1e3" = JS.Fin 1000.
Proof. reflexivity. Qed.

Example parseInt_64 : JS.parseInt "64" = JS.of_Z 64.
Proof. reflexivity. Qed.

Example parseInt_neg : JS.parseInt " -7.9" = JS.of_Z (-7).
Proof. reflexivity. Qed.

Example parseInt_hex : JS.parseInt "0x1F" = JS.of_Z 31.
Proof. reflexivity. Qed.

Example parseInt_undefined : JS.parseInt (JS.to_string None) = JS.NaN.
Proof. reflexivity. Qed.

Example split_ex :
  JS.split "," "a,,b," = ["a"; EmptyString; "b"; EmptyString]%string.
Proof. reflexivity. Qed.

Example trim_ex : JS.trim "  a b  " = "a b"%string.
Proof. reflexivity. Qed.

Example round53_small : JS.round53 12345 = 12345%Z.
Proof. reflexivity. Qed.

Example round53_big : JS.round53 (2 ^ 53 + 1) = (2 ^ 53)%Z.
Proof. reflexivity. Qed.

Example round53_big3 : JS.round53 (2 ^ 53 + 3) = (2 ^ 53 + 4)%Z.
Proof. reflexivity. Qed.

Example parseInt_beyond_2_53 :
  JS.parseInt "9007199254740993" = JS.of_Z 9007199254740992.
Proof. vm_compute. reflexivity. Qed.

Example parseFloat_overflow :
  JS.parseFloat "1e400" = JS.Inf false /\ JS.parseFloat "1e-400" = JS.Fin 0.
Proof. split; vm_compute; reflexivity. Qed.

Example parseFloat_nbsp : JS.parseFloat (nbsp ++ "1.5") = JS.Fin (3 # 2).
Proof. vm_compute. reflexivity. Qed.

Example trim_nbsp : JS.trim (nbsp ++ "piano" ++ nbsp) = "piano"%string.
Proof. vm_compute. reflexivity. Qed.

Example blank_line_nbsp :
  data_lines ("header" ++ String "010"%char nbsp
              ++ String "010"%char "True,piano,64,64,1,2")
  = ["True,piano,64,64,1,2"%string].
Proof. vm_compute. reflexivity. Qed.

(** [128.003 * 1000 + 2000] is [130002.99999999999] in doubles: the timer
    fires at 130002 ms, and a key at 130153 ms is late. *)
Example due_time_is_rounded :
  note_due (song_note true 64 "128.003") = 130002%Z /\
  isCorrectTiming (judge (mkKeyPress "KeyH" 130152) (song_note true 64 "128.003"))
  = true /\
  isCorrectTiming (judge (mkKeyPress "KeyH" 130153) (song_note true 64 "128.003"))
  = false.
Proof. repeat split; vm_compute; reflexivity. Qed.

(** Notes whose due times fall into one millisecond are emitted in the
    order of the song. *)
Example same_millisecond_in_song_order :
  List.map fst
    (events (userNotes_ [song_note true 64 "128.003"; song_note true 65 "128.0025"]))
  = [130002; 130002]%Z /\
  List.map (fun e => pitch (base (snd e)))
    (events (userNotes_ [song_note true 64 "128.003"; song_note true 65 "128.0025"]))
  = [JS.of_Z 64; JS.of_Z 65].
Proof. split; vm_compute; reflexivity. Qed.

(** A press in the column of the second of those notes, emitted after
    both, is judged against the second and is right. *)
Example same_millisecond_latest_is_last_of_song :
  List.map (fun e => (fst e, pitch (base (note (snd e))), fully_correct (snd e)))
    (events (combined_ [song_note true 64 "128.003"; song_note true 65 "128.0025"]
                       [(130100, "KeyJ")]%Z%string))
  = [(130150%Z, JS.of_Z 65, true)].
Proof. vm_compute. reflexivity. Qed.

(** The game of that song ends at 132002 ms, and a press that would be
    emitted in that millisecond is not heard. *)
Example press_in_the_end_millisecond :
  List.map fst (events (gameEnd_ [song_note true 64 "128.003"])) = [132002%Z] /\
  events (keyPresses_ [song_note true 64 "128.003"] [(131952, "KeyH")]%Z%string)
  = [].
Proof. split; vm_compute; reflexivity. Qed.

(** [1.001 * 1000] is [1000.9999999999999]: the note sounds at 3000 ms. *)
Example sound_time_is_rounded :
  sound_due (song_note false 64 "1.001") = 3000%Z /\
  sound_due (song_note false 64 "2.002") = 4001%Z.
Proof. split; vm_compute; reflexivity. Qed.

Example parseCSV_sample :
  parseCSV sample_csv ["piano"; "violin"]%string =
  Returned {| parsed_notes :=
                [ mkNoteSpec true "piano" (JS.Fin (64 / 127)) (JS.of_Z 64)
                             (JS.Fin 1) (JS.Fin (3 # 2));
                  mkNoteSpec false "violin" (JS.Fin (127 / 127)) (JS.of_Z 61)
                             (JS.Fin (1 # 2)) (JS.Fin 2) ];
              warned_missing := None |}.
Proof. reflexivity. Qed.

Example column_64 : assignColumnByPitch (JS.of_Z 64) = JS.of_Z 0.
Proof. reflexivity. Qed.

Example column_neg : assignColumnByPitch (JS.of_Z (-1)) = JS.of_Z (-1).
Proof. reflexivity. Qed.

Example lcg_neg : fst (call (lcg (-1000))) = Qmake (-3075) 12345.
Proof. reflexivity. Qed.

(* ------------------------------------------------------------------ *)
(** ** Rounding to a double                                            *)
(* ------------------------------------------------------------------ *)

Section Pow2.

Lemma pow2_pos (e : Z) : 0 < 2 ^ e.
Proof. apply Qpower_0_lt. reflexivity. Qed.

Lemma pow2_add (a b : Z) : 2 ^ (a + b) == 2 ^ a * 2 ^ b.
Proof. apply Qpower_plus. discriminate. Qed.

Lemma pow2_succ (a : Z) : 2 ^ (a + 1) == 2 * 2 ^ a.
Proof. rewrite pow2_add. change (2 ^ 1) with 2. ring. Qed.

Lemma pow2_pred (a : Z) : 2 * 2 ^ (a - 1) == 2 ^ a.
Proof. rewrite <- pow2_succ. replace (a - 1 + 1)%Z with a by lia. reflexivity. Qed.

Lemma pow2_le (a b : Z) : (a <= b)%Z -> 2 ^ a <= 2 ^ b.
Proof. intros H. apply Qpower_le_compat_l; [exact H | discriminate]. Qed.

Lemma pow2_lt (a b : Z) : (a < b)%Z -> 2 ^ a < 2 ^ b.
Proof. intros H. apply Qpower_lt_compat_l; [exact H | reflexivity]. Qed.

Lemma pow2_lt_inv (a b : Z) : 2 ^ a < 2 ^ b -> (a < b)%Z.
Proof. intros H. apply (Qpower_lt_compat_l_inv 2); [exact H | reflexivity]. Qed.

Lemma pow2_Z (a : Z) : (0 <= a)%Z -> inject_Z (2 ^ a) == 2 ^ a.
Proof. intros H. rewrite Zpower_Qpower by exact H. reflexivity. Qed.

End Pow2.

Section Log2.

(** [log2_floor q] is the integer part of the binary logarithm. *)
Lemma log2_floor_spec (q : Q) :
  0 < q -> 2 ^ JS.log2_floor q <= q /\ q < 2 ^ (JS.log2_floor q + 1).
Proof.
  intros Hq. destruct q as [n d]. unfold JS.log2_floor. cbn [Qnum Qden].
  assert (Hn : (0 < n)%Z) by (unfold Qlt in Hq; cbn in Hq; lia).
  pose proof (Z.log2_spec n Hn) as [Ha1 Ha2].
  pose proof (Z.log2_spec (Zpos d) ltac:(lia)) as [Hb1 Hb2].
  pose proof (Z.log2_nonneg n) as Ha0.
  pose proof (Z.log2_nonneg (Zpos d)) as Hb0.
  set (a := Z.log2 n) in *. set (b := Z.log2 (Zpos d)) in *.
  rewrite Zle_Qle, pow2_Z in Ha1, Hb1 by lia.
  rewrite Zlt_Qlt, pow2_Z in Ha2, Hb2 by lia.
  unfold Z.succ in Ha2, Hb2. rewrite pow2_succ in Ha2, Hb2.
  pose proof (pow2_pos a) as HA. pose proof (pow2_pos b) as HB.
  pose proof (pow2_pos (a - b)) as HL.
  assert (HAB : 2 ^ a == 2 ^ (a - b) * 2 ^ b)
    by (rewrite <- pow2_add; replace (a - b + b)%Z with a by lia; reflexivity).
  assert (Hqd : (n # d) * inject_Z (Zpos d) == inject_Z n).
  { rewrite (Qmake_Qdiv n d). field. discriminate. }
  assert (Hdpos : 0 < inject_Z (Zpos d)) by reflexivity.
  revert Ha1 Ha2 Hb1 Hb2 HA HB HL HAB Hqd Hdpos Hq.
  generalize (2 ^ a) (2 ^ b) (inject_Z (Zpos d)) (inject_Z n).
  intros A B D N Ha1 Ha2 Hb1 Hb2 HA HB HL HAB Hqd Hdpos Hq.
  destruct (Qle_bool (2 ^ (a - b)) (n # d)) eqn:E.
  - apply Qle_bool_iff in E. split; [exact E|].
    rewrite pow2_succ. revert HL HAB E. generalize (2 ^ (a - b)). intros L HL HAB E.
    destruct (Qlt_le_dec (n # d) (2 * L)) as [H|H]; [exact H|]. exfalso.
    assert (2 * L * B <= (n # d) * D) by nra. nra.
  - assert (E' : n # d < 2 ^ (a - b)).
    { destruct (Qlt_le_dec (n # d) (2 ^ (a - b))) as [H|H]; [exact H|].
      apply Qle_bool_iff in H. congruence. }
    replace (a - b - 1 + 1)%Z with (a - b)%Z by lia. split; [|exact E'].
    pose proof (pow2_pred (a - b)) as Hp. pose proof (pow2_pos (a - b - 1)) as HP.
    revert HL HAB E' Hp HP. generalize (2 ^ (a - b)) (2 ^ (a - b - 1)).
    intros L P HL HAB E' Hp HP.
    destruct (Qlt_le_dec (n # d) P) as [H|H]; [|exact H]. exfalso.
    assert ((n # d) * D < P * (2 * B)) by nra. nra.
Qed.

Lemma log2_floor_unique (q : Q) (l : Z) :
  2 ^ l <= q -> q < 2 ^ (l + 1) -> JS.log2_floor q = l.
Proof.
  intros H1 H2.
  assert (Hq : 0 < q) by (pose proof (pow2_pos l); lra).
  destruct (log2_floor_spec q Hq) as [H3 H4].
  assert (JS.log2_floor q < l + 1)%Z by (apply pow2_lt_inv; lra).
  assert (l < JS.log2_floor q + 1)%Z by (apply pow2_lt_inv; lra).
  lia.
Qed.

Lemma log2_floor_compat (p q : Q) :
  0 < p -> p == q -> JS.log2_floor p = JS.log2_floor q.
Proof.
  intros Hp E. destruct (log2_floor_spec p Hp) as [H1 H2].
  symmetry. apply log2_floor_unique; rewrite <- E; assumption.
Qed.

Lemma log2_floor_mono (p q : Q) :
  0 < p -> p <= q -> (JS.log2_floor p <= JS.log2_floor q)%Z.
Proof.
  intros Hp Hpq.
  destruct (log2_floor_spec p Hp) as [H1 _].
  destruct (log2_floor_spec q ltac:(lra)) as [_ H2].
  assert (JS.log2_floor p < JS.log2_floor q + 1)%Z by (apply pow2_lt_inv; lra).
  lia.
Qed.

End Log2.

Section Rounding.

Lemma round_half_even_cases (x : Q) :
  (JS.round_half_even x = Qfloor x /\ x - inject_Z (Qfloor x) <= 1 # 2) \/
  (JS.round_half_even x = (Qfloor x + 1)%Z /\ 1 # 2 <= x - inject_Z (Qfloor x)).
Proof.
  unfold JS.round_half_even.
  destruct (Qcompare_spec (x - inject_Z (Qfloor x)) (1 # 2)) as [H|H|H].
  - destruct (Z.even (Qfloor x)); [left | right]; split; try reflexivity; lra.
  - left. split; [reflexivity | lra].
  - right. split; [reflexivity | lra].
Qed.

(** The nearest integer is at most one half away. *)
Lemma round_half_even_near (x : Q) :
  Qabs (inject_Z (JS.round_half_even x) - x) <= 1 # 2.
Proof.
  pose proof (Qfloor_le x) as H1. pose proof (Qlt_floor x) as H2.
  rewrite inject_Z_plus in H2. change (inject_Z 1) with 1 in H2.
  apply Qabs_Qle_condition.
  destruct (round_half_even_cases x) as [[-> H]|[-> H]].
  - lra.
  - rewrite inject_Z_plus. change (inject_Z 1) with 1. lra.
Qed.

Lemma round_half_even_Z (k : Z) : JS.round_half_even (inject_Z k) = k.
Proof.
  unfold JS.round_half_even. rewrite Qfloor_Z.
  destruct (Qcompare_spec (inject_Z k - inject_Z k) (1 # 2)) as [H|H|H];
    [lra | reflexivity | lra].
Qed.

Lemma round_half_even_compat (x y : Q) :
  x == y -> JS.round_half_even x = JS.round_half_even y.
Proof.
  intros E. unfold JS.round_half_even.
  assert (Hf : Qfloor x = Qfloor y) by (rewrite E; reflexivity).
  rewrite Hf.
  assert (Hc : (x - inject_Z (Qfloor y) ?= 1 # 2) = (y - inject_Z (Qfloor y) ?= 1 # 2))
    by (rewrite E; reflexivity).
  rewrite Hc. reflexivity.
Qed.

Lemma round_half_even_mono (x y : Q) :
  x <= y -> (JS.round_half_even x <= JS.round_half_even y)%Z.
Proof.
  intros Hxy.
  pose proof (Qfloor_resp_le x y Hxy) as Hf.
  destruct (Z.eq_dec (Qfloor x) (Qfloor y)) as [E|N].
  - unfold JS.round_half_even. rewrite E.
    destruct (Qcompare_spec (x - inject_Z (Qfloor y)) (1 # 2)) as [H1|H1|H1];
      destruct (Qcompare_spec (y - inject_Z (Qfloor y)) (1 # 2)) as [H2|H2|H2];
      try destruct (Z.even (Qfloor y)); try lia; lra.
  - destruct (round_half_even_cases x) as [[-> _]|[-> _]];
      destruct (round_half_even_cases y) as [[-> _]|[-> _]]; lia.
Qed.

End Rounding.

Section Doubles.

Lemma round_half_even_char (x : Q) :
  Qabs (inject_Z (JS.round_half_even x) - x) < 1 # 2 \/
  (Qabs (inject_Z (JS.round_half_even x) - x) == 1 # 2 /\
   Z.even (JS.round_half_even x) = true).
Proof.
  pose proof (Qfloor_le x) as H1. pose proof (Qlt_floor x) as H2.
  rewrite inject_Z_plus in H2. change (inject_Z 1) with 1 in H2.
  unfold JS.round_half_even.
  destruct (Qcompare_spec (x - inject_Z (Qfloor x)) (1 # 2)) as [H|H|H].
  - right. destruct (Z.even (Qfloor x)) eqn:E.
    + split; [|exact E]. rewrite Qabs_neg by lra. lra.
    + split.
      * rewrite inject_Z_plus. change (inject_Z 1) with 1.
        rewrite Qabs_pos by lra. lra.
      * rewrite Z.even_add, E. reflexivity.
  - left. apply Qabs_case; intros; lra.
  - left. rewrite inject_Z_plus. change (inject_Z 1) with 1.
    apply Qabs_case; intros; lra.
Qed.

Lemma round_half_even_unique (x : Q) (m : Z) :
  Qabs (inject_Z m - x) < 1 # 2 \/
  (Qabs (inject_Z m - x) == 1 # 2 /\ Z.even m = true) ->
  JS.round_half_even x = m.
Proof.
  intros Hm. pose proof (round_half_even_char x) as Hr.
  set (r := JS.round_half_even x) in *.
  assert (Hd : Qabs (inject_Z r - x) <= 1 # 2 /\ Qabs (inject_Z m - x) <= 1 # 2)
    by (destruct Hm as [Hm|[Hm _]], Hr as [Hr|[Hr _]]; lra).
  destruct Hd as [Hd1 Hd2].
  apply Qabs_Qle_condition in Hd1, Hd2.
  assert (Hle1 : inject_Z r <= inject_Z (m + 1))
    by (rewrite inject_Z_plus; change (inject_Z 1) with 1; lra).
  assert (Hle2 : inject_Z m <= inject_Z (r + 1))
    by (rewrite inject_Z_plus; change (inject_Z 1) with 1; lra).
  rewrite <- Zle_Qle in Hle1, Hle2.
  destruct (Z.eq_dec r m) as [E|N]; [exact E|]. exfalso.
  assert (Hcase : (r = m + 1 \/ m = r + 1)%Z) by lia.
  assert (Hhalf : Qabs (inject_Z r - x) == 1 # 2 /\ Qabs (inject_Z m - x) == 1 # 2).
  { destruct Hcase as [E|E]; rewrite E in *;
      rewrite ?inject_Z_plus in *; change (inject_Z 1) with 1 in *.
    - split; [rewrite Qabs_pos by lra | rewrite Qabs_neg by lra];
        destruct Hm as [Hm|[Hm _]], Hr as [Hr|[Hr _]];
        revert Hm Hr; (apply Qabs_case; intros ?); (apply Qabs_case; intros ?);
        intros; lra.
    - split; [rewrite Qabs_neg by lra | rewrite Qabs_pos by lra];
        destruct Hm as [Hm|[Hm _]], Hr as [Hr|[Hr _]];
        revert Hm Hr; (apply Qabs_case; intros ?); (apply Qabs_case; intros ?);
        intros; lra. }
  destruct Hhalf as [Hh1 Hh2].
  assert (Er : Z.even r = true) by (destruct Hr as [Hr|[_ Hr]]; [lra | exact Hr]).
  assert (Em : Z.even m = true) by (destruct Hm as [Hm|[_ Hm]]; [lra | exact Hm]).
  destruct Hcase as [E|E]; rewrite E, Z.even_add in *; cbn in *;
    [rewrite Em in Er | rewrite Er in Em]; discriminate.
Qed.

Lemma round_half_even_opp (x : Q) :
  JS.round_half_even (- x) = (- JS.round_half_even x)%Z.
Proof.
  apply round_half_even_unique.
  assert (E : inject_Z (- JS.round_half_even x) - - x
              == - (inject_Z (JS.round_half_even x) - x))
    by (rewrite inject_Z_opp; ring).
  rewrite E, Qabs_opp, Z.even_opp. apply round_half_even_char.
Qed.

Lemma nearest_eq (q : Q) :
  JS.nearest q
  == inject_Z (JS.round_half_even (q / 2 ^ JS.ulp_exponent q)) * 2 ^ JS.ulp_exponent q.
Proof. unfold JS.nearest. apply Qred_correct. Qed.

Lemma nearest_zero (q : Q) : q == 0 -> JS.nearest q = 0.
Proof.
  intros E. unfold JS.nearest. change 0 with (Qred 0). apply Qred_complete.
  assert (E' : q / 2 ^ JS.ulp_exponent q == inject_Z 0)
    by (generalize (2 ^ JS.ulp_exponent q); intros g; rewrite E;
        unfold Qdiv; ring).
  rewrite (round_half_even_compat _ _ E'), round_half_even_Z. ring.
Qed.

Lemma Qabs_pos_lt (q : Q) : ~ q == 0 -> 0 < Qabs q.
Proof. intros H. apply Qabs_case; intros; destruct (Qeq_dec q 0); try tauto; lra. Qed.

Lemma ulp_exponent_compat (p q : Q) :
  ~ p == 0 -> p == q -> JS.ulp_exponent p = JS.ulp_exponent q.
Proof.
  intros Hp E. unfold JS.ulp_exponent. f_equal. f_equal.
  apply log2_floor_compat; [apply Qabs_pos_lt; exact Hp | rewrite E; reflexivity].
Qed.

Lemma nearest_compat (p q : Q) : p == q -> JS.nearest p = JS.nearest q.
Proof.
  intros E. destruct (Qeq_dec p 0) as [Z|N].
  - rewrite (nearest_zero p Z), (nearest_zero q) by (rewrite <- E; exact Z).
    reflexivity.
  - unfold JS.nearest. rewrite (ulp_exponent_compat p q N E).
    apply Qred_complete.
    assert (E' : p / 2 ^ JS.ulp_exponent q == q / 2 ^ JS.ulp_exponent q)
      by (rewrite E; reflexivity).
    rewrite (round_half_even_compat _ _ E'). reflexivity.
Qed.

Lemma Qabs_opp_eq (q : Q) : Qabs (- q) = Qabs q.
Proof. destruct q as [n d]. unfold Qabs, Qopp. cbn. rewrite Z.abs_opp. reflexivity. Qed.

Lemma nearest_opp (q : Q) : JS.nearest (- q) = - JS.nearest q.
Proof.
  unfold JS.nearest, JS.ulp_exponent. rewrite Qabs_opp_eq.
  set (g := 2 ^ Z.max (-1074) (JS.log2_floor (Qabs q) - 52)).
  rewrite <- Qred_opp. apply Qred_complete.
  assert (E : - q / g == - (q / g)) by (unfold Qdiv; ring).
  rewrite (round_half_even_compat _ _ E), round_half_even_opp, inject_Z_opp.
  ring.
Qed.

Lemma nearest_nonneg (q : Q) : 0 <= q -> 0 <= JS.nearest q.
Proof.
  intros H. rewrite nearest_eq.
  pose proof (pow2_pos (JS.ulp_exponent q)) as Hg.
  assert (H0 : inject_Z 0 <= q / 2 ^ JS.ulp_exponent q)
    by (apply Qle_shift_div_l; [exact Hg | change (inject_Z 0) with 0; lra]).
  apply round_half_even_mono in H0. rewrite round_half_even_Z in H0.
  rewrite Zle_Qle in H0. change (inject_Z 0) with 0 in H0.
  apply Qmult_le_0_compat; lra.
Qed.

Lemma ulp_exponent_low (q : Q) :
  ~ q == 0 -> 2 ^ JS.ulp_exponent q * 2 ^ 52 <= Qabs q \/ JS.ulp_exponent q = (-1074)%Z.
Proof.
  intros N. unfold JS.ulp_exponent.
  destruct (log2_floor_spec (Qabs q) (Qabs_pos_lt q N)) as [H1 _].
  destruct (Z.max_spec (-1074) (JS.log2_floor (Qabs q) - 52)) as [[_ ->]|[_ ->]];
    [left | right; reflexivity].
  rewrite <- pow2_add.
  replace (JS.log2_floor (Qabs q) - 52 + 52)%Z with (JS.log2_floor (Qabs q)) by lia.
  exact H1.
Qed.

Lemma ulp_exponent_high (q : Q) :
  ~ q == 0 -> Qabs q < 2 ^ JS.ulp_exponent q * 2 ^ 53.
Proof.
  intros N. unfold JS.ulp_exponent.
  destruct (log2_floor_spec (Qabs q) (Qabs_pos_lt q N)) as [_ H2].
  rewrite <- pow2_add.
  eapply Qlt_le_trans; [exact H2|]. apply pow2_le. lia.
Qed.

(** Rounding to the nearest keeps the order. *)
Lemma nearest_mono_pos (p q : Q) :
  0 < p -> p <= q -> JS.nearest p <= JS.nearest q.
Proof.
  intros Hp Hpq.
  assert (Np : ~ p == 0) by (intros E; lra).
  assert (Nq : ~ q == 0) by (intros E; lra).
  assert (He : (JS.ulp_exponent p <= JS.ulp_exponent q)%Z).
  { unfold JS.ulp_exponent. apply Z.max_le_compat_l.
    apply Z.sub_le_mono_r. apply log2_floor_mono.
    - apply Qabs_pos_lt. exact Np.
    - rewrite !Qabs_pos by lra. exact Hpq. }
  rewrite !nearest_eq.
  pose proof (pow2_pos (JS.ulp_exponent p)) as Hgp.
  pose proof (pow2_pos (JS.ulp_exponent q)) as Hgq.
  destruct (Z.eq_dec (JS.ulp_exponent p) (JS.ulp_exponent q)) as [E|N].
  - rewrite E in *. apply Qmult_le_compat_r; [|lra].
    rewrite <- Zle_Qle. apply round_half_even_mono.
    apply Qmult_le_compat_r; [exact Hpq|].
    apply Qlt_le_weak, Qinv_lt_0_compat. exact Hgq.
  - pose proof (ulp_exponent_high p Np) as Hhi. rewrite Qabs_pos in Hhi by lra.
    destruct (ulp_exponent_low q Nq) as [Hlo|Hlo]; [|unfold JS.ulp_exponent in *; lia].
    rewrite Qabs_pos in Hlo by lra.
    assert (H1 : p / 2 ^ JS.ulp_exponent p <= inject_Z (2 ^ 53))
      by (apply Qle_shift_div_r; [exact Hgp|]; rewrite pow2_Z by lia; lra).
    assert (H2 : inject_Z (2 ^ 52) <= q / 2 ^ JS.ulp_exponent q)
      by (apply Qle_shift_div_l; [exact Hgq|]; rewrite pow2_Z by lia; lra).
    apply round_half_even_mono in H1, H2. rewrite round_half_even_Z in H1, H2.
    rewrite Zle_Qle in H1, H2. rewrite pow2_Z in H1, H2 by lia.
    assert (H3 : 2 ^ 53 * 2 ^ JS.ulp_exponent p <= 2 ^ 52 * 2 ^ JS.ulp_exponent q).
    { rewrite <- !pow2_add. apply pow2_le. lia. }
    assert (H4 : 0 <= inject_Z (JS.round_half_even (q / 2 ^ JS.ulp_exponent q)))
      by (pose proof (pow2_pos 52); lra).
    eapply Qle_trans; [apply Qmult_le_compat_r; [exact H1 | lra]|].
    eapply Qle_trans; [exact H3|].
    apply Qmult_le_compat_r; [exact H2 | lra].
Qed.

Lemma nearest_mono (p q : Q) : p <= q -> JS.nearest p <= JS.nearest q.
Proof.
  intros Hpq.
  destruct (Qlt_le_dec 0 p) as [Hp|Hp]; [apply nearest_mono_pos; assumption|].
  destruct (Qlt_le_dec q 0) as [Hq|Hq].
  - assert (H : JS.nearest (- q) <= JS.nearest (- p))
      by (apply nearest_mono_pos; lra).
    rewrite !nearest_opp in H. lra.
  - pose proof (nearest_nonneg q Hq).
    assert (H' : 0 <= JS.nearest (- p)) by (apply nearest_nonneg; lra).
    rewrite nearest_opp in H'. lra.
Qed.

(** The rounding error is at most half a unit in the last place. *)
Lemma nearest_error (q : Q) :
  Qabs (JS.nearest q - q) <= Qabs q / 2 ^ 53 + 1 / 2 ^ 1075.
Proof.
  assert (Hsmall : 0 < 1 / 2 ^ 1075) by (apply Qlt_shift_div_l; [apply pow2_pos | lra]).
  destruct (Qeq_dec q 0) as [Z|N].
  - rewrite (nearest_zero q Z), Z. cbn [Qabs Qminus]. 
    assert (E : Qabs (0 - 0) == 0) by reflexivity. rewrite E.
    assert (E2 : Qabs 0 / 2 ^ 53 == 0) by reflexivity. rewrite E2. lra.
  - rewrite nearest_eq. set (g := 2 ^ JS.ulp_exponent q).
    assert (Hg : 0 < g) by apply pow2_pos.
    pose proof (round_half_even_near (q / g)) as Hn.
    assert (E : inject_Z (JS.round_half_even (q / g)) * g - q
                == (inject_Z (JS.round_half_even (q / g)) - q / g) * g)
      by (field; lra).
    rewrite E, Qabs_Qmult, (Qabs_pos g) by lra.
    assert (Hb : Qabs (inject_Z (JS.round_half_even (q / g)) - q / g) * g <= g / 2).
    { revert Hn. generalize (Qabs (inject_Z (JS.round_half_even (q / g)) - q / g)).
      intros a Ha. assert (a * g <= (1 # 2) * g) by (apply Qmult_le_compat_r; lra).
      assert (g / 2 == (1 # 2) * g) by field. lra. }
    eapply Qle_trans; [exact Hb|].
    assert (H53 : 2 ^ 53 == 2 * 2 ^ 52) by reflexivity.
    pose proof (pow2_pos 52) as H52. pose proof (Qabs_nonneg q) as Hq0.
    destruct (ulp_exponent_low q N) as [Hlo|Hlo].
    + fold g in Hlo.
      assert (g / 2 <= Qabs q / 2 ^ 53).
      { apply Qle_shift_div_l; [apply pow2_pos|].
        rewrite H53. assert (g / 2 * (2 * 2 ^ 52) == g * 2 ^ 52) by field. lra. }
      lra.
    + assert (Eg : g / 2 == 1 / 2 ^ 1075).
      { unfold g. rewrite Hlo.
        assert (E1 : 2 ^ 1075 == 2 * 2 ^ 1074) by (rewrite <- pow2_succ; reflexivity).
        rewrite E1. change (-1074)%Z with (- (1074))%Z. rewrite Qpower_opp.
        field; try (pose proof (pow2_pos 1074); lra). }
      assert (0 <= Qabs q / 2 ^ 53)
        by (apply Qle_shift_div_l; [apply pow2_pos | lra]).
      lra.
Qed.

(** Integers below [2^53] are doubles. *)
Lemma nearest_Z (z : Z) : (Z.abs z < 2 ^ 53)%Z -> JS.nearest (inject_Z z) = inject_Z z.
Proof.
  intros Hz. destruct (Z.eq_dec z 0) as [->|Nz]; [apply nearest_zero; reflexivity|].
  assert (N : ~ inject_Z z == 0).
  { intros E. unfold Qeq in E. cbn in E. lia. }
  assert (He : (JS.ulp_exponent (inject_Z z) <= 0)%Z).
  { pose proof (ulp_exponent_low (inject_Z z) N) as [Hlo|Hlo]; [|lia].
    assert (Habs : Qabs (inject_Z z) < 2 ^ 53).
    { change (Qabs (inject_Z z)) with (inject_Z (Z.abs z)).
      rewrite <- pow2_Z by lia. rewrite <- Zlt_Qlt. exact Hz. }
    assert (2 ^ (JS.ulp_exponent (inject_Z z) + 52) < 2 ^ 53)
      by (rewrite pow2_add; lra).
    apply pow2_lt_inv in H. lia. }
  unfold JS.nearest. set (e := JS.ulp_exponent (inject_Z z)) in *.
  assert (Hred : Qred (inject_Z z) = inject_Z z)
    by (apply Qcanon.Qred_identity; simpl; apply Z.gcd_1_r).
  transitivity (Qred (inject_Z z)); [|exact Hred].
  apply Qred_complete.
  assert (Eg : 2 ^ e == / inject_Z (2 ^ (- e))).
  { rewrite pow2_Z by lia. rewrite <- Qpower_opp.
    replace (- - e)%Z with e by lia. reflexivity. }
  assert (Hp : 0 < inject_Z (2 ^ (- e)))
    by (rewrite pow2_Z by lia; apply pow2_pos).
  assert (Ed : inject_Z z / 2 ^ e == inject_Z (z * 2 ^ (- e))).
  { rewrite Eg, inject_Z_mult. field. lra. }
  rewrite (round_half_even_compat _ _ Ed), round_half_even_Z.
  rewrite Eg, inject_Z_mult. field. lra.
Qed.

Lemma double_cases (q : Q) :
  (JS.double q = JS.Fin (JS.nearest q) /\ Qabs (JS.nearest q) < 2 ^ 1024) \/
  (JS.double q = JS.Inf false /\ 2 ^ 1024 <= JS.nearest q /\ 0 < q) \/
  (JS.double q = JS.Inf true /\ JS.nearest q <= - 2 ^ 1024 /\ q < 0).
Proof.
  pose proof (pow2_pos 1024) as Hbig.
  unfold JS.double. destruct (Qeq_bool q 0) eqn:E.
  - apply Qeq_bool_iff in E. left. rewrite (nearest_zero q E).
    split; [reflexivity | exact Hbig].
  - apply Qeq_bool_neq in E. cbv zeta.
    destruct (Qle_bool (2 ^ 1024) (Qabs (JS.nearest q))) eqn:O.
    + apply Qle_bool_iff in O. right. unfold JS.Qneg_b.
      destruct (Qle_bool 0 q) eqn:S; cbn [negb].
      * apply Qle_bool_iff in S. left. split; [reflexivity|].
        pose proof (nearest_nonneg q S). rewrite Qabs_pos in O by assumption.
        split; [exact O|]. destruct (Qlt_le_dec 0 q) as [H1|H1]; [exact H1|].
        exfalso. apply E. lra.
      * right. split; [reflexivity|].
        assert (Hq : q < 0).
        { destruct (Qlt_le_dec q 0) as [H1|H1]; [exact H1|].
          apply Qle_bool_iff in H1. congruence. }
        assert (Hn : 0 <= JS.nearest (- q)) by (apply nearest_nonneg; lra).
        rewrite nearest_opp in Hn. rewrite Qabs_neg in O by lra.
        split; [lra | exact Hq].
    + left. split; [reflexivity|].
      destruct (Qlt_le_dec (Qabs (JS.nearest q)) (2 ^ 1024)) as [H1|H1]; [exact H1|].
      apply Qle_bool_iff in H1. congruence.
Qed.

Lemma double_compat (p q : Q) : p == q -> JS.double p = JS.double q.
Proof.
  intros E. unfold JS.double. rewrite (nearest_compat p q E).
  assert (E1 : Qeq_bool p 0 = Qeq_bool q 0).
  { destruct (Qeq_bool p 0) eqn:A, (Qeq_bool q 0) eqn:B; try reflexivity.
    - apply Qeq_bool_iff in A. apply Qeq_bool_neq in B. exfalso. apply B.
      rewrite <- E. exact A.
    - apply Qeq_bool_iff in B. apply Qeq_bool_neq in A. exfalso. apply A.
      rewrite E. exact B. }
  assert (E2 : JS.Qneg_b p = JS.Qneg_b q).
  { unfold JS.Qneg_b. f_equal.
    destruct (Qle_bool 0 p) eqn:A, (Qle_bool 0 q) eqn:B; try reflexivity.
    - apply Qle_bool_iff in A. rewrite E in A. apply Qle_bool_iff in A. congruence.
    - apply Qle_bool_iff in B. rewrite <- E in B. apply Qle_bool_iff in B. congruence. }
  rewrite E1, E2. reflexivity.
Qed.

(** Rounding keeps the order of numbers. *)
Lemma double_mono (p q : Q) : p <= q -> JS.le (JS.double p) (JS.double q) = true.
Proof.
  intros Hpq. pose proof (nearest_mono p q Hpq) as Hn.
  pose proof (pow2_pos 1024) as Hbig.
  destruct (double_cases p) as [[-> Hp]|[[-> [Hp Hp']]|[-> [Hp Hp']]]];
    destruct (double_cases q) as [[-> Hq]|[[-> [Hq Hq']]|[-> [Hq Hq']]]];
    cbn [JS.le orb negb]; try reflexivity.
  - apply Qle_bool_iff. exact Hn.
  - exfalso. revert Hp. apply Qabs_case; intros; lra.
  - exfalso. revert Hq. apply Qabs_case; intros; lra.
  - exfalso. lra.
Qed.

(** A double differs from the number it rounds by at most half a unit in
    the last place. *)
Lemma double_error (q r : Q) :
  JS.double q = JS.Fin r -> Qabs (r - q) <= Qabs q / 2 ^ 53 + 1 / 2 ^ 1075.
Proof.
  intros H.
  destruct (double_cases q) as [[E _]|[[E _]|[E _]]]; rewrite E in H;
    try discriminate.
  injection H as <-. apply nearest_error.
Qed.

Lemma double_not_NaN (q : Q) : JS.double q <> JS.NaN.
Proof.
  destruct (double_cases q) as [[E _]|[[E _]|[E _]]]; rewrite E; discriminate.
Qed.

Lemma double_Z (z : Z) :
  (Z.abs z < 2 ^ 53)%Z -> JS.double (inject_Z z) = JS.Fin (inject_Z z).
Proof.
  intros Hz.
  destruct (double_cases (inject_Z z)) as [[E _]|[[E [H _]]|[E [H _]]]];
    rewrite E, (nearest_Z z Hz) in *; [reflexivity | exfalso | exfalso].
  - assert (inject_Z z < 2 ^ 1024); [|lra].
    apply Qlt_trans with (2 ^ 53); [|apply pow2_lt; lia].
    rewrite <- pow2_Z by lia. rewrite <- Zlt_Qlt. lia.
  - assert (- 2 ^ 1024 < inject_Z z); [|lra].
    apply Qlt_trans with (- 2 ^ 53);
      [pose proof (pow2_lt 53 1024 ltac:(lia)); lra|].
    rewrite <- pow2_Z by lia. rewrite <- inject_Z_opp, <- Zlt_Qlt. lia.
Qed.

(** A number between two integers below [2^53] rounds to a double between
    them. *)
Lemma double_between (q : Q) (lo hi : Z) :
  (Z.abs lo < 2 ^ 53)%Z -> (Z.abs hi < 2 ^ 53)%Z ->
  inject_Z lo <= q -> q <= inject_Z hi ->
  exists r, JS.double q = JS.Fin r /\ inject_Z lo <= r /\ r <= inject_Z hi.
Proof.
  intros Hlo Hhi H1 H2.
  pose proof (double_mono _ _ H1) as M1. pose proof (double_mono _ _ H2) as M2.
  rewrite (double_Z lo Hlo) in M1. rewrite (double_Z hi Hhi) in M2.
  destruct (JS.double q) as [|b|r]; cbn [JS.le] in *; try discriminate.
  - destruct b; cbn in *; discriminate.
  - exists r. split; [reflexivity|].
    apply Qle_bool_iff in M1, M2. split; assumption.
Qed.

End Doubles.

(* ------------------------------------------------------------------ *)
(** ** The noise source                                                *)
(* ------------------------------------------------------------------ *)

Section NoiseSource.
Open Scope Z_scope.

Lemma round53_nonneg (z : Z) : 0 <= z -> 0 <= JS.round53 z.
Proof.
  intros Hz. unfold JS.round53.
  destruct (Z.abs z <? 2 ^ 53) eqn:Hsmall; [exact Hz|].
  apply Z.ltb_ge in Hsmall.
  assert (Hpos : 0 < z) by lia.
  rewrite (Z.sgn_pos z Hpos), Z.mul_1_l.
  apply Z.shiftl_nonneg.
  assert (Hq : 0 <= Z.shiftr (Z.abs z) (Z.log2 (Z.abs z) - 52))
    by (apply Z.shiftr_nonneg; lia).
  repeat match goal with |- context [if ?c then _ else _] => destruct c end; lia.
Qed.

Lemma round53_exact (z : Z) : Z.abs z < 2 ^ 53 -> JS.round53 z = z.
Proof.
  intros H. unfold JS.round53.
  destruct (Z.ltb_spec (Z.abs z) (2 ^ 53)); [reflexivity | lia].
Qed.

Lemma lcg_step_range (seed : Z) : 0 <= seed -> 0 <= lcg_step seed < 12345.
Proof.
  intros H. unfold lcg_step.
  apply Z.rem_bound_pos; [|lia].
  apply round53_nonneg.
  pose proof (round53_nonneg (seed * 67890)). lia.
Qed.

Lemma lcg_step_exact (seed : Z) :
  0 <= seed -> seed * 67890 + 34086315 < 2 ^ 53 ->
  lcg_step seed = lcg_spec_step seed.
Proof.
  intros H0 H1. unfold lcg_step, lcg_spec_step.
  rewrite (round53_exact (seed * 67890)) by lia.
  rewrite round53_exact by lia.
  apply Z.rem_mod_nonneg; lia.
Qed.

Lemma advance_seed_range (n : nat) (S : Z) :
  0 <= S -> 0 <= rng_seed (advance (Datatypes.S n) (lcg S)) < 12345.
Proof.
  intros HS. induction n as [|n IH].
  - simpl. apply lcg_step_range. exact HS.
  - change (advance (Datatypes.S (Datatypes.S n)) (lcg S))
      with (snd (call (advance (Datatypes.S n) (lcg S)))).
    unfold call at 1. cbn [snd rng_seed]. apply lcg_step_range, IH.
Qed.

Lemma advance_shift (n : nat) (g : Rng) :
  advance n (snd (call g)) = snd (call (advance n g)).
Proof.
  symmetry. exact (Nat.iter_succ_r n Rng (fun g => snd (call g)) g).
Qed.

Lemma nth_draws (n : nat) (g : Rng) :
  nth n (draws (Datatypes.S n) g) 0%Q = fst (call (advance n g)).
Proof.
  revert g. induction n as [|n IH]; intros g.
  - reflexivity.
  - change (draws (Datatypes.S (Datatypes.S n)) g)
      with (fst (call g) :: draws (Datatypes.S n) (snd (call g))).
    cbn [nth]. rewrite IH, advance_shift. reflexivity.
Qed.

Lemma nth_output_seed (S : Z) (n : nat) :
  nth_output S n = Qmake (rng_seed (advance (Datatypes.S n) (lcg S))) 12345.
Proof.
  unfold nth_output. rewrite nth_draws. reflexivity.
Qed.

(** Each of two generators that run side by side sees only its own calls. *)
Lemma run_schedule_separate (sched : list bool) (a b : Rng) :
  outputs_of false (run_schedule sched a b) = draws (calls_of false sched) a /\
  outputs_of true (run_schedule sched a b) = draws (calls_of true sched) b.
Proof.
  revert a b. induction sched as [|[|] rest IH]; intros a b.
  - split; reflexivity.
  - destruct (IH a (snd (call b))) as [IHa IHb].
    split.
    + exact IHa.
    + unfold outputs_of, calls_of in *. cbn. f_equal. exact IHb.
  - destruct (IH (snd (call a)) b) as [IHa IHb].
    split.
    + unfold outputs_of, calls_of in *. cbn. f_equal. exact IHa.
    + exact IHb.
Qed.

End NoiseSource.

Lemma nth_error_draws (m n : nat) (g : Rng) :
  (n < m)%nat ->
  nth_error (draws m g) n = Some (nth n (draws (Datatypes.S n) g) 0%Q).
Proof.
  revert n g. induction m as [|m IH]; intros n g Hn; [lia|].
  change (draws (Datatypes.S m) g)
    with (fst (call g) :: draws m (snd (call g))).
  destruct n as [|n]; [reflexivity|].
  change (draws (Datatypes.S (Datatypes.S n)) g)
    with (fst (call g) :: draws (Datatypes.S n) (snd (call g))).
  cbn [nth_error nth]. apply IH. lia.
Qed.

(** C8, the claim as stated fails.  A negative seed gives a negative
    output: the remainder operator keeps the sign of its left operand.  And
    on a seed of the size of a wall-clock reading the first update is not
    the exact recurrence: the product leaves the integers a double holds
    exactly and is rounded. *)
Lemma lcg_negative_seed_leaves_unit_interval :
  nth_output (-1000) 0 = Qmake (-3075) 12345 /\
  ~ (0 <= nth_output (-1000) 0 < 1)%Q /\
  lcg_step 1700000000001 = 3318%Z /\
  lcg_spec_step 1700000000001 = 3315%Z.
Proof.
  split; [reflexivity|]. split; [|split; reflexivity].
  intros [H _]. revert H. vm_compute. intros H. apply H. reflexivity.
Qed.

(** C8, amended: for every non-negative integer seed [S] and every [n], a
    generator created with seed [S] gives the same [n]-th output in every
    run, also when two such generators are called in any interleaving; the
    output is the updated seed divided by 12345 and lies in [0,1); and the
    update is the recurrence [seed' = (seed * 67890 + 34086315) mod 12345]
    from the second draw on, and on the first draw whenever
    [S * 67890 + 34086315] is below [2^53]. *)
Theorem lcg_reproducible_sequence (S : Z) (n : nat) :
  (0 <= S)%Z ->
  (forall (sched : list bool) (who : bool),
      (n < calls_of who sched)%nat ->
      nth_error (outputs_of who (run_schedule sched (lcg S) (lcg S))) n
      = Some (nth_output S n)) /\
  nth_output S n = Qmake (rng_seed (advance (Datatypes.S n) (lcg S))) 12345 /\
  ((n = 0%nat -> (S * 67890 + 34086315 < 2 ^ 53)%Z) ->
   rng_seed (advance (Datatypes.S n) (lcg S))
   = lcg_spec_step (rng_seed (advance n (lcg S)))) /\
  (0 <= nth_output S n < 1)%Q.
Proof.
  intros HS. split; [|split; [|split]].
  - intros sched who Hn.
    destruct (run_schedule_separate sched (lcg S) (lcg S)) as [Ha Hb].
    unfold nth_output.
    destruct who; [rewrite Hb | rewrite Ha]; apply nth_error_draws; exact Hn.
  - apply nth_output_seed.
  - intros Hfirst.
    change (advance (Datatypes.S n) (lcg S))
      with (snd (call (advance n (lcg S)))).
    unfold call at 1. cbn [snd rng_seed].
    destruct n as [|n].
    + apply lcg_step_exact; [exact HS | apply Hfirst; reflexivity].
    + pose proof (advance_seed_range n S HS) as Hr.
      apply lcg_step_exact; lia.
  - rewrite nth_output_seed.
    pose proof (advance_seed_range n S HS) as Hr.
    unfold Qle, Qlt. cbn [Qnum Qden]. lia.
Qed.

Lemma lcg_reproducible_sequence_witness :
  (0 <= 42)%Z /\
  (0 <= nth_output 42 3 < 1)%Q /\
  nth_error (outputs_of true
               (run_schedule [false; true; true; false; true; true]
                             (lcg 42) (lcg 42))) 3
  = Some (nth_output 42 3).
Proof.
  assert (H : (0 <= 42)%Z) by lia.
  split; [exact H|].
  destruct (lcg_reproducible_sequence 42 3 H) as [Hdet [_ [_ Hrange]]].
  split; [exact Hrange|].
  apply Hdet. vm_compute. lia.
Defined.

(* ------------------------------------------------------------------ *)
(** ** Columns and colours                                             *)
(* ------------------------------------------------------------------ *)

Lemma Qred_inject_Z (z : Z) : Qred (inject_Z z) = inject_Z z.
Proof. apply Qcanon.Qred_identity. simpl. apply Z.gcd_1_r. Qed.

Lemma Qtrunc_quarter (p : Z) :
  JS.Qtrunc (inject_Z p / inject_Z 4) = Z.quot p 4.
Proof.
  unfold JS.Qtrunc, JS.Qneg_b, Qle_bool, Qdiv, Qmult, Qinv, inject_Z.
  cbn [Qnum Qden Z.mul Pos.mul negb].
  rewrite !Z.mul_1_r.
  destruct (Z.leb_spec 0 p) as [Hp|Hp]; cbn [negb].
  - unfold Qfloor. symmetry. apply Z.quot_div_nonneg; lia.
  - unfold Qceiling, Qfloor, Qopp. cbn [Qnum Qden].
    rewrite <- (Z.quot_div_nonneg (- p) 4) by lia.
    rewrite Z.quot_opp_l by lia. lia.
Qed.

(** On integers the model of [%] is the truncating remainder. *)
Lemma assignColumnByPitch_Z (p : Z) :
  assignColumnByPitch (JS.of_Z p) = JS.of_Z (Z.rem p 4).
Proof.
  unfold assignColumnByPitch, JS.rem, JS.of_Z.
  change (Qeq_bool (inject_Z 4) 0) with false. cbv iota.
  f_equal. rewrite Qtrunc_quarter.
  rewrite <- (Qred_inject_Z (Z.rem p 4)).
  apply Qred_complete.
  rewrite (Z.rem_eq p 4) by lia.
  unfold Qeq, Qminus, Qplus, Qopp, Qmult, inject_Z. cbn [Qnum Qden]. lia.
Qed.

(** On the pitches a MIDI file can hold, and on every other non-negative
    integer, the column is [p mod 4], one of 0, 1, 2, 3, and it decides the
    colour. *)
Lemma assignColumnByPitch_nonneg (p : Z) :
  (0 <= p)%Z ->
  assignColumnByPitch (JS.of_Z p) = JS.of_Z (p mod 4) /\
  (0 <= p mod 4 < 4)%Z /\
  getColourByColumn (assignColumnByPitch (JS.of_Z p))
  = nth (Z.to_nat (p mod 4)) ["green"; "red"; "blue"; "yellow"]%string
        "black"%string.
Proof.
  intros Hp.
  rewrite assignColumnByPitch_Z, Z.rem_mod_nonneg by lia.
  pose proof (Z.mod_pos_bound p 4 ltac:(lia)) as Hr.
  split; [reflexivity|]. split; [exact Hr|].
  assert (Hc : (p mod 4 = 0 \/ p mod 4 = 1 \/ p mod 4 = 2 \/ p mod 4 = 3)%Z)
    by lia.
  destruct Hc as [-> | [-> | [-> | ->]]]; reflexivity.
Qed.

Lemma same_residue_same_column (p q : Z) :
  (0 <= p)%Z -> (0 <= q)%Z -> (p mod 4 = q mod 4)%Z ->
  assignColumnByPitch (JS.of_Z p) = assignColumnByPitch (JS.of_Z q) /\
  getColourByColumn (assignColumnByPitch (JS.of_Z p))
  = getColourByColumn (assignColumnByPitch (JS.of_Z q)).
Proof.
  intros Hp Hq Heq.
  destruct (assignColumnByPitch_nonneg p Hp) as [-> _].
  destruct (assignColumnByPitch_nonneg q Hq) as [-> _].
  rewrite Heq. split; reflexivity.
Qed.

(** C7, the failing input.  The pitch [-1], read from a line of the song
    file, is given the column [-1]: the remainder of a negative number is
    negative.  The claim and the comment on [assignColumnByPitch] ("Returns
    0, 1, 2, or 3") put it in column [(-1) mod 4 = 3]; the circle gets the
    colour kept for the "case of error".  The same happens on every negative
    pitch that is not a multiple of 4: the column is [p mod 4 - 4]. *)
Theorem assignColumnByPitch_negative_pitch :
  parse_line "True,piano,64,-1,1.0,1.5"
  = Returned (mkNoteSpec true "piano" (JS.Fin (64 / 127)) (JS.of_Z (-1))
                         (JS.Fin 1) (JS.Fin (3 # 2))) /\
  assignColumnByPitch (JS.of_Z (-1)) = JS.of_Z (-1) /\
  ((-1) mod 4 = 3)%Z /\
  getColourByColumn (assignColumnByPitch (JS.of_Z (-1))) = "black"%string /\
  getColourByColumn (JS.of_Z ((-1) mod 4)) = "yellow"%string /\
  forall p : Z,
    (p < 0)%Z -> (p mod 4 <> 0)%Z ->
    assignColumnByPitch (JS.of_Z p) = JS.of_Z (p mod 4 - 4) /\
    (-4 < p mod 4 - 4 < 0)%Z /\
    getColourByColumn (assignColumnByPitch (JS.of_Z p)) = "black"%string.
Proof.
  do 5 (split; [reflexivity|]).
  intros p Hneg Hnz.
  assert (Hrem : Z.rem p 4 = (p mod 4 - 4)%Z).
  { rewrite Z.rem_mod by lia.
    rewrite (Z.sgn_neg p Hneg), (Z.abs_neq p) by lia.
    change (Z.abs 4) with 4%Z.
    rewrite Z.mod_opp_l_nz by (try lia; exact Hnz). lia. }
  pose proof (Z.mod_pos_bound p 4 ltac:(lia)) as Hb.
  rewrite assignColumnByPitch_Z, Hrem.
  split; [reflexivity|]. split; [lia|].
  assert (Hc : (p mod 4 = 1 \/ p mod 4 = 2 \/ p mod 4 = 3)%Z) by lia.
  destruct Hc as [-> | [-> | ->]]; reflexivity.
Qed.

Lemma assignColumnByPitch_negative_pitch_witness :
  assignColumnByPitch (JS.of_Z (-6)) = JS.of_Z (-2).
Proof.
  apply (proj2 (proj2 (proj2 (proj2 (proj2
           assignColumnByPitch_negative_pitch)))) (-6)%Z);
    [lia | discriminate].
Defined.

(* ------------------------------------------------------------------ *)
(** ** The score                                                       *)
(* ------------------------------------------------------------------ *)

Section Score.
Open Scope Z_scope.

Lemma points_fully_correct (v : Verdict) :
  points v = if fully_correct v then 1 else 0.
Proof. reflexivity. Qed.

Lemma count_correct_app (l1 l2 : list Verdict) :
  count_correct (l1 ++ l2) = count_correct l1 + count_correct l2.
Proof.
  unfold count_correct. rewrite filter_app, length_app. lia.
Qed.

Lemma count_correct_cons (v : Verdict) (l : list Verdict) :
  count_correct (v :: l) = points v + count_correct l.
Proof.
  unfold count_correct, points, fully_correct. cbn [filter].
  destruct (isCorrectTiming v && isCorrectColumn v)%bool; cbn [List.length]; lia.
Qed.

Lemma count_correct_nonneg (l : list Verdict) : 0 <= count_correct l.
Proof. unfold count_correct. lia. Qed.

Lemma firstn_snoc {A} (l : list A) (n : nat) (a : A) :
  nth_error l n = Some a -> firstn (S n) l = firstn n l ++ [a].
Proof.
  revert n. induction l as [|x l IH]; intros [|n] H; try discriminate.
  - injection H as ->. reflexivity.
  - cbn [firstn app]. f_equal. apply IH. exact H.
Qed.

Lemma count_correct_firstn_mono (l : list Verdict) (i j : nat) :
  (i <= j)%nat -> count_correct (firstn i l) <= count_correct (firstn j l).
Proof.
  intros Hij.
  rewrite <- (firstn_skipn i (firstn j l)) at 1.
  rewrite count_correct_app, firstn_firstn, Nat.min_l by exact Hij.
  pose proof (count_correct_nonneg (skipn i (firstn j l))). lia.
Qed.

(** [scan] emits when its source does. *)
Lemma scan_events_times {A B} (f : B -> A -> B) (acc : B) (l : list (Z * A)) :
  List.map fst (Rx.scan_events f acc l) = List.map fst l.
Proof.
  revert acc. induction l as [|e l IH]; intros acc; [reflexivity|].
  cbn [Rx.scan_events List.map fst]. f_equal. apply IH.
Qed.

(** The accumulation of [scan] over the points of a list of verdicts. *)
Lemma scan_points (E : list (Z * Verdict)) (acc : Z) (n : nat) :
  (n < List.length E)%nat ->
  nth_error
    (List.map snd
       (Rx.scan_events (fun a value => a + value) acc
          (List.map (fun e => (fst e, points (snd e))) E))) n
  = Some (acc + count_correct (firstn (S n) (List.map snd E))).
Proof.
  revert acc n. induction E as [|e E IH]; intros acc n Hn; [cbn in Hn; lia|].
  destruct n as [|n].
  - cbn [List.map Rx.scan_events nth_error fst snd firstn].
    rewrite count_correct_cons. unfold count_correct. cbn. f_equal. lia.
  - cbn [List.map Rx.scan_events nth_error fst snd].
    rewrite IH by (cbn in Hn; lia).
    cbn [firstn]. rewrite (count_correct_cons (snd e)). f_equal. lia.
Qed.

End Score.

Section ScoreStream.
Open Scope Z_scope.
Variable extendedNotes : list ExtendedNoteSpec.
Variable keypresses : list (Z * string).

Let verdicts := events (combined_ extendedNotes keypresses).
Let scores := events (score_ extendedNotes keypresses).

Lemma scores_unfold :
  scores = (0, 0) :: Rx.scan_events (fun a value => a + value) 0
                       (List.map (fun e => (fst e, points (snd e))) verdicts).
Proof. reflexivity. Qed.

Lemma scores_length : List.length scores = S (List.length verdicts).
Proof.
  rewrite scores_unfold. cbn [List.length]. f_equal.
  rewrite <- (length_map fst), scan_events_times, !length_map. reflexivity.
Qed.

Lemma scores_times :
  List.map fst scores = 0 :: List.map fst verdicts.
Proof.
  rewrite scores_unfold. cbn [List.map fst]. f_equal.
  rewrite scan_events_times, map_map. reflexivity.
Qed.

(** After [n] verdicts the score is the number of fully correct ones. *)
Lemma scores_values (n : nat) :
  (n <= List.length verdicts)%nat ->
  nth_error (List.map snd scores) n
  = Some (count_correct (firstn n (List.map snd verdicts))).
Proof.
  intros Hn. rewrite scores_unfold. destruct n as [|n]; [reflexivity|].
  cbn [List.map nth_error snd].
  rewrite scan_points by lia. reflexivity.
Qed.

End ScoreStream.

(** C3: the score stream starts with 0, emitted on subscription before any
    verdict; each verdict adds exactly 1 when it is correct in timing and in
    column and 0 otherwise; the score never decreases; and after [N]
    verdicts of which [K] are fully correct it is [K]. *)
Theorem score_counts_fully_correct_verdicts
        (extendedNotes : list ExtendedNoteSpec) (keypresses : list (Z * string)) :
  let verdicts := events (combined_ extendedNotes keypresses) in
  let scores := events (score_ extendedNotes keypresses) in
  nth_error scores 0 = Some (0, 0)%Z /\
  List.map fst scores = 0%Z :: List.map fst verdicts /\
  (forall N : nat,
      (N <= List.length verdicts)%nat ->
      nth_error (List.map snd scores) N
      = Some (count_correct (firstn N (List.map snd verdicts)))) /\
  (forall (n : nat) (t : Z) (v : Verdict) (before : Z),
      nth_error verdicts n = Some (t, v) ->
      nth_error (List.map snd scores) n = Some before ->
      nth_error (List.map snd scores) (S n)
      = Some (before + (if (isCorrectTiming v && isCorrectColumn v)%bool
                        then 1 else 0))%Z) /\
  (forall (i j : nat) (a b : Z),
      (i <= j)%nat ->
      nth_error (List.map snd scores) i = Some a ->
      nth_error (List.map snd scores) j = Some b ->
      (a <= b)%Z).
Proof.
  intros verdicts scores.
  split; [reflexivity|]. split; [apply scores_times|].
  split; [apply scores_values|]. split.
  - intros n t v before Hv Hb.
    assert (Hn : (n < List.length verdicts)%nat)
      by (apply nth_error_Some; rewrite Hv; discriminate).
    unfold scores in *.
    rewrite scores_values in Hb by (fold verdicts; lia).
    rewrite scores_values by (fold verdicts; lia).
    injection Hb as <-. fold verdicts.
    rewrite (firstn_snoc (List.map snd verdicts) n v)
      by (rewrite nth_error_map, Hv; reflexivity).
    rewrite count_correct_app, count_correct_cons.
    change (count_correct []) with 0%Z.
    rewrite points_fully_correct. unfold fully_correct.
    destruct (isCorrectTiming v && isCorrectColumn v)%bool; f_equal; lia.
  - intros i j a b Hij Ha Hb.
    assert (Hj : (j <= List.length verdicts)%nat).
    { assert (H : (j < List.length (List.map snd scores))%nat)
        by (apply nth_error_Some; rewrite Hb; discriminate).
      rewrite length_map in H. unfold scores in H.
      rewrite scores_length in H. fold verdicts in H. lia. }
    unfold scores in *.
    rewrite scores_values in Ha by (fold verdicts; lia).
    rewrite scores_values in Hb by (fold verdicts; lia).
    injection Ha as <-. injection Hb as <-.
    apply count_correct_firstn_mono. exact Hij.
Qed.

Lemma score_counts_fully_correct_verdicts_witness :
  let notes := [extend one_note] in
  let keys := [(3000, "KeyH"); (3100, "KeyJ"); (3200, "KeyH")]%Z%string in
  List.map snd (events (score_ notes keys)) = [0; 1; 1; 1]%Z /\
  nth_error (List.map snd (events (score_ notes keys))) 1
  = Some (0 + 1)%Z.
Proof.
  intros notes keys. split; [reflexivity|].
  destruct (score_counts_fully_correct_verdicts notes keys)
    as [_ [_ [_ [Hstep _]]]].
  apply (Hstep 0%nat 3050%Z
               (judge (mkKeyPress "KeyH" 3000) (extend one_note)) 0%Z);
    reflexivity.
Defined.

(* ------------------------------------------------------------------ *)
(** ** Audio feedback                                                  *)
(* ------------------------------------------------------------------ *)

Section Feedback.
Variable samples : list string.

Lemma feedback_cases (v : Verdict) (rng : Rng) :
  feedback samples v rng
  = if fully_correct v
    then (played (playUserPlayedNote samples (note v)), rng)
    else penalty (playRandomNote samples rng).
Proof.
  unfold feedback, fully_correct.
  destruct (isCorrectTiming v), (isCorrectColumn v); reflexivity.
Qed.

Lemma playUserPlayedNote_trigger (n : ExtendedNoteSpec) :
  playUserPlayedNote samples n
  = if has_sampler samples (instrument_name (base n))
    then Returned (intended_trigger n)
    else Threw (TypeError "samples[note.instrument_name].triggerAttackRelease").
Proof. reflexivity. Qed.

(** The trigger [playRandomNote] derives from its three draws. *)
Lemma playRandomNote_unfold (rng : Rng) :
  playRandomNote samples rng
  = (let r1 := fst (call rng) in
     let r2 := fst (call (advance 1 rng)) in
     let r3 := fst (call (advance 2 rng)) in
     let i := Qfloor (r1 * inject_Z (Z.of_nat (List.length samples))) in
     match (if (i <? 0)%Z then None else nth_error samples (Z.to_nat i)) with
     | Some name =>
         Returned {| instrument := name;
                     midi := JS.of_Z (Qfloor (r1 * 88 + 21));
                     duration := JS.Fin (toFixed2 ((1 # 10) + r2 * (4 # 10)));
                     loudness := JS.Fin ((1 # 2) + r3 * (1 # 2)) |}
     | None => Threw (TypeError "samples[randomInstrument].triggerAttackRelease")
     end,
     advance 3 rng).
Proof. reflexivity. Qed.

(** With a non-negative seed and at least one sampler the lookup of the
    random instrument succeeds, and the pitch is on the piano. *)
Lemma playRandomNote_plays (rng : Rng) :
  (0 <= rng_seed rng)%Z -> samples <> [] ->
  exists t,
    fst (playRandomNote samples rng) = Returned t /\
    In (instrument t) samples /\
    exists p, midi t = JS.of_Z p /\ (21 <= p <= 108)%Z.
Proof.
  intros Hseed Hne. rewrite playRandomNote_unfold. cbv zeta. cbn [fst].
  pose proof (lcg_step_range (rng_seed rng) Hseed) as Hr.
  set (s := lcg_step (rng_seed rng)) in *.
  set (len := Z.of_nat (List.length samples)).
  assert (Hlen : (0 < len)%Z)
    by (subst len; destruct samples; [congruence | cbn [List.length]; lia]).
  assert (Hi : Qfloor (fst (call rng) * inject_Z len) = (s * len / 12345)%Z).
  { unfold call. cbn [fst]. fold s. unfold Qfloor, Qmult, inject_Z.
    cbn [Qnum Qden]. rewrite Pos.mul_1_r. reflexivity. }
  rewrite Hi.
  assert (Hb : (0 <= s * len / 12345 < len)%Z).
  { split; [apply Z.div_pos; nia|].
    apply Z.div_lt_upper_bound; nia. }
  destruct (Z.ltb_spec (s * len / 12345) 0) as [Hneg|_]; [lia|].
  destruct (nth_error samples (Z.to_nat (s * len / 12345))) as [name|] eqn:Hn.
  - eexists. split; [reflexivity|]. cbn [instrument midi].
    split; [eapply nth_error_In; exact Hn|].
    eexists. split; [reflexivity|].
    unfold call. cbn [fst]. fold s. unfold Qfloor, Qplus, Qmult.
    cbn [Qnum Qden]. rewrite !Pos.mul_1_r.
    change (Z.pos (12345 * 1)) with 12345%Z.
    replace (s * 88 * 1 + 21 * 12345)%Z with (s * 88 + 21 * 12345)%Z by lia.
    rewrite Z.div_add by lia.
    assert (0 <= s * 88 / 12345 < 88)%Z
      by (split; [apply Z.div_pos; lia | apply Z.div_lt_upper_bound; lia]).
    lia.
  - apply nth_error_None in Hn. subst len. lia.
Qed.

End Feedback.





(* ------------------------------------------------------------------ *)
(** ** The timeline builder                                            *)
(* ------------------------------------------------------------------ *)

Section TimelineBuilder.

Lemma read_digits_count (f : ascii -> option Z) (radix : Z) (s : string)
      (acc : Z) (n : nat) :
  (n <= snd (fst (JS.read_digits f radix s acc n)))%nat.
Proof.
  revert acc n. induction s as [|c s IH]; intros acc n; cbn; [lia|].
  destruct (f c); cbn; [|lia].
  specialize (IH (acc * radix + z)%Z (S n)). lia.
Qed.

Lemma read_digits_no_digit (f : ascii -> option Z) (radix : Z) (c : ascii)
      (s : string) (acc : Z) (n : nat) :
  f c = None ->
  JS.read_digits f radix (String c s) acc n = (acc, n, String c s).
Proof. intros H. cbn. rewrite H. reflexivity. Qed.

Lemma read_digits_digit (f : ascii -> option Z) (radix : Z) (c : ascii)
      (s : string) (acc : Z) (n : nat) (d : Z) :
  f c = Some d ->
  exists v k r, JS.read_digits f radix (String c s) acc n = (v, S k, r).
Proof.
  intros H. cbn. rewrite H.
  pose proof (read_digits_count f radix s (acc * radix + d)%Z (S n)) as Hc.
  destruct (JS.read_digits f radix s (acc * radix + d)%Z (S n)) as [[v k] r].
  cbn in Hc. destruct k as [|k]; [lia|]. eauto.
Qed.

(** [parseFloat] gives [NaN] exactly on the texts that are not numeric. *)
Ltac nan_absurd :=
  split;
  [ first [ discriminate
          | let H := fresh in intros H; exfalso; exact (double_not_NaN _ H) ]
  | discriminate ].

Lemma parseFloat_NaN_iff (s : string) :
  JS.parseFloat s = JS.NaN <-> starts_number s = false.
Proof.
  unfold JS.parseFloat, starts_number.
  destruct (JS.read_sign (JS.trim_start s)) as [sg s1].
  destruct (String.prefix "Infinity" s1); [split; discriminate|].
  destruct s1 as [|c rest]; [split; reflexivity|].
  destruct (JS.digit_value c) as [d|] eqn:Hc.
  - destruct (read_digits_digit JS.digit_value 10 c rest 0%Z 0%nat d Hc)
      as [v [k [r ->]]].
    destruct r as [|c' r']; [nan_absurd|].
    destruct (Ascii.eqb c' "."); [|nan_absurd].
    destruct (JS.read_digits JS.digit_value 10 r' v 0) as [[m n2] r2].
    nan_absurd.
  - rewrite (read_digits_no_digit JS.digit_value 10 c rest 0%Z 0%nat Hc).
    destruct (Ascii.eqb c "."); [|split; reflexivity].
    destruct rest as [|d rest']; [split; reflexivity|].
    destruct (JS.digit_value d) as [dv|] eqn:Hd.
    + destruct (read_digits_digit JS.digit_value 10 d rest' 0%Z 0%nat dv Hd)
        as [v [k [r ->]]].
      nan_absurd.
    + rewrite (read_digits_no_digit JS.digit_value 10 d rest' 0%Z 0%nat Hd).
      split; reflexivity.
Qed.

(** A line with an instrument field is parsed, whatever its other fields
    hold. *)
Lemma parse_line_returns (line : string) :
  (2 <= List.length (JS.split "," line))%nat ->
  exists n,
    parse_line line = Returned n /\
    start n = JS.parseFloat (field 4 line) /\
    end_ n = JS.parseFloat (field 5 line).
Proof.
  intros Hlen. unfold parse_line, field.
  destruct (nth_error (JS.split "," line) 1) as [name|] eqn:Hn.
  - eexists. split; [reflexivity|]. split; reflexivity.
  - apply nth_error_None in Hn. lia.
Qed.

Lemma map_result_returns {A B} (f : A -> Result B) (l : list A) :
  (forall a, In a l -> exists b, f a = Returned b) ->
  exists bs,
    map_result f l = Returned bs /\
    List.length bs = List.length l /\
    forall i a, nth_error l i = Some a ->
                exists b, nth_error bs i = Some b /\ f a = Returned b.
Proof.
  induction l as [|x l IH]; intros H.
  - exists []. split; [reflexivity|]. split; [reflexivity|].
    intros [|i] a Hi; discriminate.
  - destruct (H x (or_introl eq_refl)) as [y Hy].
    destruct IH as [ys [Hys [Hlen Hnth]]];
      [intros a Ha; apply H; right; exact Ha|].
    exists (y :: ys). cbn [map_result]. rewrite Hy. cbn [bind_result].
    rewrite Hys. cbn [bind_result].
    split; [reflexivity|]. split; [cbn; f_equal; exact Hlen|].
    intros [|i] a Hi; cbn [nth_error] in *.
    + injection Hi as <-. exists y. split; [reflexivity | exact Hy].
    + apply Hnth. exact Hi.
Qed.

End TimelineBuilder.

(* ------------------------------------------------------------------ *)
(** ** Facts about the stream operators                                *)
(* ------------------------------------------------------------------ *)

Section StreamFacts.
Open Scope Z_scope.

Lemma merge_events_In {A} (l1 l2 : list (Z * A)) (e : Z * A) :
  In e (Rx.merge_events l1 l2) <-> In e l1 \/ In e l2.
Proof.
  revert l2. induction l1 as [|e1 l1 IH1]; intros l2.
  - destruct l2; cbn; tauto.
  - induction l2 as [|e2 l2 IH2].
    + cbn. tauto.
    + cbn [Rx.merge_events]. destruct (fst e1 <=? fst e2).
      * cbn [In]. rewrite IH1. cbn [In]. tauto.
      * cbn [In]. cbn [Rx.merge_events] in IH2. rewrite IH2. cbn [In]. tauto.
Qed.

Lemma timer_due_nonneg (x : JS.num) : 0 <= Rx.timer_due x.
Proof. unfold Rx.timer_due. lia. Qed.

Section MergeMapTimers.
Variables (A : Type) (due : A -> JS.num).

Let inner (a : A) : Stream A := Rx.timer (due a) a.

Lemma mergeMap_timers_In (l : list A) (t : Z) (a : A) :
  In (t, a) (events (Rx.mergeMap inner l)) <->
  In a l /\ t = Rx.timer_due (due a).
Proof.
  induction l as [|x l IH].
  - cbn. tauto.
  - cbn [Rx.mergeMap fold_right Rx.merge events].
    rewrite merge_events_In. fold (Rx.mergeMap inner l). rewrite IH.
    cbn [inner Rx.timer events In]. split.
    + intros [[H|[]]|[H1 H2]]; [injection H as <- <-; auto | auto].
    + intros [[<-|H1] ->]; [left; left; reflexivity | right; auto].
Qed.

Lemma mergeMap_timers_ending (l : list A) :
  ending (Rx.mergeMap inner l)
  = Completed (fold_right (fun a m => Z.max (Rx.timer_due (due a)) m) 0 l).
Proof.
  induction l as [|x l IH]; [reflexivity|].
  cbn [Rx.mergeMap fold_right Rx.merge ending].
  fold (Rx.mergeMap inner l). rewrite IH. reflexivity.
Qed.

Lemma fold_max_bounds (l : list A) :
  let m := fold_right (fun a m => Z.max (Rx.timer_due (due a)) m) 0 l in
  0 <= m /\
  (forall a, In a l -> Rx.timer_due (due a) <= m) /\
  (l <> [] -> exists a, In a l /\ Rx.timer_due (due a) = m).
Proof.
  induction l as [|x l [IH0 [IHle IHex]]]; cbn [fold_right].
  - split; [lia|]. split; [intros a []|congruence].
  - pose proof (timer_due_nonneg (due x)).
    split; [lia|]. split.
    + intros a [<-|Ha]; [lia|]. specialize (IHle a Ha). lia.
    + intros _.
      destruct (Z.max_spec (Rx.timer_due (due x))
                  (fold_right (fun a m => Z.max (Rx.timer_due (due a)) m) 0 l))
        as [[Hlt ->]|[Hge ->]].
      * destruct l as [|y l'].
        -- cbn [fold_right] in *. exists x. split; [left; reflexivity|lia].
        -- destruct IHex as [a [Ha Hm]]; [discriminate|].
           exists a. split; [right; exact Ha | exact Hm].
      * exists x. split; [left; reflexivity | reflexivity].
Qed.

End MergeMapTimers.

Lemma debounce_events_In {A} (d : Z) (l : list (Z * A)) (e : Z * A) :
  In e (Rx.debounce_events d l) ->
  exists e0, In e0 l /\ e = (fst e0 + d, snd e0).
Proof.
  induction l as [|x l IH]; intros H; [destruct H|].
  cbn [Rx.debounce_events] in H. destruct l as [|y l'].
  - destruct H as [<-|[]]. exists x. split; [left; reflexivity|reflexivity].
  - destruct (fst y <? fst x + d).
    + destruct (IH H) as [e0 [H0 He]]. exists e0. split; [right; exact H0|exact He].
    + destruct H as [<-|H].
      * exists x. split; [left; reflexivity|reflexivity].
      * destruct (IH H) as [e0 [H0 He]].
        exists e0. split; [right; exact H0|exact He].
Qed.

Lemma latest_at_snoc {B} (t : Z) (l : list (Z * B)) (e : Z * B) :
  Rx.latest_at t (l ++ [e])
  = if fst e <=? t then Some (snd e) else Rx.latest_at t l.
Proof. unfold Rx.latest_at. rewrite fold_left_app. reflexivity. Qed.

(** The value [withLatestFrom] pairs with is the one emitted last: it was
    emitted at or before [t], and everything after it in emission order
    comes later than [t]. *)
Lemma latest_at_split {B} (t : Z) (l : list (Z * B)) (b : B) :
  Rx.latest_at t l = Some b ->
  exists pre tn post,
    l = pre ++ (tn, b) :: post /\ tn <= t /\
    forall e, In e post -> t < fst e.
Proof.
  induction l as [|e l IH] using rev_ind; intros H; [discriminate|].
  rewrite latest_at_snoc in H.
  destruct (Z.leb_spec (fst e) t) as [Hle|Hgt].
  - injection H as <-. exists l, (fst e), [].
    split; [destruct e; reflexivity|]. split; [exact Hle|intros ? []].
  - destruct (IH H) as [pre [tn [post [-> [Htn Hpost]]]]].
    exists pre, tn, (post ++ [e]). split; [rewrite <- app_assoc; reflexivity|].
    split; [exact Htn|].
    intros e' He'. apply in_app_or in He'.
    destruct He' as [He'|[<-|[]]]; [apply Hpost; exact He' | exact Hgt].
Qed.

Lemma latest_at_none {B} (t : Z) (l : list (Z * B)) :
  Rx.latest_at t l = None <-> forall e, In e l -> t < fst e.
Proof.
  induction l as [|e l IH] using rev_ind.
  - split; [intros _ ? []|reflexivity].
  - rewrite latest_at_snoc. destruct (Z.leb_spec (fst e) t) as [Hle|Hgt].
    + split; [discriminate|]. intros H.
      assert (He : In e (l ++ [e])) by (apply in_or_app; right; left; reflexivity).
      specialize (H e He). lia.
    + rewrite IH. split.
      * intros H e' He'. apply in_app_or in He'.
        destruct He' as [He'|[<-|[]]]; [apply H; exact He'|exact Hgt].
      * intros H e' He'. apply H. apply in_or_app. left. exact He'.
Qed.

Lemma withLatestFrom_In {A B} (other : Stream B) (s : Stream A)
      (t : Z) (a : A) (b : B) :
  In (t, (a, b)) (events (Rx.withLatestFrom other s)) <->
  In (t, a) (events s) /\ Rx.latest_at t (events other) = Some b.
Proof.
  cbn [Rx.withLatestFrom events]. rewrite in_flat_map. split.
  - intros [[t0 a0] [Hin Hm]]. cbn [fst snd] in Hm.
    destruct (Rx.latest_at t0 (events other)) as [b0|] eqn:Hl; [|destruct Hm].
    destruct Hm as [Hm|[]]. injection Hm as <- <- <-. split; assumption.
  - intros [Hin Hl]. exists (t, a). split; [exact Hin|].
    cbn [fst snd]. rewrite Hl. left. reflexivity.
Qed.

End StreamFacts.

(* ------------------------------------------------------------------ *)
(** ** The pipeline of [main]                                          *)
(* ------------------------------------------------------------------ *)

Lemma nonempty_In {A} (l : list A) : l <> [] -> exists x, In x l.
Proof. destruct l as [|x l]; [congruence|]. intros _. exists x. left. reflexivity. Qed.

Section Pipeline.
Open Scope Z_scope.
Variable extendedNotes : list ExtendedNoteSpec.
Variable keypresses : list (Z * string).

Lemma userNotes_In (t : Z) (n : ExtendedNoteSpec) :
  In (t, n) (events (userNotes_ extendedNotes)) <->
  In n (userPlayedNotes extendedNotes) /\
  t = Rx.timer_due (actualNoteStartTime n).
Proof. apply mergeMap_timers_In. Qed.

Lemma userNotes_ending :
  ending (userNotes_ extendedNotes) = Completed (last_trigger extendedNotes).
Proof. apply mergeMap_timers_ending. Qed.

Lemma last_trigger_nonneg : 0 <= last_trigger extendedNotes.
Proof.
  apply (fold_max_bounds ExtendedNoteSpec actualNoteStartTime
                         (userPlayedNotes extendedNotes)).
Qed.

Lemma merged_notes_events :
  events (merged_notes extendedNotes)
  = List.map (fun n => (0, n)) (backgroundNotes extendedNotes)
    ++ events (userNotes_ extendedNotes).
Proof. reflexivity. Qed.

Lemma merged_notes_ending :
  ending (merged_notes extendedNotes) = Completed (last_trigger extendedNotes).
Proof.
  unfold merged_notes, Rx.merge_array. cbn [ending].
  rewrite userNotes_ending. cbn [Rx.from ending Rx.merge_ending].
  f_equal. pose proof last_trigger_nonneg. lia.
Qed.

(** No event of the merged stream comes after [last_trigger], and one
    comes exactly then. *)
Lemma merged_notes_last :
  (forall e, In e (events (merged_notes extendedNotes)) ->
             0 <= fst e <= last_trigger extendedNotes) /\
  (extendedNotes <> [] ->
   exists e, In e (events (merged_notes extendedNotes)) /\
             fst e = last_trigger extendedNotes).
Proof.
  pose proof (fold_max_bounds ExtendedNoteSpec actualNoteStartTime
                (userPlayedNotes extendedNotes)) as [H0 [Hle Hex]].
  fold (last_trigger extendedNotes) in *.
  split.
  - intros [t n] He. rewrite merged_notes_events in He.
    apply in_app_or in He. destruct He as [He|He].
    + apply in_map_iff in He. destruct He as [n' [Hn' _]].
      injection Hn' as <- <-. cbn [fst]. lia.
    + apply userNotes_In in He. destruct He as [Hin ->]. cbn [fst].
      split; [apply timer_due_nonneg | apply Hle; exact Hin].
  - intros Hne.
    destruct (userPlayedNotes extendedNotes) as [|u us] eqn:Hu.
    + destruct (nonempty_In extendedNotes Hne) as [x Hx].
      assert (Hp : user_played (base x) = false).
      { destruct (user_played (base x)) eqn:Hp; [|reflexivity].
        assert (Hin : In x (userPlayedNotes extendedNotes))
          by (apply filter_In; split; [exact Hx | exact Hp]).
        rewrite Hu in Hin. destruct Hin. }
      exists (0, x). split.
      * rewrite merged_notes_events. apply in_or_app. left.
        apply in_map. unfold backgroundNotes. apply filter_In.
        split; [exact Hx | rewrite Hp; reflexivity].
      * unfold last_trigger. rewrite Hu. reflexivity.
    + destruct Hex as [a [Ha Hm]]; [discriminate|].
      exists (last_trigger extendedNotes, a). split; [|reflexivity].
      rewrite merged_notes_events. apply in_or_app. right.
      apply userNotes_In. rewrite Hu. split; [exact Ha | symmetry; exact Hm].
Qed.

(** With at least one note, [gameEnd$] emits once, 2000 ms after the
    merged stream has ended. *)
Lemma gameEnd_once :
  extendedNotes <> [] ->
  gameEnd_ extendedNotes
  = {| events := [(last_trigger extendedNotes + 2000, {| gameEnd := true |})];
       ending := Completed (last_trigger extendedNotes + 2000) |}.
Proof.
  intros Hne. unfold gameEnd_. fold (merged_notes extendedNotes).
  unfold Rx.last. rewrite merged_notes_ending.
  destruct (rev (events (merged_notes extendedNotes))) as [|e es] eqn:Hrev.
  - exfalso. destruct (proj2 merged_notes_last Hne) as [e [He _]].
    apply in_rev in He. rewrite Hrev in He. destruct He.
  - unfold Rx.delay, Rx.map. cbn. f_equal. f_equal. lia.
Qed.

(** Without any note [last()] has nothing to emit. *)
Lemma gameEnd_no_notes :
  gameEnd_ [] = {| events := []; ending := Failed 0 EmptyError |}.
Proof. reflexivity. Qed.

Lemma takeUntil_In_source {A B} (notifier : Stream B) (s : Stream A) (e : Z * A) :
  In e (events (Rx.takeUntil notifier s)) -> In e (events s).
Proof.
  unfold Rx.takeUntil.
  destruct (events notifier) as [|[t b] rest].
  - destruct (ending notifier); cbn [events]; try tauto.
    intros H. apply filter_In in H. tauto.
  - cbn [events]. intros H. apply filter_In in H. tauto.
Qed.

(** A debounced key press is emitted 50 ms after it arrived and carries
    its arrival time. *)
Lemma keyPresses_In (t : Z) (kp : KeyPress) :
  In (t, kp) (events (keyPresses_ extendedNotes keypresses)) ->
  In (time kp, code kp) keypresses /\ t = time kp + 50.
Proof.
  intros H. unfold keyPresses_ in H. apply takeUntil_In_source in H.
  cbn [Rx.debounceTime events ending Rx.map_now Rx.fromEvent] in H.
  apply debounce_events_In in H. destruct H as [[t1 kp1] [H1 He]].
  apply in_map_iff in H1. destruct H1 as [[t0 c] [Hk Hin]].
  cbn [fst snd] in *. injection Hk as <- <-. injection He as -> ->.
  cbn [time code]. split; [exact Hin | reflexivity].
Qed.

(** Once the game has ended no key press comes through. *)
Lemma keyPresses_before_end (t : Z) (kp : KeyPress) :
  extendedNotes <> [] ->
  In (t, kp) (events (keyPresses_ extendedNotes keypresses)) ->
  t < last_trigger extendedNotes + 2000.
Proof.
  intros Hne H. unfold keyPresses_ in H. rewrite (gameEnd_once Hne) in H.
  cbn [Rx.takeUntil events] in H. apply filter_In in H.
  destruct H as [_ H]. cbn [fst] in H. lia.
Qed.

Lemma combined_In (t : Z) (v : Verdict) :
  In (t, v) (events (combined_ extendedNotes keypresses)) <->
  exists kp,
    In (t, kp) (events (keyPresses_ extendedNotes keypresses)) /\
    Rx.latest_at t (events (userNotes_ extendedNotes)) = Some (note v) /\
    v = judge kp (note v).
Proof.
  unfold combined_. cbn [Rx.map events]. rewrite in_map_iff. split.
  - intros [[t' [kp n]] [Hv Hin]]. cbn [fst snd] in Hv. injection Hv as -> <-.
    apply withLatestFrom_In in Hin. exists kp. cbn [judge note]. tauto.
  - intros [kp [Hin [Hl Hv]]]. exists (t, (kp, note v)). cbn [fst snd].
    split; [rewrite <- Hv; reflexivity|].
    apply withLatestFrom_In. tauto.
Qed.

End Pipeline.

(* ------------------------------------------------------------------ *)
(** ** Verdicts                                                        *)
(* ------------------------------------------------------------------ *)

Section Rounded.

Lemma two_pow_32 : inject_Z (2 ^ 32) == 4294967296.
Proof. reflexivity. Qed.

(** Up to [2^32] a double is within half a millionth of the number it
    rounds. *)
Lemma double_close (q : Q) :
  Qabs q <= inject_Z (2 ^ 32) ->
  exists r, JS.double q = JS.Fin r /\ Qabs (r - q) <= 1 # 2000000.
Proof.
  intros Hq. rewrite two_pow_32 in Hq.
  destruct (double_between q (- 2 ^ 32) (2 ^ 32)) as [r [Hr _]];
    [reflexivity | reflexivity | | |].
  - apply Qabs_Qle_condition in Hq. rewrite inject_Z_opp, two_pow_32. lra.
  - apply Qabs_Qle_condition in Hq. rewrite two_pow_32. lra.
  - exists r. split; [exact Hr|].
    pose proof (double_error q r Hr) as He.
    assert (H53 : 2 ^ 53 == 9007199254740992) by reflexivity.
    assert (Hsmall : 1 / 2 ^ 1075 <= 1 # 1073741824).
    { apply Qle_shift_div_r; [apply pow2_pos|].
      assert (H : 2 ^ 30 <= 2 ^ 1075) by (apply pow2_le; lia).
      assert (H30 : 2 ^ 30 == 1073741824) by reflexivity.
      rewrite H30 in H. lra. }
    assert (Hrel : Qabs q / 2 ^ 53 <= 1 # 2097152).
    { apply Qle_shift_div_r; [apply pow2_pos|]. rewrite H53. lra. }
    lra.
Qed.

(** Up to 400000, the range of the instants of a song of a few minutes, a
    double is within [5e-11] of the number it rounds. *)
Lemma double_close_small (q : Q) :
  Qabs q <= 400000 ->
  exists r, JS.double q = JS.Fin r /\ Qabs (r - q) <= 1 # 20000000000.
Proof.
  intros Hq.
  assert (Hq' : Qabs q <= inject_Z (2 ^ 32)) by (rewrite two_pow_32; lra).
  destruct (double_close q Hq') as [r [Hr _]].
  exists r. split; [exact Hr|].
  pose proof (double_error q r Hr) as He.
  assert (H53 : 2 ^ 53 == 9007199254740992) by reflexivity.
  assert (Hsmall : 1 / 2 ^ 1075 <= 1 # 1152921504606846976).
  { apply Qle_shift_div_r; [apply pow2_pos|].
    assert (H : 2 ^ 60 <= 2 ^ 1075) by (apply pow2_le; lia).
    assert (H60 : 2 ^ 60 == 1152921504606846976) by reflexivity.
    rewrite H60 in H. lra. }
  assert (Hrel : Qabs q / 2 ^ 53 <= 400000 # 9007199254740992).
  { apply Qle_shift_div_r; [apply pow2_pos|]. rewrite H53. lra. }
  lra.
Qed.

End Rounded.

(** The timing verdict: the key time is compared with the two margins of
    the due time [start * 1000 + 2000], each computed in doubles. *)
Lemma judge_timing (kp : KeyPress) (n : ExtendedNoteSpec) :
  isCorrectTiming (judge kp n)
  = (JS.ge (JS.of_Z (time kp)) (JS.sub64 (actualNoteStartTime n) (JS.of_Z 150))
     && JS.le (JS.of_Z (time kp))
              (JS.add64 (actualNoteStartTime n) (JS.of_Z 150)))%bool.
Proof. reflexivity. Qed.

(** A key time within 150 ms of the due time is right in time. *)
Lemma within_tolerance_in_time (kp : KeyPress) (n : ExtendedNoteSpec) :
  (Z.abs (time kp) < 2 ^ 53)%Z ->
  within_tolerance (time kp) (actualNoteStartTime n) ->
  isCorrectTiming (judge kp n) = true.
Proof.
  intros Hk H. rewrite judge_timing. unfold within_tolerance in H.
  destruct (actualNoteStartTime n) as [|a|e]; try contradiction.
  apply Qabs_Qle_condition in H.
  unfold JS.sub64, JS.add64, JS.ge, JS.of_Z.
  cbn [JS.sub JS.add JS.neg JS.rounded].
  rewrite <- (double_Z (time kp) Hk). apply andb_true_iff. split.
  - apply double_mono. revert H. generalize (inject_Z (time kp)). intros k H.
    change (inject_Z 150) with (150 # 1). lra.
  - apply double_mono. revert H. generalize (inject_Z (time kp)). intros k H.
    change (inject_Z 150) with (150 # 1). lra.
Qed.

(** A key time that is right in time is within 150 ms of the due time, up
    to the rounding of the margins. *)
Lemma in_time_within_tolerance (kp : KeyPress) (n : ExtendedNoteSpec) (e : Q) :
  actualNoteStartTime n = JS.Fin e ->
  Qabs e <= inject_Z (2 ^ 31) ->
  isCorrectTiming (judge kp n) = true ->
  Qabs (inject_Z (time kp) - e) <= 150 + (1 # 1000000).
Proof.
  intros He Hb H. rewrite judge_timing, He in H.
  apply andb_true_iff in H. destruct H as [H1 H2].
  unfold JS.sub64, JS.add64, JS.ge, JS.of_Z in H1, H2.
  cbn [JS.sub JS.add JS.neg JS.rounded] in H1, H2.
  assert (H31 : inject_Z (2 ^ 31) == 2147483648) by reflexivity.
  rewrite H31 in Hb.
  assert (B1 : Qabs (e + - inject_Z 150) <= inject_Z (2 ^ 32)).
  { rewrite two_pow_32. change (inject_Z 150) with (150 # 1).
    apply Qabs_Qle_condition in Hb. apply Qabs_Qle_condition. lra. }
  assert (B2 : Qabs (e + inject_Z 150) <= inject_Z (2 ^ 32)).
  { rewrite two_pow_32. change (inject_Z 150) with (150 # 1).
    apply Qabs_Qle_condition in Hb. apply Qabs_Qle_condition. lra. }
  destruct (double_close _ B1) as [lo [Elo Hlo]].
  destruct (double_close _ B2) as [hi [Ehi Hhi]].
  rewrite Elo in H1. rewrite Ehi in H2. cbn [JS.le] in H1, H2.
  apply Qle_bool_iff in H1, H2.
  apply Qabs_Qle_condition in Hlo, Hhi. apply Qabs_Qle_condition.
  revert H1 H2. generalize (inject_Z (time kp)). intros k H1 H2.
  change (inject_Z 150) with (150 # 1) in *. lra.
Qed.

Lemma judge_column (kp : KeyPress) (n : ExtendedNoteSpec) :
  isCorrectColumn (judge kp n)
  = JS.strict_eq (getColumnIndexFromKeyCode (code kp)) (column n).
Proof. reflexivity. Qed.

(** The due time of a note is [start * 1000 + 2000] up to the rounding of
    the product and of the sum. *)
Lemma actualNoteStartTime_finite (n : ExtendedNoteSpec) (s : Q) :
  start (base n) = JS.Fin s ->
  Qabs s <= 4000000 ->
  exists e : Q,
    actualNoteStartTime n = JS.Fin e /\
    Qabs (e - (s * 1000 + 2000)) <= 1 # 1000000.
Proof.
  intros Hs Hb. unfold actualNoteStartTime, JS.add64, JS.mul64. rewrite Hs.
  cbn [JS.mul JS.of_Z JS.rounded].
  apply Qabs_Qle_condition in Hb.
  assert (B1 : Qabs (s * inject_Z 1000) <= inject_Z (2 ^ 32)).
  { rewrite two_pow_32. change (inject_Z 1000) with (1000 # 1).
    apply Qabs_Qle_condition. lra. }
  destruct (double_close _ B1) as [p [Ep Hp]]. rewrite Ep.
  cbn [JS.add JS.of_Z JS.rounded]. apply Qabs_Qle_condition in Hp.
  change (inject_Z 1000) with (1000 # 1) in Hp.
  assert (B2 : Qabs (p + inject_Z 2000) <= inject_Z (2 ^ 32)).
  { rewrite two_pow_32. change (inject_Z 2000) with (2000 # 1).
    apply Qabs_Qle_condition. lra. }
  destruct (double_close _ B2) as [e [Ee He]]. rewrite Ee.
  exists e. split; [reflexivity|]. apply Qabs_Qle_condition in He.
  change (inject_Z 2000) with (2000 # 1) in He.
  apply Qabs_Qle_condition. lra.
Qed.

(** For a note of the first 350 s, the part of a song in which circles
    fall, the due time is within [1e-10] of [start * 1000 + 2000]. *)
Lemma actualNoteStartTime_close (n : ExtendedNoteSpec) (s : Q) :
  start (base n) = JS.Fin s ->
  0 <= s -> s <= 350 ->
  exists e : Q,
    actualNoteStartTime n = JS.Fin e /\
    Qabs (e - (s * 1000 + 2000)) <= 1 # 10000000000.
Proof.
  intros Hs H0 Hb. unfold actualNoteStartTime, JS.add64, JS.mul64. rewrite Hs.
  cbn [JS.mul JS.of_Z JS.rounded].
  assert (B1 : Qabs (s * inject_Z 1000) <= 400000).
  { change (inject_Z 1000) with (1000 # 1). apply Qabs_Qle_condition. lra. }
  destruct (double_close_small _ B1) as [p [Ep Hp]]. rewrite Ep.
  cbn [JS.add JS.of_Z JS.rounded]. apply Qabs_Qle_condition in Hp.
  change (inject_Z 1000) with (1000 # 1) in Hp.
  assert (B2 : Qabs (p + inject_Z 2000) <= 400000).
  { change (inject_Z 2000) with (2000 # 1). apply Qabs_Qle_condition. lra. }
  destruct (double_close_small _ B2) as [e [Ee He]]. rewrite Ee.
  exists e. split; [reflexivity|]. apply Qabs_Qle_condition in He.
  change (inject_Z 2000) with (2000 # 1) in He.
  apply Qabs_Qle_condition. lra.
Qed.

(** Proves [within_tolerance] on closed terms. *)
Ltac tolerance_by_computation :=
  vm_compute; let H := fresh in intros H; discriminate H.

(** C1, the claim as stated fails.  Two user-played notes are due at
    3000 ms and at 7000 ms.  The key of the second note's column goes down
    at 6900 ms, 100 ms before that note is due, and is emitted at 6950 ms.
    The next unresolved note is the second one, against which the press is
    right in time and in column; the verdict is made against the first
    one, the last emitted, and is wrong in both. *)
Lemma early_press_meets_previous_note :
  let press := mkKeyPress "KeyJ" 6900 in
  events (userNotes_ two_notes)
  = [(3000, first_note); (7000, second_note)]%Z /\
  events (combined_ two_notes [(6900, "KeyJ")]%Z%string)
  = [(6950%Z, judge press first_note)] /\
  next_unresolved 6900 (userNotes_ two_notes) = Some second_note /\
  next_unresolved 6950 (userNotes_ two_notes) = Some second_note /\
  JS.strict_eq (pitch (base first_note)) (pitch (base second_note)) = false /\
  fully_correct (judge press second_note) = true /\
  isCorrectTiming (judge press first_note) = false /\
  isCorrectColumn (judge press first_note) = false.
Proof. repeat split. Qed.

(** C1, amended: every verdict comes from a debounced key press, emitted
    50 ms after the key went down, and is made against the user-played note
    emitted last, that is, the latest one whose timer [start * 1000 + 2000]
    has fired by then.  The timing is judged in doubles: it is right
    whenever [|keyTime - expected| <= 150] for the due time [expected] as
    the program has it, and never when the key time is more than a
    millionth of a millisecond outside; [expected] itself is
    [start * 1000 + 2000] up to rounding.  The column is right exactly when
    the column of the key code is the column of the note. *)
Theorem verdict_pairs_latest_emitted_note
        (extendedNotes : list ExtendedNoteSpec) (keypresses : list (Z * string))
        (t : Z) (v : Verdict) :
  In (t, v) (events (combined_ extendedNotes keypresses)) ->
  exists kp : KeyPress,
    In (time kp, code kp) keypresses /\
    t = (time kp + 50)%Z /\
    In (note v) (userPlayedNotes extendedNotes) /\
    (exists pre tn post,
        events (userNotes_ extendedNotes) = pre ++ (tn, note v) :: post /\
        tn = Rx.timer_due (actualNoteStartTime (note v)) /\
        (tn <= t)%Z /\
        forall e, In e post -> (t < fst e)%Z) /\
    v = judge kp (note v) /\
    ((Z.abs (time kp) < 2 ^ 53)%Z ->
     within_tolerance (time kp) (actualNoteStartTime (note v)) ->
     isCorrectTiming v = true) /\
    (forall e : Q,
        actualNoteStartTime (note v) = JS.Fin e ->
        Qabs e <= inject_Z (2 ^ 31) ->
        isCorrectTiming v = true ->
        Qabs (inject_Z (time kp) - e) <= 150 + (1 # 1000000)) /\
    (forall s : Q,
        start (base (note v)) = JS.Fin s -> Qabs s <= 4000000 ->
        exists e : Q,
          actualNoteStartTime (note v) = JS.Fin e /\
          Qabs (e - (s * 1000 + 2000)) <= 1 # 1000000) /\
    isCorrectColumn v
    = JS.strict_eq (getColumnIndexFromKeyCode (code kp)) (column (note v)).
Proof.
  intros H. apply combined_In in H. destruct H as [kp [Hkp [Hlatest Hv]]].
  exists kp.
  destruct (keyPresses_In extendedNotes keypresses t kp Hkp) as [Hin Ht].
  destruct (latest_at_split t _ _ Hlatest) as [pre [tn [post [Hev [Htn Hpost]]]]].
  assert (Hn : In (tn, note v) (events (userNotes_ extendedNotes)))
    by (rewrite Hev; apply in_or_app; right; left; reflexivity).
  apply userNotes_In in Hn. destruct Hn as [Hn Hdue].
  split; [exact Hin|]. split; [exact Ht|]. split; [exact Hn|].
  split; [exists pre, tn, post; auto|].
  split; [exact Hv|].
  split; [intros Hk Hw; rewrite Hv; apply within_tolerance_in_time; assumption|].
  split; [intros e He Hb Htim; rewrite Hv in Htim;
          exact (in_time_within_tolerance kp (note v) e He Hb Htim)|].
  split; [apply actualNoteStartTime_finite|].
  rewrite Hv at 1. apply judge_column.
Qed.

Lemma verdict_pairs_latest_emitted_note_witness :
  let press := mkKeyPress "KeyJ" 6900 in
  In (6950%Z, judge press first_note)
     (events (combined_ two_notes [(6900, "KeyJ")]%Z%string)) /\
  exists kp : KeyPress,
    In (time kp, code kp) [(6900, "KeyJ")]%Z%string /\
    6950%Z = (time kp + 50)%Z /\
    judge press first_note = judge kp first_note.
Proof.
  intros press.
  assert (H : In (6950%Z, judge press first_note)
                 (events (combined_ two_notes [(6900, "KeyJ")]%Z%string)))
    by (vm_compute; left; reflexivity).
  split; [exact H|].
  destruct (verdict_pairs_latest_emitted_note _ _ _ _ H)
    as [kp [Hin [Ht [_ [_ [Hv _]]]]]].
  exists kp. split; [exact Hin|]. split; [exact Ht | exact Hv].
Defined.

(* ------------------------------------------------------------------ *)
(** ** Key codes                                                       *)
(* ------------------------------------------------------------------ *)

Section KeyCodes.
Open Scope Z_scope.

Lemma debounce_events_times {A B} (d : Z) (l : list (Z * A)) (l' : list (Z * B)) :
  List.map fst l = List.map fst l' ->
  List.map fst (Rx.debounce_events d l) = List.map fst (Rx.debounce_events d l').
Proof.
  revert l'. induction l as [|e l IH]; intros [|e' l'] H; try discriminate;
    [reflexivity|].
  cbn [List.map] in H. injection H as He Hl.
  cbn [Rx.debounce_events].
  destruct l as [|x l0], l' as [|x' l0']; try discriminate.
  - cbn. rewrite He. reflexivity.
  - pose proof Hl as Hl'. cbn [List.map] in Hl'. injection Hl' as Hx _.
    rewrite He, Hx. destruct (fst x' <? fst e' + d).
    + apply IH. exact Hl.
    + cbn [List.map fst]. f_equal. apply IH. exact Hl.
Qed.

Lemma filter_times {A} (p : Z -> bool) (l : list (Z * A)) :
  List.map fst (filter (fun e => p (fst e)) l) = filter p (List.map fst l).
Proof.
  induction l as [|e l IH]; [reflexivity|].
  cbn [filter List.map]. destruct (p (fst e)); cbn [List.map]; rewrite IH;
    reflexivity.
Qed.

Lemma takeUntil_times {A A' B} (notifier : Stream B)
      (s : Stream A) (s' : Stream A') :
  List.map fst (events s) = List.map fst (events s') ->
  List.map fst (events (Rx.takeUntil notifier s))
  = List.map fst (events (Rx.takeUntil notifier s')).
Proof.
  intros H. unfold Rx.takeUntil.
  destruct (events notifier) as [|[t b] rest].
  - destruct (ending notifier); cbn [events]; try exact H.
    rewrite !(filter_times (fun x => x <? t)), H. reflexivity.
  - cbn [events]. rewrite !(filter_times (fun x => x <? t)), H. reflexivity.
Qed.

Lemma withLatestFrom_times {A B} (other : Stream B) (s : Stream A) :
  List.map fst (events (Rx.withLatestFrom other s))
  = filter (fun t => match Rx.latest_at t (events other) with
                     | Some _ => true
                     | None => false
                     end) (List.map fst (events s)).
Proof.
  cbn [Rx.withLatestFrom events].
  induction (events s) as [|e l IH]; [reflexivity|].
  cbn [flat_map List.map filter].
  destruct (Rx.latest_at (fst e) (events other)); cbn [app List.map fst];
    rewrite IH; reflexivity.
Qed.

(** When verdicts are produced depends on when keys are pressed, not on
    which keys they are. *)
Lemma combined_times_any_code (extendedNotes : list ExtendedNoteSpec)
      (keys keys' : list (Z * string)) :
  List.map fst keys = List.map fst keys' ->
  List.map fst (events (combined_ extendedNotes keys))
  = List.map fst (events (combined_ extendedNotes keys')).
Proof.
  intros H. unfold combined_. cbn [Rx.map events]. rewrite !map_map.
  cbn [fst].
  change (fun x : Z * (KeyPress * ExtendedNoteSpec) => fst x)
    with (@fst Z (KeyPress * ExtendedNoteSpec)).
  rewrite !withLatestFrom_times. f_equal.
  unfold keyPresses_. apply takeUntil_times.
  cbn [Rx.debounceTime events ending Rx.map_now Rx.fromEvent].
  apply debounce_events_times. rewrite !map_map. cbn [fst]. exact H.
Qed.

Lemma unmapped_column (keyCode : string) :
  keyCode <> "KeyH"%string -> keyCode <> "KeyJ"%string ->
  keyCode <> "KeyK"%string -> keyCode <> "KeyL"%string ->
  getColumnIndexFromKeyCode keyCode = JS.of_Z (-1).
Proof.
  intros H1 H2 H3 H4. unfold getColumnIndexFromKeyCode.
  rewrite (proj2 (String.eqb_neq _ _) H1), (proj2 (String.eqb_neq _ _) H2),
    (proj2 (String.eqb_neq _ _) H3), (proj2 (String.eqb_neq _ _) H4).
  reflexivity.
Qed.

End KeyCodes.

(** C5, the claim as stated fails.  The key [KeyA] is none of the four keys
    and maps to [-1], yet pressed when the one note of the song is due it is
    matched against that note like any other key: a verdict is produced
    (right in time, wrong in column), the score is written again, and
    [playRandomNote] sounds. *)
Lemma unmapped_key_gets_verdict_and_penalty :
  getColumnIndexFromKeyCode "KeyA" = JS.of_Z (-1) /\
  parseCSV one_note_csv instruments = Returned (mkParsed [one_note] None) /\
  events (combined_ [extend one_note] [(3000, "KeyA")]%Z%string)
  = [(3050%Z, mkVerdict (extend one_note) true false)] /\
  exists (run : Run) (tr : Trigger),
    main one_note_csv instruments 1 [(3000, "KeyA")]%Z%string = Returned run /\
    events (scoreText run) = [(0, 0); (3050, 0)]%Z /\
    audio run = [(3050%Z, Returned (RandomNote tr))].
Proof.
  split; [reflexivity|]. split; [vm_compute; reflexivity|].
  split; [vm_compute; reflexivity|].
  eexists. eexists. split; [vm_compute; reflexivity|]. split; reflexivity.
Qed.

(** C5, amended: a key code that is none of the four column keys is mapped
    to the sentinel [-1] and is matched like any other key: whether and when
    verdicts are produced does not depend on the codes of the keys pressed.
    Against a note of non-negative pitch the verdict of such a key is wrong
    in column, so it adds nothing to the score and makes [playRandomNote]
    sound. *)
Theorem unmapped_key_is_judged_and_penalised (keyCode : string) :
  keyCode <> "KeyH"%string -> keyCode <> "KeyJ"%string ->
  keyCode <> "KeyK"%string -> keyCode <> "KeyL"%string ->
  getColumnIndexFromKeyCode keyCode = JS.of_Z (-1) /\
  (forall (extendedNotes : list ExtendedNoteSpec) (keys : list (Z * string)),
      List.map fst
        (events (combined_ extendedNotes
                   (List.map (fun k => (fst k, keyCode)) keys)))
      = List.map fst (events (combined_ extendedNotes keys))) /\
  (forall (t0 : Z) (n : NoteSpec) (p : Z),
      (0 <= p)%Z -> pitch n = JS.of_Z p ->
      let v := judge (mkKeyPress keyCode t0) (extend n) in
      note v = extend n /\
      isCorrectColumn v = false /\
      points v = 0%Z /\
      forall (samples : list string) (rng : Rng),
        feedback samples v rng = penalty (playRandomNote samples rng)).
Proof.
  intros H1 H2 H3 H4.
  pose proof (unmapped_column keyCode H1 H2 H3 H4) as Hcol.
  split; [exact Hcol|]. split.
  - intros extendedNotes keys. apply combined_times_any_code.
    rewrite map_map. reflexivity.
  - intros t0 n p Hp Hpitch v.
    assert (Hc : isCorrectColumn v = false).
    { unfold v. rewrite judge_column. cbn [code column extend].
      rewrite Hcol, Hpitch.
      destruct (assignColumnByPitch_nonneg p Hp) as [-> [Hr _]].
      unfold JS.strict_eq, JS.of_Z.
      destruct (Qeq_bool (inject_Z (-1)) (inject_Z (p mod 4))) eqn:E;
        [|reflexivity].
      apply Qeq_bool_iff in E. unfold Qeq, inject_Z in E. cbn [Qnum Qden] in E.
      lia. }
    split; [reflexivity|]. split; [exact Hc|]. split.
    + unfold points. rewrite Hc, andb_false_r. reflexivity.
    + intros samples rng. rewrite feedback_cases. unfold fully_correct.
      rewrite Hc, andb_false_r. reflexivity.
Qed.

Lemma unmapped_key_is_judged_and_penalised_witness :
  getColumnIndexFromKeyCode "Space" = JS.of_Z (-1) /\
  points (judge (mkKeyPress "Space" 3000) (extend one_note)) = 0%Z.
Proof.
  assert (H : getColumnIndexFromKeyCode "Space" = JS.of_Z (-1) /\
              points (judge (mkKeyPress "Space" 3000) (extend one_note)) = 0%Z).
  { destruct (unmapped_key_is_judged_and_penalised "Space")
      as [Hcol [_ Hjudge]]; try discriminate.
    split; [exact Hcol|].
    apply (Hjudge 3000%Z one_note 64%Z); [lia | reflexivity]. }
  exact H.
Defined.

(* ------------------------------------------------------------------ *)
(** ** Lines that are not numeric                                      *)
(* ------------------------------------------------------------------ *)

(** C6, the claim as stated fails.  The second line of [malformed_csv] has
    the start field [abc].  [parseCSV] returns without any report, the
    record of that line is among the notes with [NaN] for its start, and the
    timer of that note fires at once. *)
Lemma non_numeric_start_is_kept_and_scheduled :
  let bad := mkNoteSpec true "piano" (JS.Fin (64 / 127)) (JS.of_Z 64)
                        JS.NaN (JS.Fin (3 # 2)) in
  let good := mkNoteSpec true "piano" (JS.Fin (64 / 127)) (JS.of_Z 65)
                         (JS.Fin 1) (JS.Fin (3 # 2)) in
  data_lines malformed_csv
  = ["True,piano,64,64,abc,1.5"; "True,piano,64,65,1.0,1.5"]%string /\
  starts_number (field 4 "True,piano,64,64,abc,1.5") = false /\
  parseCSV malformed_csv instruments = Returned (mkParsed [bad; good] None) /\
  events (userNotes_ [extend bad; extend good])
  = [(0, extend bad); (3000, extend good)]%Z.
Proof. repeat split. Qed.

(** C6, amended: on a song file whose non-blank data lines all have at
    least two fields, [parseCSV] raises nothing and drops nothing: it
    returns one record per such line, in order, each the record of its own
    line; the start (the end) of a record is [NaN] exactly when the start
    (the end) field of its line is not numeric; such a record of a
    user-played note is scheduled, with a timer that fires at once; and the
    only report is the warning that names instruments without a sampler. *)
Theorem parseCSV_keeps_every_line (csv : string) (samples : list string) :
  (forall line, In line (data_lines csv) ->
                (2 <= List.length (JS.split "," line))%nat) ->
  exists parsed : Parsed,
    parseCSV csv samples = Returned parsed /\
    List.length (parsed_notes parsed) = List.length (data_lines csv) /\
    (forall (i : nat) (line : string),
        nth_error (data_lines csv) i = Some line ->
        exists n : NoteSpec,
          nth_error (parsed_notes parsed) i = Some n /\
          parse_line line = Returned n /\
          (start n = JS.NaN <-> starts_number (field 4 line) = false) /\
          (end_ n = JS.NaN <-> starts_number (field 5 line) = false) /\
          (user_played n = true -> start n = JS.NaN ->
           In (0%Z, extend n)
              (events (userNotes_ (List.map extend (parsed_notes parsed)))))) /\
    (forall names : list string,
        warned_missing parsed = Some names ->
        forall x, In x names -> key_in samples x = false).
Proof.
  intros Hfields.
  destruct (map_result_returns parse_line (data_lines csv)) as [notes [Hmap [Hlen Hnth]]].
  { intros line Hin. destruct (parse_line_returns line (Hfields line Hin))
      as [n [Hn _]]. exists n. exact Hn. }
  unfold parseCSV. rewrite Hmap. cbn [bind_result].
  eexists. split; [reflexivity|]. cbn [parsed_notes warned_missing].
  split; [exact Hlen|]. split.
  - intros i line Hline.
    destruct (Hnth i line Hline) as [n [Hi Hn]].
    exists n. split; [exact Hi|]. split; [exact Hn|].
    assert (Hin : In line (data_lines csv)) by (eapply nth_error_In; exact Hline).
    destruct (parse_line_returns line (Hfields line Hin)) as [n' [Hn' [Hs He]]].
    rewrite Hn in Hn'. injection Hn' as <-.
    split; [rewrite Hs; apply parseFloat_NaN_iff|].
    split; [rewrite He; apply parseFloat_NaN_iff|].
    intros Hplayed Hnan. apply userNotes_In. split.
    + unfold userPlayedNotes. apply filter_In. split.
      * apply in_map. eapply nth_error_In. exact Hi.
      * exact Hplayed.
    + unfold actualNoteStartTime. cbn [extend base]. rewrite Hnan. reflexivity.
  - intros names Hw x Hx.
    destruct (filter _ _) as [|y ys] eqn:Hf; [discriminate|].
    injection Hw as <-. rewrite <- Hf in Hx. apply filter_In in Hx.
    destruct Hx as [_ Hx]. apply negb_true_iff in Hx. exact Hx.
Qed.

Lemma parseCSV_keeps_every_line_witness :
  exists parsed : Parsed,
    parseCSV malformed_csv instruments = Returned parsed /\
    List.length (parsed_notes parsed) = 2%nat.
Proof.
  destruct (parseCSV_keeps_every_line malformed_csv instruments)
    as [parsed [Hp [Hlen _]]].
  - intros line [<-|[<-|[]]]; vm_compute; lia.
  - exists parsed. split; [exact Hp | exact Hlen].
Defined.

(* ------------------------------------------------------------------ *)
(** ** The end of the game                                             *)
(* ------------------------------------------------------------------ *)

Section GameEnd.
Open Scope Z_scope.

Lemma combined_before_end (extendedNotes : list ExtendedNoteSpec)
      (keypresses : list (Z * string)) (t : Z) (v : Verdict) :
  extendedNotes <> [] ->
  In (t, v) (events (combined_ extendedNotes keypresses)) ->
  t < last_trigger extendedNotes + 2000.
Proof.
  intros Hne H. apply combined_In in H. destruct H as [kp [Hkp _]].
  eapply keyPresses_before_end; eassumption.
Qed.

Lemma score_before_end (extendedNotes : list ExtendedNoteSpec)
      (keypresses : list (Z * string)) (t s : Z) :
  extendedNotes <> [] ->
  In (t, s) (events (score_ extendedNotes keypresses)) ->
  t < last_trigger extendedNotes + 2000.
Proof.
  intros Hne H.
  pose proof (last_trigger_nonneg extendedNotes) as H0.
  assert (Ht : In t (List.map fst (events (score_ extendedNotes keypresses))))
    by (apply in_map_iff; exists (t, s); split; [reflexivity | exact H]).
  rewrite scores_times in Ht. destruct Ht as [<-|Ht]; [lia|].
  apply in_map_iff in Ht. destruct Ht as [[t' v] [Hv Hin]].
  cbn [fst] in Hv. subst t'.
  eapply combined_before_end; eassumption.
Qed.

Lemma no_notes_no_verdict (keypresses : list (Z * string)) :
  events (combined_ [] keypresses) = [].
Proof.
  unfold combined_. cbn [Rx.map Rx.withLatestFrom events].
  induction (events (keyPresses_ [] keypresses)) as [|e l IH]; [reflexivity|].
  cbn [flat_map]. cbn [flat_map List.map] in IH.
  destruct (List.map _ (flat_map _ l)) eqn:E; [|discriminate].
  apply map_eq_nil in E. rewrite E. reflexivity.
Qed.

Lemma no_notes_combined (keypresses : list (Z * string)) :
  combined_ [] keypresses = {| events := []; ending := Failed 0 EmptyError |}.
Proof.
  pose proof (no_notes_no_verdict keypresses) as H.
  destruct (combined_ [] keypresses) as [ev en] eqn:E.
  cbn [events] in H. subst ev. f_equal.
  change en with (ending (mkStream (@nil (Z * Verdict)) en)).
  rewrite <- E. reflexivity.
Qed.

End GameEnd.

(** C4, the failing input and the rest.  With no note at all the merged
    stream completes without a value, [last()] fails with [EmptyError] and
    [gameEnd$] never emits: the transition to the ended state happens zero
    times, not once.  With at least one note [gameEnd$] emits exactly once,
    2000 ms after the last event of the merged stream, and every verdict
    and every score comes strictly before that. *)
Theorem game_end_fires_once_unless_no_notes
        (extendedNotes : list ExtendedNoteSpec) :
  match extendedNotes with
  | [] =>
      gameEnd_ extendedNotes
      = {| events := []; ending := Failed 0 EmptyError |}
  | _ :: _ =>
      gameEnd_ extendedNotes
      = {| events := [((last_trigger extendedNotes + 2000)%Z,
                       {| gameEnd := true |})];
           ending := Completed (last_trigger extendedNotes + 2000)%Z |} /\
      ending (merged_notes extendedNotes)
      = Completed (last_trigger extendedNotes) /\
      (forall e, In e (events (merged_notes extendedNotes)) ->
                 (fst e <= last_trigger extendedNotes)%Z) /\
      (exists e, In e (events (merged_notes extendedNotes)) /\
                 fst e = last_trigger extendedNotes) /\
      (forall (keypresses : list (Z * string)) (t : Z) (v : Verdict),
          In (t, v) (events (combined_ extendedNotes keypresses)) ->
          (t < last_trigger extendedNotes + 2000)%Z) /\
      (forall (keypresses : list (Z * string)) (t s : Z),
          In (t, s) (events (score_ extendedNotes keypresses)) ->
          (t < last_trigger extendedNotes + 2000)%Z)
  end.
Proof.
  destruct extendedNotes as [|x xs] eqn:Hx; [reflexivity|].
  assert (Hne : x :: xs <> []) by discriminate.
  split; [apply gameEnd_once; exact Hne|].
  split; [apply merged_notes_ending|].
  split; [intros e He; apply (proj1 (merged_notes_last (x :: xs)) e He)|].
  split; [apply (proj2 (merged_notes_last (x :: xs)) Hne)|].
  split.
  - intros keypresses t v. apply combined_before_end. exact Hne.
  - intros keypresses t s. apply score_before_end. exact Hne.
Qed.

Lemma game_end_fires_once_unless_no_notes_witness :
  events (gameEnd_ [extend one_note]) = [(5000%Z, {| gameEnd := true |})] /\
  (3050 < 5000)%Z.
Proof.
  pose proof (game_end_fires_once_unless_no_notes [extend one_note])
    as [Hend [_ [_ [_ [Hverdict _]]]]].
  split.
  - rewrite Hend. reflexivity.
  - apply (Hverdict [(3000, "KeyH")]%Z%string 3050%Z
                    (mkVerdict (extend one_note) true true)).
    vm_compute. left. reflexivity.
Defined.

(** C9, the failing input.  On a song file without notes [main] runs, the
    score text is set to 0, and then nothing more happens: [gameEnd$] fails
    with [EmptyError] at once, [render] is never called with the ended
    state, and, [takeUntil(gameEnd$)] passing the error on, no key press is
    ever heard. *)
Theorem empty_song_never_ends (samples : list string) (now : Z)
        (keypresses : list (Z * string)) :
  parseCSV empty_song_csv samples = Returned (mkParsed [] None) /\
  main empty_song_csv samples now keypresses
  = Returned
      {| rendered := {| events := []; ending := Failed 0 EmptyError |};
         scoreText := {| events := [(0, 0)%Z]; ending := Failed 0 EmptyError |};
         audio := [] |}.
Proof.
  split; [reflexivity|].
  unfold main. change (parseCSV empty_song_csv samples)
    with (Returned (mkParsed [] None)).
  cbn [bind_result parsed_notes List.map].
  unfold score_. rewrite no_notes_combined. reflexivity.
Qed.

(* ------------------------------------------------------------------ *)
(** ** One note, two points                                            *)
(* ------------------------------------------------------------------ *)

(** C10: a single user-played note can be scored twice.  The one note of
    [one_note_csv] is due at 3000 ms in column 0.  Its key goes down at
    3000 ms and again at 3100 ms; the presses are 100 ms apart, so both pass
    the debounce, and both lie within 150 ms of the note.  Each is judged
    against that same note, the last emitted, each verdict is right in time
    and column, and the score goes from 0 to 2. *)
Theorem one_note_scored_twice :
  exists (csv : string) (n : NoteSpec) (k1 k2 : Z * string),
    let keys := [k1; k2] in
    parseCSV csv instruments = Returned (mkParsed [n] None) /\
    user_played n = true /\
    List.map fst (events (keyPresses_ [extend n] keys))
    = [(fst k1 + 50)%Z; (fst k2 + 50)%Z] /\
    within_tolerance (fst k1) (actualNoteStartTime (extend n)) /\
    within_tolerance (fst k2) (actualNoteStartTime (extend n)) /\
    getColumnIndexFromKeyCode (snd k1) = column (extend n) /\
    getColumnIndexFromKeyCode (snd k2) = column (extend n) /\
    events (combined_ [extend n] keys)
    = [((fst k1 + 50)%Z, mkVerdict (extend n) true true);
       ((fst k2 + 50)%Z, mkVerdict (extend n) true true)] /\
    exists run : Run,
      main csv instruments 1 keys = Returned run /\
      events (scoreText run) = [(0, 0); (3050, 1); (3150, 2)]%Z /\
      events (rendered run) = [(5000%Z, visible)] /\
      audio run
      = [(3050%Z, Returned (UserPlayedNote (intended_trigger (extend n))));
         (3150%Z, Returned (UserPlayedNote (intended_trigger (extend n))))].
Proof.
  exists one_note_csv, one_note, (3000%Z, "KeyH"%string), (3100%Z, "KeyH"%string).
  cbv zeta.
  split; [vm_compute; reflexivity|]. split; [reflexivity|].
  split; [vm_compute; reflexivity|].
  split; [tolerance_by_computation|].
  split; [tolerance_by_computation|].
  split; [vm_compute; reflexivity|]. split; [vm_compute; reflexivity|].
  split; [vm_compute; reflexivity|].
  eexists. split; [vm_compute; reflexivity|]. repeat split.
Qed.

(* ------------------------------------------------------------------ *)
(** ** Further observations                                            *)
(* ------------------------------------------------------------------ *)

(** Only user-played notes hold the end back: [backgroundNotes] enters the
    merged stream as an array, emitted at once.  With a user-played note at
    1 s and a background note at 10 s the game ends at 5000 ms, and the
    background note sounds at 12000 ms. *)
Lemma background_note_sounds_after_end :
  events (gameEnd_ late_background) = [(5000%Z, {| gameEnd := true |})] /\
  List.map sound_due (backgroundNotes late_background) = [12000%Z].
Proof. split; reflexivity. Qed.

(** A song of background notes only ends after the settle delay alone. *)
Lemma background_only_ends_after_settle_delay
      (extendedNotes : list ExtendedNoteSpec) :
  extendedNotes <> [] -> userPlayedNotes extendedNotes = [] ->
  events (gameEnd_ extendedNotes) = [(2000%Z, {| gameEnd := true |})].
Proof.
  intros Hne Hu. rewrite (gameEnd_once extendedNotes Hne).
  unfold last_trigger. rewrite Hu. reflexivity.
Qed.

(** A data line without a comma has no instrument field, and the call of
    [trim] on it ends [parseCSV], and [main] with it. *)
Lemma line_without_comma_throws (samples : list string) (now : Z)
      (keypresses : list (Z * string)) :
  parse_line "garbage" = Threw (TypeError "instrument_name.trim") /\
  main "header
garbage" samples now keypresses = Threw (TypeError "instrument_name.trim").
Proof. split; reflexivity. Qed.

(** Two key presses less than 50 ms apart leave the debounce as one, the
    second. *)
Lemma debounce_collapses {A} (t1 t2 : Z) (a1 a2 : A) :
  (t2 < t1 + 50)%Z ->
  Rx.debounce_events 50 [(t1, a1); (t2, a2)] = [((t2 + 50)%Z, a2)].
Proof.
  intros H. cbn [Rx.debounce_events fst snd].
  destruct (Z.ltb_spec t2 (t1 + 50)); [reflexivity | lia].
Qed.

(** A key pressed within the tolerance but before the first note is due
    finds no note to be judged against and is dropped. *)
Lemma press_before_first_note_is_dropped :
  within_tolerance 2900 (actualNoteStartTime (extend one_note)) /\
  events (combined_ [extend one_note] [(2900, "KeyH")]%Z%string) = [].
Proof.
  split; [|reflexivity]. tolerance_by_computation.
Qed.

(* ================================================================== *)
(** * More of the program                                              *)
(* ================================================================== *)

(* ------------------------------------------------------------------ *)
(** ** The noise source, continued                                     *)
(* ------------------------------------------------------------------ *)

Lemma lcg_spec_step_grid (seed : Z) :
  exists k : Z, (0 <= k < 823)%Z /\ lcg_spec_step seed = (15 * k)%Z.
Proof.
  unfold lcg_spec_step.
  pose proof (Z.div_mod (seed * 67890 + 34086315) 12345 ltac:(lia)) as Hdm.
  pose proof (Z.mod_pos_bound (seed * 67890 + 34086315) 12345 ltac:(lia)) as Hb.
  exists (4526 * seed + 2272421
          - 823 * ((seed * 67890 + 34086315) / 12345))%Z.
  lia.
Qed.

(** X1.  The multiplier and the increment of [lcg] are both multiples of 15, and
    so is the modulus 12345 = 15 * 823: the captured seed is a multiple of
    15 after every exact update.  From the second draw on (and on the first
    one when it is exact) the generator can only return one of the 823
    values [k / 823]. *)
Theorem lcg_outputs_on_grid (S : Z) (n : nat) :
  (0 <= S)%Z ->
  (n = 0%nat -> (S * 67890 + 34086315 < 2 ^ 53)%Z) ->
  exists k : Z,
    (0 <= k < 823)%Z /\
    rng_seed (advance (Datatypes.S n) (lcg S)) = (15 * k)%Z /\
    nth_output S n == Qmake k 823.
Proof.
  intros HS Hfirst.
  assert (Hexact : rng_seed (advance (Datatypes.S n) (lcg S))
                   = lcg_spec_step (rng_seed (advance n (lcg S)))).
  { change (advance (Datatypes.S n) (lcg S))
      with (snd (call (advance n (lcg S)))).
    unfold call at 1. cbn [snd rng_seed].
    destruct n as [|n].
    - apply lcg_step_exact; [exact HS | apply Hfirst; reflexivity].
    - pose proof (advance_seed_range n S HS). apply lcg_step_exact; lia. }
  destruct (lcg_spec_step_grid (rng_seed (advance n (lcg S)))) as [k [Hk Hs]].
  exists k. split; [exact Hk|]. split; [congruence|].
  rewrite nth_output_seed, Hexact, Hs. unfold Qeq. cbn [Qnum Qden]. lia.
Qed.

Lemma lcg_outputs_on_grid_witness :
  exists k : Z, (0 <= k < 823)%Z /\ nth_output 42 2 == Qmake k 823.
Proof.
  destruct (lcg_outputs_on_grid 42 2) as [k [Hk [_ Hq]]];
    [lia | discriminate |].
  exists k. split; [exact Hk | exact Hq].
Defined.

(* ------------------------------------------------------------------ *)
(** ** The penalty note                                                *)
(* ------------------------------------------------------------------ *)

Lemma toFixed2_range (x : Q) :
  1 # 10 <= x -> x <= 1 # 2 -> 1 # 10 <= toFixed2 x /\ toFixed2 x <= 1 # 2.
Proof.
  intros Hlo Hhi. unfold toFixed2.
  assert (Hpos : JS.Qneg_b x = false).
  { unfold JS.Qneg_b. apply negb_false_iff. apply Qle_bool_iff. lra. }
  rewrite Hpos, Qabs_pos by lra.
  assert (H1 : (10 <= Qfloor (x * 100 + (1 # 2)))%Z).
  { change 10%Z with (Qfloor (inject_Z 10)). apply Qfloor_resp_le.
    change (inject_Z 10) with (10 # 1). lra. }
  assert (H2 : (Qfloor (x * 100 + (1 # 2)) <= 50)%Z).
  { change 50%Z with (Qfloor (101 # 2)). apply Qfloor_resp_le. lra. }
  rewrite Qred_correct. unfold Qle. cbn [Qnum Qden]. lia.
Qed.

(** X2.  With a non-negative seed and at least one sampler, [playRandomNote]
    always finds its sampler and stays within the ranges its comments
    promise: an instrument of [samples], a pitch of the piano range 21..108,
    a duration between 0.1 and 0.5 s, a velocity from 0.5 up to but not
    including 1; and it leaves a non-negative seed behind. *)
Theorem playRandomNote_ranges (samples : list string) (rng : Rng) :
  (0 <= rng_seed rng)%Z -> samples <> [] ->
  exists (name : string) (p : Z) (d v : Q),
    playRandomNote samples rng
    = (Returned {| instrument := name; midi := JS.of_Z p;
                   duration := JS.Fin d; loudness := JS.Fin v |},
       advance 3 rng) /\
    In name samples /\
    (21 <= p <= 108)%Z /\
    (1 # 10 <= d /\ d <= 1 # 2) /\
    (1 # 2 <= v /\ v < 1) /\
    (0 <= rng_seed (advance 3 rng) < 12345)%Z.
Proof.
  intros Hseed Hne.
  pose proof (lcg_step_range _ Hseed) as H1.
  assert (H2 : (0 <= rng_seed (advance 1 rng) < 12345)%Z) by exact H1.
  assert (H3 : (0 <= rng_seed (advance 2 rng) < 12345)%Z)
    by exact (lcg_step_range _ (proj1 H2)).
  assert (H4 : (0 <= rng_seed (advance 3 rng) < 12345)%Z)
    by exact (lcg_step_range _ (proj1 H3)).
  assert (Hunit : forall g : Rng, (0 <= rng_seed g)%Z ->
                                  0 <= fst (call g) /\ fst (call g) < 1).
  { intros g Hg. pose proof (lcg_step_range _ Hg).
    unfold call. cbn [fst]. unfold Qle, Qlt. cbn [Qnum Qden]. lia. }
  destruct (Hunit rng Hseed) as [Ha1 Hb1].
  destruct (Hunit _ (proj1 H2)) as [Ha2 Hb2].
  destruct (Hunit _ (proj1 H3)) as [Ha3 Hb3].
  rewrite playRandomNote_unfold. cbv zeta.
  set (r1 := fst (call rng)) in *.
  set (len := Z.of_nat (List.length samples)).
  assert (Hlen : (0 < len)%Z)
    by (subst len; destruct samples; [congruence | cbn [List.length]; lia]).
  assert (HlenQ : 0 < inject_Z len)
    by (change (inject_Z 0 < inject_Z len); rewrite <- Zlt_Qlt; exact Hlen).
  assert (Hi0 : (0 <= Qfloor (r1 * inject_Z len))%Z).
  { change 0%Z with (Qfloor 0). apply Qfloor_resp_le. nra. }
  assert (Hi1 : (Qfloor (r1 * inject_Z len) < len)%Z).
  { rewrite Zlt_Qlt. eapply Qle_lt_trans; [apply Qfloor_le|]. nra. }
  destruct (Z.ltb_spec (Qfloor (r1 * inject_Z len)) 0); [lia|].
  destruct (nth_error samples (Z.to_nat (Qfloor (r1 * inject_Z len))))
    as [name|] eqn:Hn;
    [|apply nth_error_None in Hn; subst len; lia].
  eexists name, _, _, _. split; [reflexivity|].
  split; [eapply nth_error_In; exact Hn|]. split.
  - split.
    + assert (H21 : (Qfloor 21 <= Qfloor (r1 * 88 + 21))%Z)
        by (apply Qfloor_resp_le; lra).
      exact H21.
    + assert (Qfloor (r1 * 88 + 21) < 109)%Z; [|lia].
      rewrite Zlt_Qlt. eapply Qle_lt_trans; [apply Qfloor_le|].
      change (inject_Z 109) with (109 # 1). lra.
  - split; [apply toFixed2_range; lra|].
    split; [lra | exact H4].
Qed.

Lemma playRandomNote_ranges_witness :
  exists (name : string) (p : Z),
    In name instruments /\ (21 <= p <= 108)%Z /\
    midi_of (fst (playRandomNote instruments (lcg 7))) = Some (JS.of_Z p).
Proof.
  destruct (playRandomNote_ranges instruments (lcg 7))
    as [name [p [d [v [Hplay [Hin [Hp _]]]]]]];
    [vm_compute; discriminate | discriminate |].
  exists name, p. split; [exact Hin|]. split; [exact Hp|].
  rewrite Hplay. reflexivity.
Defined.

(* ------------------------------------------------------------------ *)
(** ** Column, key, position and colour of a note                      *)
(* ------------------------------------------------------------------ *)

Lemma correct_column_key (keyCode : string) (c : Z) :
  (0 <= c < 4)%Z ->
  JS.strict_eq (getColumnIndexFromKeyCode keyCode) (JS.of_Z c) = true <->
  Some keyCode = nth_error column_keys (Z.to_nat c).
Proof.
  intros Hc.
  assert (Hcases : (c = 0 \/ c = 1 \/ c = 2 \/ c = 3)%Z) by lia.
  unfold getColumnIndexFromKeyCode.
  destruct (String.eqb_spec keyCode "KeyH") as [->|H1];
    [destruct Hcases as [-> | [-> | [-> | ->]]]; cbn; split;
     (reflexivity || discriminate)|].
  destruct (String.eqb_spec keyCode "KeyJ") as [->|H2];
    [destruct Hcases as [-> | [-> | [-> | ->]]]; cbn; split;
     (reflexivity || discriminate)|].
  destruct (String.eqb_spec keyCode "KeyK") as [->|H3];
    [destruct Hcases as [-> | [-> | [-> | ->]]]; cbn; split;
     (reflexivity || discriminate)|].
  destruct (String.eqb_spec keyCode "KeyL") as [->|H4];
    [destruct Hcases as [-> | [-> | [-> | ->]]]; cbn; split;
     (reflexivity || discriminate)|].
  destruct Hcases as [-> | [-> | [-> | ->]]]; cbn; split;
    try discriminate; intros H; injection H as ->; congruence.
Qed.

(** X3.  A note of non-negative pitch [p] lives in column [p mod 4]: its circle
    is drawn at 20, 40, 60 or 80 percent in the colour of that column, and
    exactly one key code has the right column for it, the key of that
    column. *)
Theorem note_has_one_key_position_and_colour (n : NoteSpec) (p : Z) :
  (0 <= p)%Z -> pitch n = JS.of_Z p ->
  let c := Z.to_nat (p mod 4) in
  (c < 4)%nat /\
  createNoteCircle (extend n)
  = {| r := Note.RADIUS;
       cx := nth_error [20; 40; 60; 80]%Z c;
       cy := JS.of_Z 0;
       fill := nth c column_colours "black"%string |} /\
  forall (keyCode : string) (t : Z),
    isCorrectColumn (judge (mkKeyPress keyCode t) (extend n)) = true <->
    Some keyCode = nth_error column_keys c.
Proof.
  intros Hp Hpitch c.
  pose proof (Z.mod_pos_bound p 4 ltac:(lia)) as Hb.
  assert (Hcol : column (extend n) = JS.of_Z (p mod 4)).
  { cbn [extend column]. rewrite Hpitch.
    apply (assignColumnByPitch_nonneg p Hp). }
  split; [subst c; lia|]. split.
  - unfold createNoteCircle. rewrite Hcol. subst c.
    assert (Hc : (p mod 4 = 0 \/ p mod 4 = 1 \/ p mod 4 = 2 \/ p mod 4 = 3)%Z)
      by lia.
    destruct Hc as [-> | [-> | [-> | ->]]]; reflexivity.
  - intros keyCode t. rewrite judge_column. cbn [code].
    rewrite Hcol. apply correct_column_key. exact Hb.
Qed.

Lemma note_has_one_key_position_and_colour_witness :
  cx (createNoteCircle (extend one_note)) = Some 20%Z /\
  isCorrectColumn (judge (mkKeyPress "KeyH" 3000) (extend one_note)) = true.
Proof.
  destruct (note_has_one_key_position_and_colour one_note 64)
    as [_ [Hcircle Hkey]]; [lia | reflexivity |].
  split.
  - rewrite Hcircle. reflexivity.
  - apply Hkey. reflexivity.
Defined.

(** X4.  A note whose pitch field was not a number has the column [NaN]: its
    circle has no horizontal position and the fall-back colour, and no key
    at all has the right column for it, so no press can earn its point. *)
Theorem note_without_pitch_cannot_score (n : NoteSpec) :
  pitch n = JS.NaN ->
  createNoteCircle (extend n)
  = {| r := Note.RADIUS; cx := None; cy := JS.of_Z 0; fill := "black" |} /\
  forall (keyCode : string) (t : Z),
    isCorrectColumn (judge (mkKeyPress keyCode t) (extend n)) = false /\
    points (judge (mkKeyPress keyCode t) (extend n)) = 0%Z.
Proof.
  intros Hpitch.
  assert (Hcol : column (extend n) = JS.NaN)
    by (cbn [extend column]; rewrite Hpitch; reflexivity).
  split; [unfold createNoteCircle; rewrite Hcol; reflexivity|].
  intros keyCode t.
  assert (Hc : isCorrectColumn (judge (mkKeyPress keyCode t) (extend n)) = false).
  { rewrite judge_column, Hcol. cbn [code].
    destruct (getColumnIndexFromKeyCode keyCode); reflexivity. }
  split; [exact Hc|]. unfold points. rewrite Hc, andb_false_r. reflexivity.
Qed.

Lemma note_without_pitch_cannot_score_witness :
  exists n : NoteSpec,
    parse_line "True,piano,64,C4,1.0,1.5" = Returned n /\
    points (judge (mkKeyPress "KeyH" 3000) (extend n)) = 0%Z.
Proof.
  eexists. split; [reflexivity|].
  apply note_without_pitch_cannot_score. reflexivity.
Defined.

(* ------------------------------------------------------------------ *)
(** ** The timeline builder, continued                                 *)
(* ------------------------------------------------------------------ *)

Section SplitFacts.
Variable sep : ascii.

Lemma split_nonempty (s : string) : JS.split sep s <> [].
Proof.
  induction s as [|c s IH]; cbn; [discriminate|].
  destruct (Ascii.eqb c sep); [discriminate|].
  destruct (JS.split sep s); discriminate.
Qed.

Lemma split_no_sep (s : string) :
  contains sep s = false -> JS.split sep s = [s].
Proof.
  induction s as [|c s IH]; cbn; [reflexivity|].
  intros H. apply orb_false_iff in H. destruct H as [Hc Hs].
  rewrite Hc, (IH Hs). reflexivity.
Qed.

Lemma split_app_sep (x rest : string) :
  contains sep x = false ->
  JS.split sep (x ++ String sep rest) = x :: JS.split sep rest.
Proof.
  induction x as [|c x IH]; cbn [append JS.split contains].
  - intros _. rewrite Ascii.eqb_refl. reflexivity.
  - intros H. apply orb_false_iff in H. destruct H as [Hc Hx].
    rewrite Hc, (IH Hx). reflexivity.
Qed.

Lemma split_one_field (s : string) :
  (List.length (JS.split sep s) < 2)%nat <-> contains sep s = false.
Proof.
  induction s as [|c s IH]; cbn [JS.split contains].
  - cbn. split; [reflexivity | lia].
  - destruct (Ascii.eqb c sep); cbn [orb].
    + pose proof (split_nonempty s).
      destruct (JS.split sep s); [congruence|]. cbn [List.length].
      split; [lia | discriminate].
    + rewrite <- IH. pose proof (split_nonempty s).
      destruct (JS.split sep s); [congruence|]. reflexivity.
Qed.

(** Splitting what [join] made gives the parts back, when no part holds
    the separator. *)
Lemma split_concat (x : string) (xs : list string) :
  Forall (fun l => contains sep l = false) (x :: xs) ->
  JS.split sep (String.concat (String sep EmptyString) (x :: xs)) = x :: xs.
Proof.
  revert x. induction xs as [|y ys IH]; intros x H.
  - cbn [String.concat]. apply split_no_sep.
    apply Forall_inv in H. exact H.
  - change (String.concat (String sep EmptyString) (x :: y :: ys))
      with (x ++ String sep (String.concat (String sep EmptyString) (y :: ys)))%string.
    rewrite split_app_sep by (apply Forall_inv in H; exact H).
    f_equal. apply IH. apply Forall_inv_tail in H. exact H.
Qed.

End SplitFacts.

Lemma map_result_threw {A B} (f : A -> Result B) (l : list A) :
  (exists e, map_result f l = Threw e) <->
  exists a, In a l /\ exists e, f a = Threw e.
Proof.
  induction l as [|x l IH]; cbn [map_result].
  - split; [intros [e He]; discriminate | intros [a [[] _]]].
  - destruct (f x) as [y|ex] eqn:Hx; cbn [bind_result].
    + destruct (map_result f l) as [ys|el]; cbn [bind_result].
      * split; [intros [e He]; discriminate|].
        intros [a [[<-|Ha] [e He]]]; [congruence|].
        destruct (proj2 IH) as [e' He']; [eauto | discriminate].
      * split; [|eauto]. intros _.
        destruct (proj1 IH) as [a [Ha He]]; [eauto|].
        exists a. split; [right; exact Ha | exact He].
    + split; [|eauto]. intros _. exists x. split; [left; reflexivity | eauto].
Qed.

Lemma map_result_threw_what {A B} (f : A -> Result B) (l : list A) (e : Exn) :
  map_result f l = Threw e -> exists a, In a l /\ f a = Threw e.
Proof.
  induction l as [|x l IH]; cbn [map_result]; [discriminate|].
  destruct (f x) as [y|ex] eqn:Hx; cbn [bind_result].
  - destruct (map_result f l) as [ys|el]; cbn [bind_result]; [discriminate|].
    intros H. injection H as <-. destruct IH as [a [Ha He]]; [reflexivity|].
    exists a. split; [right; exact Ha | exact He].
  - intros H. injection H as <-. exists x. split; [left; reflexivity | exact Hx].
Qed.

Lemma parse_line_throws (line : string) (e : Exn) :
  parse_line line = Threw e <->
  contains "," line = false /\ e = TypeError "instrument_name.trim".
Proof.
  rewrite <- split_one_field. unfold parse_line.
  destruct (nth_error (JS.split "," line) 1) as [name|] eqn:Hn.
  - assert (1 < List.length (JS.split "," line))%nat
      by (apply nth_error_Some; rewrite Hn; discriminate).
    split; [discriminate | intros [H' _]; lia].
  - apply nth_error_None in Hn. split.
    + intros H. injection H as <-. split; [lia | reflexivity].
    + intros [_ ->]. reflexivity.
Qed.

(** X5.  [parseCSV] throws exactly when some non-blank data line holds no comma,
    and what it throws then is the [TypeError] of the call of [trim] on the
    missing instrument field; no other field can make it throw. *)
Theorem parseCSV_throws_iff_line_without_comma
        (csv : string) (samples : list string) :
  (parseCSV csv samples = Threw (TypeError "instrument_name.trim") <->
   exists line, In line (data_lines csv) /\ contains "," line = false) /\
  (forall e, parseCSV csv samples = Threw e ->
             e = TypeError "instrument_name.trim").
Proof.
  assert (Hwhat : forall e, parseCSV csv samples = Threw e ->
                            e = TypeError "instrument_name.trim" /\
                            exists line, In line (data_lines csv) /\
                                         contains "," line = false).
  { intros e H. unfold parseCSV in H.
    destruct (map_result parse_line (data_lines csv)) as [notes|e'] eqn:Hm;
      cbn [bind_result] in H; [discriminate|].
    injection H as <-.
    destruct (map_result_threw_what _ _ _ Hm) as [line [Hin Hl]].
    apply parse_line_throws in Hl. destruct Hl as [Hc ->].
    split; [reflexivity|]. exists line. split; assumption. }
  split; [split|].
  - intros H. apply (Hwhat _ H).
  - intros [line [Hin Hc]].
    destruct (proj2 (map_result_threw parse_line (data_lines csv))) as [e He].
    { exists line. split; [exact Hin|].
      exists (TypeError "instrument_name.trim").
      apply parse_line_throws. split; [exact Hc | reflexivity]. }
    assert (Hp : parseCSV csv samples = Threw e)
      by (unfold parseCSV; rewrite He; reflexivity).
    rewrite Hp. f_equal. apply (Hwhat _ Hp).
  - intros e H. apply (Hwhat _ H).
Qed.

Lemma parseCSV_throws_iff_line_without_comma_witness :
  parseCSV "header
True,piano,64,64,1.0,1.5
oops" instruments = Threw (TypeError "instrument_name.trim").
Proof.
  apply (proj1 (parseCSV_throws_iff_line_without_comma _ instruments)).
  exists "oops"%string. split; [right; left; reflexivity | reflexivity].
Defined.

Lemma data_lines_concat (header : string) (lines : list string) :
  contains LF header = false ->
  Forall (fun l => contains LF l = false) lines ->
  data_lines (String.concat LFs (header :: lines)) = filter nonblank lines.
Proof.
  intros Hh Hl. unfold data_lines, LFs, LF in *.
  rewrite (split_concat "010"%char header lines) by (constructor; assumption).
  reflexivity.
Qed.

(** X6.  The first line of the file is dropped whatever it says, and lines that
    are blank after trimming are skipped: the result only depends on the
    non-blank lines after the first. *)
Theorem parseCSV_ignores_header_and_blank_lines
        (header header' : string) (lines : list string) (samples : list string) :
  contains LF header = false -> contains LF header' = false ->
  Forall (fun l => contains LF l = false) lines ->
  parseCSV (String.concat LFs (header :: lines)) samples
  = parseCSV (String.concat LFs (header' :: filter nonblank lines)) samples.
Proof.
  intros Hh Hh' Hl.
  assert (Hf : Forall (fun l => contains LF l = false) (filter nonblank lines)).
  { apply Forall_forall. intros l Hin. apply filter_In in Hin.
    rewrite Forall_forall in Hl. apply Hl. tauto. }
  unfold parseCSV.
  rewrite (data_lines_concat header lines Hh Hl).
  rewrite (data_lines_concat header' _ Hh' Hf).
  assert (Hidem : filter nonblank (filter nonblank lines) = filter nonblank lines).
  { clear. induction lines as [|l ls IH]; [reflexivity|].
    cbn [filter]. destruct (nonblank l) eqn:E; [|exact IH].
    cbn [filter]. rewrite E, IH. reflexivity. }
  rewrite Hidem. reflexivity.
Qed.

Lemma parseCSV_ignores_header_and_blank_lines_witness :
  parseCSV (String.concat LFs ["a,b,c"; "True,piano,64,64,1.0,1.5"; "  ";
                              EmptyString])%string
           instruments
  = parseCSV (String.concat LFs ["zzz"; "True,piano,64,64,1.0,1.5"])%string
             instruments.
Proof.
  apply (parseCSV_ignores_header_and_blank_lines
           "a,b,c" "zzz" ["True,piano,64,64,1.0,1.5"; "  "; EmptyString]%string);
    try reflexivity.
  repeat constructor.
Defined.

Section Instruments.

Lemma set_add_In (x y : string) (s : list string) :
  In x (set_add y s) <-> x = y \/ In x s.
Proof.
  unfold set_add. destruct (existsb (String.eqb y) s) eqn:E.
  - split; [tauto|]. intros [->|H]; [|exact H].
    apply existsb_exists in E. destruct E as [z [Hz Hyz]].
    apply String.eqb_eq in Hyz. subst z. exact Hz.
  - rewrite in_app_iff. cbn [In]. split; [intros [H|[<-|[]]]; tauto|].
    intros [->|H]; [right; left; reflexivity | left; exact H].
Qed.

Lemma set_add_NoDup (y : string) (s : list string) :
  NoDup s -> NoDup (set_add y s).
Proof.
  intros H. unfold set_add. destruct (existsb (String.eqb y) s) eqn:E; [exact H|].
  apply NoDup_app; [exact H | repeat constructor; intros [] |].
  intros a Ha [->|[]].
  assert (existsb (String.eqb a) s = true); [|congruence].
  apply existsb_exists. exists a. split; [exact Ha | apply String.eqb_refl].
Qed.

Lemma tracked_instruments (lines : list string) (acc : list string) :
  let set := fold_left (fun s l => track_instrument l s) lines acc in
  (forall x, In x set <-> In x acc \/ In x (instrument_names lines)) /\
  (NoDup acc -> NoDup set).
Proof.
  revert acc. induction lines as [|line lines IH]; intros acc; cbn [fold_left].
  - split; [intros x; cbn; tauto | tauto].
  - destruct (IH (track_instrument line acc)) as [IHin IHnd]. cbv zeta in *.
    unfold instrument_names. cbn [flat_map]. fold (instrument_names lines).
    unfold track_instrument in *.
    destruct (nth_error (JS.split "," line) 1) as [name|].
    + destruct (String.eqb name EmptyString).
      * split; [intros x; rewrite IHin; cbn [app]; tauto | exact IHnd].
      * split.
        -- intros x. rewrite IHin, set_add_In. cbn [app In].
           split; [intros [[->|H]|H]; auto | intros [H|[<-|H]]; auto].
        -- intros Hnd. apply IHnd, set_add_NoDup, Hnd.
    + split; [intros x; rewrite IHin; cbn [app]; tauto | exact IHnd].
Qed.

End Instruments.

(** X7.  When [parseCSV] returns, its warning is exact.  It names, each once,
    the trimmed non-empty instrument fields of the data lines for which
    [instrument in samples] is false; and there is no warning at all exactly
    when there is no such instrument.  The notes themselves never depend on
    [samples]: a note of a missing instrument is kept. *)
Theorem parseCSV_warns_exactly_missing
        (csv : string) (samples : list string) (parsed : Parsed) :
  parseCSV csv samples = Returned parsed ->
  map_result parse_line (data_lines csv) = Returned (parsed_notes parsed) /\
  match warned_missing parsed with
  | None =>
      forall x, In x (instrument_names (data_lines csv)) ->
                key_in samples x = true
  | Some names =>
      names <> [] /\ NoDup names /\
      forall x, In x names <->
                In x (instrument_names (data_lines csv)) /\
                key_in samples x = false
  end.
Proof.
  unfold parseCSV.
  destruct (map_result parse_line (data_lines csv)) as [notes|e];
    cbn [bind_result]; [|discriminate].
  intros H. injection H as <-. cbn [parsed_notes warned_missing].
  split; [reflexivity|].
  destruct (tracked_instruments (data_lines csv) []) as [Hin Hnd].
  cbv zeta in Hin, Hnd.
  set (set := fold_left (fun s l => track_instrument l s) (data_lines csv) [])
    in *.
  assert (Hmiss : forall x,
             In x (filter (fun i => negb (key_in samples i)) set) <->
             In x (instrument_names (data_lines csv)) /\ key_in samples x = false).
  { intros x. rewrite filter_In, Hin, negb_true_iff. cbn [In]. tauto. }
  destruct (filter (fun i => negb (key_in samples i)) set) as [|y ys] eqn:Hf.
  - intros x Hx. destruct (key_in samples x) eqn:Hk; [reflexivity|].
    destruct (proj2 (Hmiss x) (conj Hx Hk)).
  - split; [discriminate|]. split; [|exact Hmiss].
    rewrite <- Hf. apply NoDup_filter. apply Hnd. constructor.
Qed.

Lemma parseCSV_warns_exactly_missing_witness :
  exists names : list string,
    warned_missing organ_parsed = Some names /\ NoDup names.
Proof.
  assert (Hp : parseCSV organ_csv instruments = Returned organ_parsed)
    by (vm_compute; reflexivity).
  pose proof (proj2 (parseCSV_warns_exactly_missing
                       organ_csv instruments organ_parsed Hp)) as H.
  change (warned_missing organ_parsed) with (Some ["organ"%string]) in H.
  exists ["organ"%string]. split; [reflexivity | exact (proj1 (proj2 H))].
Defined.

(* ------------------------------------------------------------------ *)
(** ** The stream of user-played notes                                 *)
(* ------------------------------------------------------------------ *)

Section MergeFacts.
Context {A : Type}.
Open Scope Z_scope.

Lemma merge_events_perm (l1 l2 : list (Z * A)) :
  Permutation (Rx.merge_events l1 l2) (l1 ++ l2).
Proof.
  revert l2. induction l1 as [|e1 l1 IH1]; intros l2.
  - destruct l2; reflexivity.
  - induction l2 as [|e2 l2 IH2].
    + cbn. rewrite app_nil_r. reflexivity.
    + cbn [Rx.merge_events]. destruct (fst e1 <=? fst e2).
      * cbn [app]. constructor. apply IH1.
      * cbn [Rx.merge_events] in IH2. rewrite IH2.
        apply Permutation_middle.
Qed.

Lemma merge_events_in_time_order (l1 l2 : list (Z * A)) :
  in_time_order l1 -> in_time_order l2 ->
  in_time_order (Rx.merge_events l1 l2).
Proof.
  unfold in_time_order.
  revert l2. induction l1 as [|e1 l1 IH1]; intros l2 H1 H2.
  - destruct l2; assumption.
  - induction l2 as [|e2 l2 IH2]; [exact H1|].
    apply StronglySorted_inv in H1. destruct H1 as [H1 F1].
    pose proof H2 as H2'.
    apply StronglySorted_inv in H2. destruct H2 as [H2 F2].
    rewrite Forall_forall in F1, F2.
    cbn [Rx.merge_events]. destruct (Z.leb_spec (fst e1) (fst e2)) as [Hle|Hgt].
    + constructor; [apply IH1; assumption|].
      apply Forall_forall. intros x Hx. apply merge_events_In in Hx.
      destruct Hx as [Hx|[<-|Hx]]; [apply F1; exact Hx | exact Hle |].
      specialize (F2 x Hx). lia.
    + constructor.
      * apply IH2. exact H2.
      * apply Forall_forall. intros x Hx.
        assert (Hx' : In x (Rx.merge_events (e1 :: l1) l2)) by exact Hx.
        apply merge_events_In in Hx'.
        destruct Hx' as [[<-|Hx']|Hx']; [lia | | apply F2; exact Hx'].
        specialize (F1 x Hx'). lia.
Qed.

Lemma merge_events_cons_cons (e1 e2 : Z * A) (l1 l2 : list (Z * A)) :
  Rx.merge_events (e1 :: l1) (e2 :: l2)
  = if fst e1 <=? fst e2
    then e1 :: Rx.merge_events l1 (e2 :: l2)
    else e2 :: Rx.merge_events (e1 :: l1) l2.
Proof. reflexivity. Qed.

Lemma merge_events_nil_l (l : list (Z * A)) : Rx.merge_events [] l = l.
Proof. destruct l; reflexivity. Qed.

(** Merging one timer into a stream puts its event after the events that
    are strictly earlier and before all the others. *)
Lemma merge_single_emitted_at (e : Z * A) (l : list (Z * A)) (t : Z) :
  in_time_order l ->
  emitted_at t (Rx.merge_events [e] l)
  = if fst e =? t then snd e :: emitted_at t l else emitted_at t l.
Proof.
  unfold in_time_order, emitted_at. intros Hs.
  induction l as [|x l IH].
  - cbn. destruct (fst e =? t); reflexivity.
  - apply StronglySorted_inv in Hs. destruct Hs as [Hs F].
    rewrite merge_events_cons_cons.
    destruct (Z.leb_spec (fst e) (fst x)) as [Hle|Hgt].
    + rewrite merge_events_nil_l. cbn [filter].
      destruct (fst e =? t); reflexivity.
    + cbn [filter]. rewrite Forall_forall in F.
      destruct (Z.eqb_spec (fst x) t) as [Hx|Hx].
      * cbn [List.map]. rewrite (IH Hs).
        destruct (Z.eqb_spec (fst e) t); [lia | reflexivity].
      * apply IH. exact Hs.
Qed.

End MergeFacts.

Section UserNotesOrder.
Open Scope Z_scope.
Variable extendedNotes : list ExtendedNoteSpec.

Lemma userNotes_cons (x : ExtendedNoteSpec) (l : list ExtendedNoteSpec) :
  events (Rx.mergeMap (fun n => Rx.timer (actualNoteStartTime n) n) (x :: l))
  = Rx.merge_events [(note_due x, x)]
      (events (Rx.mergeMap (fun n => Rx.timer (actualNoteStartTime n) n) l)).
Proof. reflexivity. Qed.

Lemma mergeMap_timers_in_time_order (l : list ExtendedNoteSpec) :
  in_time_order
    (events (Rx.mergeMap (fun n => Rx.timer (actualNoteStartTime n) n) l)).
Proof.
  induction l as [|x l IH]; [constructor|].
  rewrite userNotes_cons. apply merge_events_in_time_order; [|exact IH].
  repeat constructor.
Qed.

Lemma mergeMap_timers_emitted_at (l : list ExtendedNoteSpec) (t : Z) :
  emitted_at t
    (events (Rx.mergeMap (fun n => Rx.timer (actualNoteStartTime n) n) l))
  = filter (fun n => note_due n =? t) l.
Proof.
  induction l as [|x l IH]; [reflexivity|].
  rewrite userNotes_cons, merge_single_emitted_at
    by apply mergeMap_timers_in_time_order.
  cbn [fst snd filter]. rewrite IH. reflexivity.
Qed.

Lemma mergeMap_timers_perm (l : list ExtendedNoteSpec) :
  Permutation
    (List.map snd
       (events (Rx.mergeMap (fun n => Rx.timer (actualNoteStartTime n) n) l)))
    l.
Proof.
  induction l as [|x l IH]; [reflexivity|].
  rewrite userNotes_cons, merge_events_perm. cbn [app List.map snd].
  constructor. exact IH.
Qed.

End UserNotesOrder.

(** X8.  [userNotes$] emits every user-played note exactly once, when its timer
    is due (at the whole milliseconds of [start * 1000 + 2000] as the
    program computes it, in doubles), in the order of the clock; notes due
    in the same millisecond come out in the order of the song. *)
Theorem userNotes_emits_each_note_once_in_order
        (extendedNotes : list ExtendedNoteSpec) :
  Permutation (List.map snd (events (userNotes_ extendedNotes)))
              (userPlayedNotes extendedNotes) /\
  in_time_order (events (userNotes_ extendedNotes)) /\
  Forall (fun e => fst e = note_due (snd e)) (events (userNotes_ extendedNotes)) /\
  forall t : Z,
    emitted_at t (events (userNotes_ extendedNotes))
    = filter (fun n => (note_due n =? t)%Z) (userPlayedNotes extendedNotes).
Proof.
  split; [apply mergeMap_timers_perm|].
  split; [apply mergeMap_timers_in_time_order|].
  split; [|intros t; apply mergeMap_timers_emitted_at].
  apply Forall_forall. intros [t n] H.
  apply userNotes_In in H. exact (proj2 H).
Qed.

(* ------------------------------------------------------------------ *)
(** ** Which key presses are heard                                     *)
(* ------------------------------------------------------------------ *)

Section Debounce.
Context {A : Type}.
Open Scope Z_scope.

Lemma debounce_events_iff (d : Z) (l : list (Z * A)) (e : Z * A) :
  In e (Rx.debounce_events d l) <->
  exists pre x post,
    l = pre ++ x :: post /\ e = (fst x + d, snd x) /\ quiet_after d x post.
Proof.
  induction l as [|x l IH].
  - split; [intros [] | intros [pre [y [post [H _]]]]; destruct pre; discriminate].
  - cbn [Rx.debounce_events]. destruct l as [|y l'].
    + split.
      * intros [<-|[]]. exists [], x, []. repeat split.
      * intros [pre [z [post [Hl [-> _]]]]].
        destruct pre as [|p pre]; [injection Hl as <- _; left; reflexivity|].
        injection Hl as _ Hl. destruct pre; discriminate.
    + assert (Hrest : In e (Rx.debounce_events d (y :: l')) <->
                      exists pre z post,
                        x :: y :: l' = (x :: pre) ++ z :: post /\
                        e = (fst z + d, snd z) /\ quiet_after d z post).
      { rewrite IH. split; intros [pre [z [post [Hl H]]]];
          exists pre, z, post; (split; [|exact H]).
        - cbn [app]. f_equal. exact Hl.
        - cbn [app] in Hl. injection Hl as Hl. exact Hl. }
      destruct (Z.ltb_spec (fst y) (fst x + d)) as [Hlt|Hge].
      * rewrite Hrest. split.
        -- intros [pre [z [post H]]]. exists (x :: pre), z, post. exact H.
        -- intros [pre [z [post [Hl [He Hq]]]]].
           destruct pre as [|p pre].
           ++ cbn [app] in Hl. injection Hl as <- <-. cbn in Hq. lia.
           ++ cbn [app] in Hl. injection Hl as <- Hl.
              exists pre, z, post. cbn [app]. rewrite Hl. auto.
      * cbn [In]. rewrite Hrest. split.
        -- intros [<-|[pre [z [post H]]]].
           ++ exists [], x, (y :: l'). repeat split. exact Hge.
           ++ exists (x :: pre), z, post. exact H.
        -- intros [pre [z [post [Hl [He Hq]]]]].
           destruct pre as [|p pre].
           ++ cbn [app] in Hl. injection Hl as <- _. left. symmetry. exact He.
           ++ cbn [app] in Hl. injection Hl as <- Hl. right.
              exists pre, z, post. cbn [app]. rewrite Hl. auto.
Qed.

Lemma debounce_events_length (d : Z) (l : list (Z * A)) :
  (List.length (Rx.debounce_events d l) <= List.length l)%nat.
Proof.
  induction l as [|x l IH]; [reflexivity|].
  cbn [Rx.debounce_events]. destruct l as [|y l']; [reflexivity|].
  destruct (fst y <? fst x + d); cbn [List.length] in *; lia.
Qed.

Lemma debounce_events_repeats (d : Z) (l : list (Z * A)) (k : Z * A) :
  repeats_within d (l ++ [k]) ->
  Rx.debounce_events d (l ++ [k]) = [(fst k + d, snd k)].
Proof.
  induction l as [|x l IH]; intros H; [reflexivity|].
  cbn [app] in *. cbn [Rx.debounce_events].
  destruct (l ++ [k]) as [|y rest] eqn:E; [destruct l; discriminate|].
  cbn [repeats_within] in H. destruct H as [Hlt H].
  destruct (Z.ltb_spec (fst y) (fst x + d)); [|lia].
  apply IH. exact H.
Qed.

Lemma repeats_within_map {B} (g : Z * A -> B) (d : Z) (l : list (Z * A)) :
  repeats_within d l ->
  repeats_within d (List.map (fun k => (fst k, g k)) l).
Proof.
  induction l as [|x l IH]; [intros _; exact I|].
  destruct l as [|y l]; [intros _; exact I|].
  intros [H1 H2]. cbn [List.map]. split; [exact H1 | apply IH; exact H2].
Qed.

End Debounce.

Section KeyPresses.
Open Scope Z_scope.
Variable extendedNotes : list ExtendedNoteSpec.
Variable keypresses : list (Z * string).
Hypothesis some_note : extendedNotes <> [].

Lemma keyPresses_events :
  events (keyPresses_ extendedNotes keypresses)
  = filter (fun e => fst e <? last_trigger extendedNotes + 2000)
           (Rx.debounce_events 50
              (List.map (fun k => (fst k, pressed k)) keypresses)).
Proof.
  unfold keyPresses_. rewrite (gameEnd_once extendedNotes some_note).
  reflexivity.
Qed.

End KeyPresses.

(** X9.  In a song with at least one note, a key press is passed on by
    [keyPresses$] exactly when no other [keypress] event arrives within
    50 ms after it and its emission, 50 ms after the key went down, comes
    before the game ends, 2000 ms after the last timer of a user-played
    note fired.  What is passed on carries the code and the time of the
    press. *)
Theorem key_press_is_heard_iff
        (extendedNotes : list ExtendedNoteSpec) (keypresses : list (Z * string))
        (t : Z) (kp : KeyPress) :
  extendedNotes <> [] ->
  (In (t, kp) (events (keyPresses_ extendedNotes keypresses)) <->
   t = (time kp + 50)%Z /\
   (t < last_trigger extendedNotes + 2000)%Z /\
   exists pre post,
     keypresses = pre ++ (time kp, code kp) :: post /\
     quiet_after 50 (time kp, code kp) post).
Proof.
  intros Hne. rewrite (keyPresses_events extendedNotes keypresses Hne).
  rewrite filter_In, debounce_events_iff. cbn [fst]. split.
  - intros [[pre [x [post [Hl [He Hq]]]]] Ht].
    apply map_eq_app in Hl. destruct Hl as [pre0 [rest0 [-> [<- Hrest]]]].
    apply map_eq_cons in Hrest. destruct Hrest as [k [post0 [-> [<- <-]]]].
    cbn [fst snd] in He. injection He as -> ->. cbn [pressed time code].
    split; [reflexivity|]. split; [apply Z.ltb_lt; exact Ht|].
    exists pre0, post0. split; [destruct k; reflexivity|].
    destruct post0 as [|next post0]; [exact I | exact Hq].
  - intros [-> [Ht [pre [post [-> Hq]]]]]. split; [|apply Z.ltb_lt; exact Ht].
    exists (List.map (fun k => (fst k, pressed k)) pre),
           (time kp, pressed (time kp, code kp)),
           (List.map (fun k => (fst k, pressed k)) post).
    split; [rewrite map_app; reflexivity|]. split.
    + cbn [fst snd pressed]. destruct kp; reflexivity.
    + destruct post as [|next post]; [exact I | exact Hq].
Qed.

Lemma key_press_is_heard_iff_witness :
  In (3150%Z, pressed (3100%Z, "KeyJ"%string))
     (events (keyPresses_ [extend one_note]
                [(3000, "KeyH"); (3070, "KeyH"); (3100, "KeyJ")]%Z%string)).
Proof.
  assert (Hne : [extend one_note] <> []) by discriminate.
  apply (proj2 (key_press_is_heard_iff
                  [extend one_note]
                  [(3000, "KeyH"); (3070, "KeyH"); (3100, "KeyJ")]%Z%string
                  3150%Z (pressed (3100%Z, "KeyJ"%string)) Hne)).
  split; [reflexivity|]. split; [vm_compute; reflexivity|].
  exists [(3000, "KeyH"); (3070, "KeyH")]%Z%string, [].
  split; [reflexivity | exact I].
Defined.

(** X10.  A key that is held down and repeats faster than every 50 ms is one
    press, the last of the run, heard 50 ms after the run stops. *)
Theorem key_repeat_is_one_press
        (extendedNotes : list ExtendedNoteSpec)
        (run : list (Z * string)) (k : Z * string) :
  extendedNotes <> [] ->
  repeats_within 50 (run ++ [k]) ->
  (fst k + 50 < last_trigger extendedNotes + 2000)%Z ->
  events (keyPresses_ extendedNotes (run ++ [k]))
  = [((fst k + 50)%Z, pressed k)].
Proof.
  intros Hne Hrun Hend. rewrite (keyPresses_events _ _ Hne).
  rewrite map_app. cbn [List.map].
  rewrite debounce_events_repeats.
  - cbn [filter fst snd]. apply Z.ltb_lt in Hend. rewrite Hend. reflexivity.
  - change [(fst k, pressed k)]
      with (List.map (fun k => (fst k, pressed k)) [k]).
    rewrite <- map_app. apply repeats_within_map. exact Hrun.
Qed.

Lemma key_repeat_is_one_press_witness :
  events (keyPresses_ [extend one_note]
            ([(2990%Z, "KeyH"%string); (3020%Z, "KeyH"%string)]
               ++ [(3050%Z, "KeyH"%string)])%list)
  = [(3100%Z, pressed (3050%Z, "KeyH"%string))].
Proof.
  apply (key_repeat_is_one_press [extend one_note]);
    [discriminate | cbn; lia | vm_compute; reflexivity].
Defined.

(* ------------------------------------------------------------------ *)
(** ** Presses, verdicts and points                                    *)
(* ------------------------------------------------------------------ *)

Section Counting.
Open Scope Z_scope.

Lemma takeUntil_length {A B} (notifier : Stream B) (s : Stream A) :
  (List.length (events (Rx.takeUntil notifier s)) <= List.length (events s))%nat.
Proof.
  unfold Rx.takeUntil. destruct (events notifier) as [|[t b] rest].
  - destruct (ending notifier); cbn [events]; try lia. apply filter_length_le.
  - cbn [events]. apply filter_length_le.
Qed.

Lemma withLatestFrom_length {A B} (other : Stream B) (s : Stream A) :
  (List.length (events (Rx.withLatestFrom other s)) <= List.length (events s))%nat.
Proof.
  cbn [Rx.withLatestFrom events].
  induction (events s) as [|e l IH]; [reflexivity|].
  cbn [flat_map]. rewrite length_app.
  destruct (Rx.latest_at (fst e) (events other)); cbn [List.length]; lia.
Qed.

Lemma verdicts_at_most_presses (extendedNotes : list ExtendedNoteSpec)
      (keypresses : list (Z * string)) :
  (List.length (events (combined_ extendedNotes keypresses))
   <= List.length keypresses)%nat.
Proof.
  unfold combined_. cbn [Rx.map events]. rewrite length_map.
  etransitivity; [apply withLatestFrom_length|].
  unfold keyPresses_. etransitivity; [apply takeUntil_length|].
  cbn [Rx.debounceTime Rx.map_now Rx.fromEvent events ending].
  etransitivity; [apply debounce_events_length|].
  rewrite length_map. reflexivity.
Qed.

Lemma count_correct_le_length (l : list Verdict) :
  count_correct l <= Z.of_nat (List.length l).
Proof.
  unfold count_correct. pose proof (filter_length_le fully_correct l). lia.
Qed.

End Counting.

(** X11.  There are never more verdicts than [keypress] events, and the score
    shown is never negative and never more than the number of [keypress]
    events so far in the run. *)
Theorem score_at_most_number_of_presses
        (extendedNotes : list ExtendedNoteSpec) (keypresses : list (Z * string)) :
  (List.length (events (combined_ extendedNotes keypresses))
   <= List.length keypresses)%nat /\
  forall t s : Z,
    In (t, s) (events (score_ extendedNotes keypresses)) ->
    (0 <= s <= Z.of_nat (List.length keypresses))%Z.
Proof.
  pose proof (verdicts_at_most_presses extendedNotes keypresses) as Hv.
  split; [exact Hv|].
  intros t s H. apply In_nth_error in H. destruct H as [n Hn].
  assert (Hlt : (n < List.length (events (score_ extendedNotes keypresses)))%nat)
    by (apply nth_error_Some; rewrite Hn; discriminate).
  rewrite scores_length in Hlt.
  pose proof (scores_values extendedNotes keypresses n ltac:(lia)) as Hs.
  rewrite nth_error_map, Hn in Hs. cbn [option_map snd] in Hs.
  injection Hs as Hs.
  assert (Hb : forall l : list Verdict,
             (0 <= count_correct (firstn n l) <= Z.of_nat (List.length l))%Z).
  { intros l. pose proof (count_correct_nonneg (firstn n l)).
    pose proof (count_correct_le_length (firstn n l)) as Hc.
    rewrite length_firstn in Hc. lia. }
  specialize (Hb (List.map snd (events (combined_ extendedNotes keypresses)))).
  rewrite length_map in Hb.
  assert (Hs' : s = count_correct
                      (firstn n (List.map snd
                                   (events (combined_ extendedNotes keypresses)))))
    by exact Hs.
  rewrite Hs'. lia.
Qed.

Lemma timer_due_floor (e : Q) :
  0 <= e -> e < inject_Z (2 ^ 31) -> Rx.timer_due (JS.Fin e) = Qfloor e.
Proof.
  intros H0 H1. unfold Rx.timer_due, Rx.to_long, JS.Qtrunc, JS.Qneg_b.
  rewrite (proj2 (Qle_bool_iff 0 e) H0). cbn [negb].
  assert (Hf0 : (0 <= Qfloor e)%Z)
    by (change 0%Z with (Qfloor 0); apply Qfloor_resp_le; exact H0).
  assert (Hf1 : (Qfloor e < 2 ^ 31)%Z)
    by (rewrite Zlt_Qlt; eapply Qle_lt_trans; [apply Qfloor_le | exact H1]).
  rewrite Z.mod_small by lia.
  destruct (Z.ltb_spec (Qfloor e) (2 ^ 31)); lia.
Qed.

(** X12.  The note a press is judged against has already been emitted when
    the press comes out of the debounce, 50 ms after the key went down: its
    timer had fired.  So a key that goes down 51 ms or more before the due
    time of a note, as the program has it, is never judged against that
    note; and a verdict that is right in time comes from a key time at most
    150 ms after the due time, up to the rounding of that margin. *)
Theorem timing_window_opens_50_ms_before
        (extendedNotes : list ExtendedNoteSpec) (keypresses : list (Z * string))
        (t : Z) (v : Verdict) (e : Q) :
  In (t, v) (events (combined_ extendedNotes keypresses)) ->
  actualNoteStartTime (note v) = JS.Fin e ->
  0 <= e -> e < inject_Z (2 ^ 31) ->
  exists kp : KeyPress,
    v = judge kp (note v) /\ t = (time kp + 50)%Z /\
    (note_due (note v) <= time kp + 50)%Z /\
    e - 51 < inject_Z (time kp) /\
    (isCorrectTiming v = true ->
     inject_Z (time kp) <= e + 150 + (1 # 1000000)).
Proof.
  intros H He H0 H1. apply combined_In in H.
  destruct H as [kp [Hkp [Hlatest Hv]]]. exists kp.
  destruct (keyPresses_In _ _ _ _ Hkp) as [_ Ht].
  split; [exact Hv|]. split; [exact Ht|].
  destruct (latest_at_split _ _ _ Hlatest) as [pre [tn [post [Hev [Htn _]]]]].
  assert (Hn : In (tn, note v) (events (userNotes_ extendedNotes)))
    by (rewrite Hev; apply in_or_app; right; left; reflexivity).
  apply userNotes_In in Hn. destruct Hn as [_ Hdue].
  fold (note_due (note v)) in Hdue.
  assert (Hfloor : note_due (note v) = Qfloor e)
    by (unfold note_due; rewrite He; apply timer_due_floor; assumption).
  split; [lia|]. split.
  - pose proof (Qlt_floor e) as Hfl.
    assert (Hz : (Qfloor e + 1 <= time kp + 51)%Z) by lia.
    rewrite Zle_Qle in Hz. rewrite (inject_Z_plus (time kp) 51) in Hz.
    change (inject_Z 51) with (51 # 1) in Hz. lra.
  - intros Htiming. rewrite Hv in Htiming.
    assert (H31 : inject_Z (2 ^ 31) == 2147483648) by reflexivity.
    assert (Hb : Qabs e <= inject_Z (2 ^ 31))
      by (rewrite Qabs_pos by exact H0; lra).
    pose proof (in_time_within_tolerance kp (note v) e He Hb Htiming) as Hw.
    apply Qabs_Qle_condition in Hw. lra.
Qed.

Lemma timing_window_opens_50_ms_before_witness :
  exists kp : KeyPress,
    time kp = 3000%Z /\ 3000 - 51 < inject_Z (time kp).
Proof.
  assert (Hin : In (3050%Z, judge (pressed (3000%Z, "KeyH"%string)) (extend one_note))
                   (events (combined_ [extend one_note]
                              [(3000, "KeyH")]%Z%string)))
    by (vm_compute; left; reflexivity).
  destruct (timing_window_opens_50_ms_before _ _ _ _ 3000 Hin)
    as [kp [_ [Ht [_ [Hw _]]]]];
    [vm_compute; reflexivity | vm_compute; discriminate | reflexivity |].
  exists kp. split; [lia | exact Hw].
Defined.

(* ------------------------------------------------------------------ *)
(** ** Background notes and the game                                   *)
(* ------------------------------------------------------------------ *)

Section BackgroundNotes.
Open Scope Z_scope.

Lemma userNotes_depends_on_user_played (notes notes' : list ExtendedNoteSpec) :
  userPlayedNotes notes = userPlayedNotes notes' ->
  userNotes_ notes = userNotes_ notes'.
Proof. intros H. unfold userNotes_. rewrite H. reflexivity. Qed.

Lemma gameEnd_depends_on_user_played (notes notes' : list ExtendedNoteSpec) :
  notes <> [] -> notes' <> [] ->
  userPlayedNotes notes = userPlayedNotes notes' ->
  gameEnd_ notes = gameEnd_ notes'.
Proof.
  intros Hne Hne' H. rewrite (gameEnd_once notes Hne), (gameEnd_once notes' Hne').
  unfold last_trigger. rewrite H. reflexivity.
Qed.

End BackgroundNotes.

(** X13.  Background notes count for nothing in the game: two songs with the same
    user-played notes (and at least one note each) end at the same moment
    and give the same verdicts and the same scores for the same key
    presses. *)
Theorem background_notes_change_nothing
        (notes notes' : list ExtendedNoteSpec) (keypresses : list (Z * string)) :
  notes <> [] -> notes' <> [] ->
  userPlayedNotes notes = userPlayedNotes notes' ->
  gameEnd_ notes = gameEnd_ notes' /\
  combined_ notes keypresses = combined_ notes' keypresses /\
  score_ notes keypresses = score_ notes' keypresses.
Proof.
  intros Hne Hne' H.
  pose proof (gameEnd_depends_on_user_played notes notes' Hne Hne' H) as Hend.
  pose proof (userNotes_depends_on_user_played notes notes' H) as Huser.
  assert (Hc : combined_ notes keypresses = combined_ notes' keypresses)
    by (unfold combined_, keyPresses_; rewrite Hend, Huser; reflexivity).
  split; [exact Hend|]. split; [exact Hc|].
  unfold score_. rewrite Hc. reflexivity.
Qed.

Lemma background_notes_change_nothing_witness :
  gameEnd_ late_background = gameEnd_ [extend one_note].
Proof.
  apply (background_notes_change_nothing late_background [extend one_note] []);
    [discriminate | discriminate | reflexivity].
Defined.

(** X14.  A song that has notes but no user-played one ends 2000 ms after the
    start, and until then no key press gets a verdict: the score text is
    written once, with 0. *)
Theorem song_without_user_notes (notes : list ExtendedNoteSpec)
        (keypresses : list (Z * string)) :
  notes <> [] -> userPlayedNotes notes = [] ->
  events (gameEnd_ notes) = [(2000%Z, {| gameEnd := true |})] /\
  events (combined_ notes keypresses) = [] /\
  events (score_ notes keypresses) = [(0, 0)%Z].
Proof.
  intros Hne Hu.
  split; [apply background_only_ends_after_settle_delay; assumption|].
  assert (Hc : events (combined_ notes keypresses) = []).
  { unfold combined_, userNotes_. rewrite Hu.
    cbn [Rx.map Rx.withLatestFrom events Rx.mergeMap fold_right Rx.from List.map].
    induction (events (keyPresses_ notes keypresses)) as [|e l IH];
      [reflexivity|].
    cbn [flat_map Rx.latest_at fold_left app]. exact IH. }
  split; [exact Hc|].
  unfold score_. cbn [Rx.startWith Rx.scan Rx.map events].
  rewrite Hc. reflexivity.
Qed.

Lemma song_without_user_notes_witness :
  events (score_ (backgroundNotes late_background)
            [(500, "KeyH"); (1000, "KeyJ")]%Z%string) = [(0, 0)%Z].
Proof.
  apply (song_without_user_notes (backgroundNotes late_background));
    [discriminate | reflexivity].
Defined.

(* ------------------------------------------------------------------ *)
(** ** Audio feedback over a whole run                                 *)
(* ------------------------------------------------------------------ *)

Section FeedbackRun.
Open Scope Z_scope.
Variable samples : list string.
Hypothesis some_sampler : samples <> [].

Lemma feedback_all_counts (l : list (Z * Verdict)) (rng : Rng) :
  0 <= rng_seed rng ->
  Forall (fun e => has_sampler samples
                     (instrument_name (base (note (snd e)))) = true) l ->
  let calls := feedback_all samples l rng in
  List.map fst calls = List.map fst l /\
  Z.of_nat (List.length (filter is_user_call (List.map snd calls)))
  = count_correct (List.map snd l) /\
  (List.length (filter is_user_call (List.map snd calls))
   + List.length (filter is_random_call (List.map snd calls))
   = List.length l)%nat.
Proof.
  revert rng. induction l as [|e l IH]; intros rng Hseed Hs.
  - cbn. repeat split.
  - apply Forall_cons_iff in Hs. destruct Hs as [He Hs].
    cbn [feedback_all]. rewrite feedback_cases.
    cbn [List.map]. rewrite count_correct_cons, points_fully_correct.
    destruct (fully_correct (snd e)).
    + destruct (IH rng Hseed Hs) as [H1 [H2 H3]].
      rewrite playUserPlayedNote_trigger, He.
      cbn [played bind_result List.map fst snd filter is_user_call
           is_random_call List.length].
      repeat split; [f_equal; exact H1 | lia | lia].
    + destruct (playRandomNote_plays samples rng Hseed some_sampler)
        as [tr [Htr _]].
      rewrite playRandomNote_unfold in *. cbv zeta in *. cbn [fst] in Htr.
      unfold penalty. cbn [fst snd]. rewrite Htr. cbn [bind_result].
      assert (Hseed' : 0 <= rng_seed (advance 3 rng)).
      { pose proof (lcg_step_range _ Hseed) as A1.
        pose proof (lcg_step_range _ (proj1 A1)) as A2.
        pose proof (lcg_step_range _ (proj1 A2)) as A3. exact (proj1 A3). }
      destruct (IH (advance 3 rng) Hseed' Hs) as [H1 [H2 H3]].
      cbn [List.map fst snd filter is_user_call is_random_call List.length].
      repeat split; [f_equal; exact H1 | lia | lia].
Qed.

End FeedbackRun.

(** X15.  In a run that starts at a non-negative clock reading, with at least
    one sampler and a sampler for the instrument of every user-played note,
    every verdict is answered by exactly one sound, at the moment of the
    verdict: the number of intended notes triggered is the final score, and
    all other verdicts get a penalty note; no call fails. *)
Theorem every_verdict_sounds_once
        (samples : list string) (extendedNotes : list ExtendedNoteSpec)
        (now : Z) (keypresses : list (Z * string)) :
  (0 <= now)%Z -> samples <> [] ->
  (forall n, In n (userPlayedNotes extendedNotes) ->
             has_sampler samples (instrument_name (base n)) = true) ->
  let verdicts := events (combined_ extendedNotes keypresses) in
  let calls := feedback_all samples verdicts (lcg now) in
  List.map fst calls = List.map fst verdicts /\
  Z.of_nat (List.length (filter is_user_call (List.map snd calls)))
  = count_correct (List.map snd verdicts) /\
  (List.length (filter is_user_call (List.map snd calls))
   + List.length (filter is_random_call (List.map snd calls))
   = List.length verdicts)%nat.
Proof.
  intros Hnow Hne Hs verdicts calls.
  apply feedback_all_counts; [exact Hne | exact Hnow |].
  apply Forall_forall. intros [t v] Hin. cbn [snd].
  apply combined_In in Hin. destruct Hin as [kp [_ [Hlatest _]]].
  destruct (latest_at_split _ _ _ Hlatest) as [pre [tn [post [Hev _]]]].
  apply Hs.
  assert (Hn : In (tn, note v) (events (userNotes_ extendedNotes)))
    by (rewrite Hev; apply in_or_app; right; left; reflexivity).
  apply userNotes_In in Hn. exact (proj1 Hn).
Qed.

Lemma every_verdict_sounds_once_witness :
  let keys := [(3000, "KeyH"); (3100, "KeyJ"); (3200, "KeyH")]%Z%string in
  let calls := feedback_all instruments
                 (events (combined_ [extend one_note] keys)) (lcg 5) in
  List.map fst calls = [3050; 3150; 3250]%Z /\
  (List.length (filter is_user_call (List.map snd calls))
   + List.length (filter is_random_call (List.map snd calls)) = 3)%nat.
Proof.
  intros keys calls.
  destruct (every_verdict_sounds_once instruments [extend one_note] 5 keys)
    as [Ht [_ Hc]].
  - lia.
  - discriminate.
  - intros n [<-|[]]. reflexivity.
  - split; (etransitivity; [eassumption | vm_compute; reflexivity]).
Defined.

(* ------------------------------------------------------------------ *)
(** ** The falling circle                                              *)
(* ------------------------------------------------------------------ *)

Section Animation.

(** A timer never waits longer than it was asked to, as long as the
    request does not wrap around below [-2^31]. *)
Lemma timer_due_bound (q : Q) :
  - inject_Z (2 ^ 31) <= q ->
  Rx.timer_due (JS.Fin q) = 0%Z \/ inject_Z (Rx.timer_due (JS.Fin q)) <= q.
Proof.
  intros Hlow. unfold Rx.timer_due, Rx.to_long, JS.Qtrunc, JS.Qneg_b.
  destruct (Qle_bool 0 q) eqn:Hq; cbn [negb].
  - apply Qle_bool_iff in Hq.
    assert (Hf0 : (0 <= Qfloor q)%Z)
      by (change 0%Z with (Qfloor 0); apply Qfloor_resp_le; exact Hq).
    pose proof (Z.mod_pos_bound (Qfloor q) (2 ^ 32) ltac:(lia)) as Hm.
    pose proof (Z.mod_le (Qfloor q) (2 ^ 32) Hf0 ltac:(lia)) as Hle.
    destruct (Z.ltb_spec (Qfloor q mod 2 ^ 32) (2 ^ 31)).
    + right. rewrite Z.max_r by lia.
      eapply Qle_trans; [|apply Qfloor_le]. rewrite <- Zle_Qle. exact Hle.
    + left. lia.
  - left.
    assert (Hneg : q < 0).
    { destruct (Qlt_le_dec q 0) as [H|H]; [exact H|].
      apply Qle_bool_iff in H. congruence. }
    assert (Hc0 : (Qceiling q <= 0)%Z).
    { change 0%Z with (Qceiling 0). apply Qceiling_resp_le. lra. }
    assert (Hc1 : (- 2 ^ 31 <= Qceiling q)%Z).
    { rewrite Zle_Qle. eapply Qle_trans; [|apply Qle_ceiling].
      rewrite inject_Z_opp. exact Hlow. }
    destruct (Z.eq_dec (Qceiling q) 0) as [->|Hnz]; [reflexivity|].
    replace (Qceiling q mod 2 ^ 32)%Z with (Qceiling q + 2 ^ 32)%Z.
    + destruct (Z.ltb_spec (Qceiling q + 2 ^ 32) (2 ^ 31)); lia.
    + apply Z.mod_unique with (q := (-1)%Z); lia.
Qed.

Lemma animationDuration_finite (n : ExtendedNoteSpec) (s : Q) :
  start (base n) = JS.Fin s ->
  animationDuration n = JS.Fin ((350 - s) / (5 # 4) * 4).
Proof.
  intros Hs. unfold animationDuration, noteDistance. rewrite Hs. reflexivity.
Qed.

Lemma interval_until_nth (period stop : Z) (i : nat) (e : Z * Z) :
  (0 < period)%Z ->
  nth_error (interval_until period stop) i = Some e ->
  e = ((period * (Z.of_nat i + 1))%Z, Z.of_nat i) /\
  (period * (Z.of_nat i + 1) < stop)%Z.
Proof.
  intros Hp H. unfold interval_until in H.
  rewrite nth_error_map in H.
  destruct (nth_error (seq 0 (Z.to_nat ((stop - 1) / period))) i) as [k|] eqn:Hk;
    [|discriminate].
  assert (Hi : (i < List.length (seq 0 (Z.to_nat ((stop - 1) / period))))%nat)
    by (apply nth_error_Some; rewrite Hk; discriminate).
  rewrite length_seq in Hi.
  rewrite (nth_error_nth' _ 0%nat) in Hk by (rewrite length_seq; exact Hi).
  rewrite seq_nth in Hk by exact Hi. injection Hk as <-.
  cbn [option_map Nat.add] in H. injection H as <-.
  split; [reflexivity|].
  pose proof (Z.mul_div_le (stop - 1) period Hp).
  assert (Z.of_nat i + 1 <= (stop - 1) / period)%Z by lia.
  nia.
Qed.

Lemma interval_until_before (period stop : Z) (e : Z * Z) :
  (0 < period)%Z -> In e (interval_until period stop) -> (fst e < stop)%Z.
Proof.
  intros Hp H. apply In_nth_error in H. destruct H as [i Hi].
  destruct (interval_until_nth period stop i e Hp Hi) as [-> Hlt]. exact Hlt.
Qed.

Lemma filter_all {A} (p : A -> bool) (l : list A) :
  (forall x, In x l -> p x = true) -> filter p l = l.
Proof.
  induction l as [|x l IH]; intros H; [reflexivity|].
  cbn [filter]. rewrite (H x (or_introl eq_refl)). f_equal.
  apply IH. intros y Hy. apply H. right. exact Hy.
Qed.

(** The values of [animation$]: one for every tick due before the stop. *)
Lemma animation_events (n : ExtendedNoteSpec) :
  events (animation_ n)
  = List.map
      (fun e =>
         let elapsed := (snd e * Constants.TICK_RATE_MS)%Z in
         let yPos :=
           JS.mul (JS.div (JS.of_Z elapsed) (animationDuration n))
                  (JS.add (JS.of_Z Constants.BOTTOM_ROW) (JS.Fin Note.RADIUS)) in
         (fst e, yPos))
      (interval_until Constants.TICK_RATE_MS
         (Rx.timer_due (animationDuration n))).
Proof.
  unfold animation_, Rx.takeUntil, Rx.timer, interval_before.
  cbn [events ending Rx.map]. rewrite filter_all.
  - rewrite map_map. reflexivity.
  - intros x Hx. apply in_map_iff in Hx. destruct Hx as [e [<- He]].
    cbn [fst]. apply Z.ltb_lt.
    apply (interval_until_before Constants.TICK_RATE_MS); [reflexivity | exact He].
Qed.

(** [animation$] completes when the timer of its [takeUntil] fires. *)
Lemma animation_ending (n : ExtendedNoteSpec) :
  ending (animation_ n) = Completed (Rx.timer_due (animationDuration n)).
Proof. reflexivity. Qed.

End Animation.



Lemma interval_until_empty (period stop : Z) :
  (0 < period)%Z -> (stop <= period)%Z -> interval_until period stop = [].
Proof.
  intros Hp Hs. unfold interval_until.
  replace (Z.to_nat ((stop - 1) / period)) with 0%nat; [reflexivity|].
  assert ((stop - 1) / period <= 0)%Z; [|lia].
  destruct (Z.le_gt_cases 0 (stop - 1)).
  - rewrite Z.div_small by lia. lia.
  - pose proof (Z.div_lt_upper_bound (stop - 1) period 0 Hp ltac:(lia)). lia.
Qed.

(** X17.  A note that starts 350 s or more into the song, or whose start is not
    a finite number, does not fall: its circle is created and removed in
    the same millisecond, and no position is ever written. *)
Theorem late_note_does_not_fall (n : ExtendedNoteSpec) (t0 : Z) :
  match start (base n) with
  | JS.Fin s => 350 <= s /\ s <= 100000000
  | _ => True
  end ->
  events (animation_ n) = [] /\
  circle_life n t0
  = [(t0, AppendCircle (createNoteCircle n)); ((t0 + 0)%Z, RemoveCircle)].
Proof.
  intros H.
  assert (Hstop : Rx.timer_due (animationDuration n) = 0%Z).
  { destruct (start (base n)) as [|neg|s] eqn:Hs.
    - unfold animationDuration, noteDistance. rewrite Hs. reflexivity.
    - unfold animationDuration, noteDistance. rewrite Hs.
      destruct neg; reflexivity.
    - rewrite (animationDuration_finite n s Hs).
      set (D := (350 - s) / (5 # 4) * 4).
      assert (HD : D == (350 - s) * (16 # 5)) by (unfold D; field).
      assert (Hlow : - inject_Z (2 ^ 31) <= D).
      { assert (H31 : inject_Z (2 ^ 31) == 2147483648) by reflexivity.
        rewrite H31, HD. lra. }
      destruct (timer_due_bound D Hlow) as [H0|H1]; [exact H0|].
      pose proof (timer_due_nonneg (JS.Fin D)) as Hnn.
      assert (Hle : inject_Z (Rx.timer_due (JS.Fin D)) <= inject_Z 0).
      { change (inject_Z 0) with 0. destruct H as [H350 _].
        revert H1. generalize (inject_Z (Rx.timer_due (JS.Fin D))).
        clearbody D. clear Hlow Hnn. intros k H1. lra. }
      rewrite <- Zle_Qle in Hle. lia. }
  assert (Hev : events (animation_ n) = []).
  { rewrite animation_events, Hstop.
    rewrite interval_until_empty
      by (unfold Constants.TICK_RATE_MS; lia).
    reflexivity. }
  split; [exact Hev|].
  unfold circle_life, Rx.finalized.
  rewrite Hev, animation_ending, Hstop. reflexivity.
Qed.

Lemma late_note_does_not_fall_witness :
  events (animation_
            (extend (mkNoteSpec true "piano" (JS.Fin 1) (JS.of_Z 64)
                                (JS.Fin 400) (JS.Fin 401)))) = [].
Proof.
  apply (late_note_does_not_fall _ 0%Z).
  cbn [extend base start]. split; vm_compute; discriminate.
Defined.

(** X18.  When the fall of a circle fits before its note (the note starts before
    350 s and [animationDuration <= start * 1000]), the circle appears
    [animationDuration] before the note is due and is removed within 2 ms
    before the moment [start * 1000 + 2000] around which the key press is
    judged: the due time the program computes, in doubles, is that moment
    to within [1e-10] ms. *)
Theorem circle_arrives_when_note_is_due (n : ExtendedNoteSpec) (s : Q) :
  start (base n) = JS.Fin s -> s < 350 ->
  (350 - s) * (16 # 5) <= s * 1000 ->
  let appears := (2000 + Rx.timer_due (animationStartTime n))%Z in
  let removed := (appears + Rx.timer_due (animationDuration n))%Z in
  (exists e : Q,
      actualNoteStartTime n = JS.Fin e /\
      Qabs (e - (s * 1000 + 2000)) <= 1 # 10000000000) /\
  s * 1000 + 2000 - 2 < inject_Z removed /\
  inject_Z removed <= s * 1000 + 2000.
Proof.
  intros Hs Hlt Hfits appears removed.
  split; [apply actualNoteStartTime_close; [exact Hs | lra | lra]|].
  subst removed appears. unfold animationStartTime.
  rewrite (animationDuration_finite n s Hs), Hs.
  set (D := (350 - s) / (5 # 4) * 4).
  assert (HD : D == (350 - s) * (16 # 5)) by (unfold D; field).
  cbn [JS.mul JS.sub JS.add JS.neg JS.of_Z].
  assert (H31 : inject_Z (2 ^ 31) == 2147483648) by reflexivity.
  rewrite (timer_due_floor D) by (rewrite ?H31, HD; lra).
  rewrite (timer_due_floor (s * inject_Z 1000 + - D))
    by (rewrite ?H31, HD; change (inject_Z 1000) with (1000 # 1); lra).
  change (inject_Z 1000) with (1000 # 1).
  pose proof (Qfloor_le D) as A1. pose proof (Qlt_floor D) as A2.
  pose proof (Qfloor_le (s * (1000 # 1) + - D)) as B1.
  pose proof (Qlt_floor (s * (1000 # 1) + - D)) as B2.
  rewrite inject_Z_plus in A2, B2. change (inject_Z 1) with 1 in A2, B2.
  rewrite !inject_Z_plus. change (inject_Z 2000) with (2000 # 1).
  split; lra.
Qed.

Lemma circle_arrives_when_note_is_due_witness :
  let n := extend (mkNoteSpec true "piano" (JS.Fin 1) (JS.of_Z 64)
                              (JS.Fin 10) (JS.Fin 11)) in
  inject_Z (2000 + Rx.timer_due (animationStartTime n)
            + Rx.timer_due (animationDuration n)) <= 10 * 1000 + 2000.
Proof.
  intros n.
  apply (circle_arrives_when_note_is_due n 10);
    [reflexivity | reflexivity | vm_compute; discriminate].
Defined.

(** X19.  When the fall does not fit (the note starts so early that
    [animationDuration] is more than [start * 1000 + 1]), the circle appears
    as soon as playback starts, 2000 ms into the run, and is still falling
    when its note is due: it is removed only after [start * 1000 + 2000]. *)
Theorem early_note_circle_is_late (n : ExtendedNoteSpec) (s : Q) :
  start (base n) = JS.Fin s -> 0 <= s ->
  s * 1000 + 1 <= (350 - s) * (16 # 5) ->
  Rx.timer_due (animationStartTime n) = 0%Z /\
  s * 1000 + 2000 < inject_Z (2000 + 0 + Rx.timer_due (animationDuration n)).
Proof.
  intros Hs H0 Hlate. unfold animationStartTime.
  rewrite (animationDuration_finite n s Hs), Hs.
  set (D := (350 - s) / (5 # 4) * 4).
  assert (HD : D == (350 - s) * (16 # 5)) by (unfold D; field).
  cbn [JS.mul JS.sub JS.add JS.neg JS.of_Z].
  change (inject_Z 1000) with (1000 # 1).
  assert (H31 : inject_Z (2 ^ 31) == 2147483648) by reflexivity.
  split.
  - assert (Hlow : - inject_Z (2 ^ 31) <= s * (1000 # 1) + - D)
      by (rewrite H31, HD; lra).
    destruct (timer_due_bound (s * (1000 # 1) + - D) Hlow) as [Hz|Hle];
      [exact Hz|].
    pose proof (timer_due_nonneg (JS.Fin (s * (1000 # 1) + - D))) as Hnn.
    rewrite Zle_Qle in Hnn. change (inject_Z 0) with 0 in Hnn. lra.
  - rewrite (timer_due_floor D) by (rewrite ?H31, HD; lra).
    pose proof (Qlt_floor D) as A2.
    rewrite inject_Z_plus in A2. change (inject_Z 1) with 1 in A2.
    rewrite !inject_Z_plus. change (inject_Z 2000) with (2000 # 1).
    change (inject_Z 0) with 0. lra.
Qed.

Lemma early_note_circle_is_late_witness :
  1 * 1000 + 2000
  < inject_Z (2000 + 0 + Rx.timer_due (animationDuration (extend one_note))).
Proof.
  apply (early_note_circle_is_late (extend one_note) 1);
    [reflexivity | vm_compute; discriminate | vm_compute; discriminate].
Defined.

(* ------------------------------------------------------------------ *)
(** ** The playback of the song and the circles                        *)
(* ------------------------------------------------------------------ *)

Section TryFacts.
Context {A B : Type}.
Variable f : A -> Result B.

Lemma map_try_events_returned (g : A -> B) (l : list (Z * A)) (e : Ending) :
  (forall x, In x l -> f (snd x) = Returned (g (snd x))) ->
  Rx.map_try_events f l e = (List.map (fun x => (fst x, g (snd x))) l, e).
Proof.
  induction l as [|x l IH]; intros H; [reflexivity|].
  cbn [Rx.map_try_events List.map].
  rewrite (H x (or_introl eq_refl)), IH by (intros y Hy; apply H; right; exact Hy).
  reflexivity.
Qed.

Lemma map_try_events_threw (pre post : list (Z * A)) (x0 : Z * A)
      (exn : Exn) (e : Ending) :
  (forall x, In x pre -> exists b, f (snd x) = Returned b) ->
  f (snd x0) = Threw exn ->
  exists bs,
    Rx.map_try_events f (pre ++ x0 :: post) e = (bs, Failed (fst x0) exn) /\
    List.map fst bs = List.map fst pre.
Proof.
  intros Hpre Hx0. induction pre as [|x pre IH].
  - exists []. cbn [app Rx.map_try_events]. rewrite Hx0. split; reflexivity.
  - destruct IH as [bs [Hbs Hfst]]; [intros y Hy; apply Hpre; right; exact Hy|].
    destruct (Hpre x (or_introl eq_refl)) as [b Hb].
    exists ((fst x, b) :: bs). cbn [app Rx.map_try_events].
    rewrite Hb, Hbs. cbn [List.map fst]. rewrite Hfst. split; reflexivity.
Qed.

Lemma first_threw (l : list (Z * A)) (x : Z * A) (exn : Exn) :
  In x l -> f (snd x) = Threw exn ->
  exists pre x0 post exn0,
    l = pre ++ x0 :: post /\
    (forall y, In y pre -> exists b, f (snd y) = Returned b) /\
    f (snd x0) = Threw exn0.
Proof.
  induction l as [|y l IH]; intros Hin Hx; [destruct Hin|].
  destruct (f (snd y)) as [b|exn0] eqn:Hy.
  - destruct Hin as [->|Hin]; [congruence|].
    destruct (IH Hin Hx) as [pre [x0 [post [exn1 [-> [Hpre Hx0]]]]]].
    exists (y :: pre), x0, post, exn1. split; [reflexivity|]. split; [|exact Hx0].
    intros z [<-|Hz]; [exists b; exact Hy | apply Hpre; exact Hz].
  - exists [], y, l, exn0. split; [reflexivity|]. split; [intros z []|exact Hy].
Qed.


End TryFacts.

Section PlaybackFacts.
Open Scope Z_scope.
Variable samples : list string.

Lemma mergeMap_cons {A B} (f : A -> Stream B) (x : A) (l : list A) :
  events (Rx.mergeMap f (x :: l))
  = Rx.merge_events (events (f x)) (events (Rx.mergeMap f l)).
Proof. reflexivity. Qed.

Lemma note_cues_events (n : ExtendedNoteSpec) :
  Permutation (events (note_cues n))
    [(Rx.timer_due (animationStartTime n), AnimationStart n);
     (Rx.timer_due (JS.mul64 (start (base n)) (JS.of_Z 1000)), Sound n)].
Proof.
  unfold note_cues, Rx.merge, Rx.timer. cbn [events].
  apply (merge_events_perm [_] [_]).
Qed.

Lemma note_cues_in_time_order (n : ExtendedNoteSpec) :
  in_time_order (events (note_cues n)).
Proof.
  unfold note_cues, Rx.merge, Rx.timer. cbn [events].
  apply merge_events_in_time_order; repeat constructor.
Qed.

Lemma cues_perm (l : list ExtendedNoteSpec) :
  Permutation (events (Rx.mergeMap note_cues l))
              (flat_map (fun n => events (note_cues n)) l).
Proof.
  induction l as [|n l IH]; [reflexivity|].
  rewrite mergeMap_cons, merge_events_perm. cbn [flat_map].
  apply Permutation_app_head. exact IH.
Qed.

Lemma cues_in_time_order (l : list ExtendedNoteSpec) :
  in_time_order (events (Rx.mergeMap note_cues l)).
Proof.
  induction l as [|n l IH]; [constructor|].
  rewrite mergeMap_cons.
  apply merge_events_in_time_order; [apply note_cues_in_time_order | exact IH].
Qed.

Lemma cue_In (l : list ExtendedNoteSpec) (x : Z * Cue) :
  In x (events (Rx.mergeMap note_cues l)) <->
  exists n, In n l /\
    (x = (Rx.timer_due (animationStartTime n), AnimationStart n) \/
     x = (Rx.timer_due (JS.mul64 (start (base n)) (JS.of_Z 1000)), Sound n)).
Proof.
  split.
  - intros H. apply (Permutation_in _ (cues_perm l)) in H.
    apply in_flat_map in H. destruct H as [n [Hn Hx]]. exists n.
    split; [exact Hn|].
    apply (Permutation_in _ (note_cues_events n)) in Hx.
    destruct Hx as [ <- | [ <- | [] ] ]; [left | right]; reflexivity.
  - intros [n [Hn Hx]].
    apply (Permutation_in _ (Permutation_sym (cues_perm l))).
    apply in_flat_map. exists n. split; [exact Hn|].
    apply (Permutation_in _ (Permutation_sym (note_cues_events n))).
    destruct Hx as [-> | ->]; [left | right; left]; reflexivity.
Qed.

Lemma mergeMap_cues_completes (l : list ExtendedNoteSpec) :
  exists t, ending (Rx.mergeMap note_cues l) = Completed t.
Proof.
  induction l as [|n l [t Ht]]; [exists 0; reflexivity|].
  change (Rx.mergeMap note_cues (n :: l))
    with (Rx.merge (note_cues n) (Rx.mergeMap note_cues l)).
  unfold Rx.merge at 1. cbn [ending]. rewrite Ht.
  eexists. reflexivity.
Qed.

Lemma perform_animation (n : ExtendedNoteSpec) :
  perform samples (AnimationStart n)
  = Returned (if user_played (base n) then Some (Appeared n) else None).
Proof. cbn [perform]. destruct (user_played (base n)); reflexivity. Qed.

Lemma perform_sound (n : ExtendedNoteSpec) :
  perform samples (Sound n)
  = if user_played (base n) then Returned None
    else if has_sampler samples (instrument_name (base n))
         then Returned (Some (Sounded (intended_trigger n)))
         else Threw (TypeError "samples[note.instrument_name].triggerAttackRelease").
Proof.
  cbn [perform]. unfold playBackgroundNotes.
  destruct (user_played (base n)); [reflexivity|]. cbn [negb].
  destruct (has_sampler samples (instrument_name (base n))); reflexivity.
Qed.

Lemma perform_threw (c : Cue) (exn : Exn) :
  perform samples c = Threw exn ->
  exists n, c = Sound n /\ user_played (base n) = false /\
            has_sampler samples (instrument_name (base n)) = false /\
            exn = TypeError "samples[note.instrument_name].triggerAttackRelease".
Proof.
  destruct c as [n|n]; [rewrite perform_animation; discriminate|].
  rewrite perform_sound. intros H. exists n.
  destruct (user_played (base n)); [discriminate|].
  destruct (has_sampler samples (instrument_name (base n))); [discriminate|].
  injection H as <-. repeat split.
Qed.

Lemma shifted_in_time_order {A B} (t0 : Z) (h : A -> B) (l : list (Z * A)) :
  in_time_order l ->
  in_time_order (List.map (fun x => (t0 + fst x, h (snd x))) l).
Proof.
  unfold in_time_order. induction 1 as [|x l Hl IH Hx]; [constructor|].
  cbn [List.map]. constructor; [exact IH|].
  rewrite Forall_forall in *. intros y Hy. apply in_map_iff in Hy.
  destruct Hy as [z [<- Hz]]. cbn [fst]. specialize (Hx z Hz). lia.
Qed.

Lemma sounds_app (l1 l2 : list (Z * option Performed)) :
  sounds (l1 ++ l2) = sounds l1 ++ sounds l2.
Proof. apply flat_map_app. Qed.

Lemma appearances_app (l1 l2 : list (Z * option Performed)) :
  appearances (l1 ++ l2) = appearances l1 ++ appearances l2.
Proof. apply flat_map_app. Qed.

Lemma backgroundNotes_cons (n : ExtendedNoteSpec) (l : list ExtendedNoteSpec) :
  backgroundNotes (n :: l)
  = if user_played (base n) then backgroundNotes l else n :: backgroundNotes l.
Proof. unfold backgroundNotes. cbn [filter]. destruct (user_played (base n)); reflexivity. Qed.

Lemma userPlayedNotes_cons (n : ExtendedNoteSpec) (l : list ExtendedNoteSpec) :
  userPlayedNotes (n :: l)
  = if user_played (base n) then n :: userPlayedNotes l else userPlayedNotes l.
Proof. unfold userPlayedNotes. cbn [filter]. destruct (user_played (base n)); reflexivity. Qed.

(** What the callbacks do with the cues of a list of notes, taken note by
    note, when none of them throws. *)
Lemma performed_by_note (g : Cue -> option Performed)
      (l : list ExtendedNoteSpec) :
  (forall n, In n l ->
     g (AnimationStart n)
     = (if user_played (base n) then Some (Appeared n) else None) /\
     g (Sound n)
     = (if user_played (base n) then None
        else Some (Sounded (intended_trigger n)))) ->
  let done :=
    List.map (fun x => (2000 + fst x, g (snd x)))
             (flat_map (fun n => events (note_cues n)) l) in
  Permutation (sounds done)
    (List.map (fun n => (sound_due n, intended_trigger n)) (backgroundNotes l)) /\
  Permutation (appearances done)
    (List.map (fun n => (appears_at n, n)) (userPlayedNotes l)).
Proof.
  induction l as [|n l IH]; intros Hg; [split; reflexivity|].
  destruct IH as [IHs IHa]; [intros m Hm; apply Hg; right; exact Hm|].
  destruct (Hg n (or_introl eq_refl)) as [Ha Hs].
  cbn zeta. cbn [flat_map]. rewrite map_app, sounds_app, appearances_app.
  rewrite backgroundNotes_cons, userPlayedNotes_cons.
  pose proof (Permutation_map (fun x => (2000 + fst x, g (snd x)))
                (note_cues_events n)) as Hn.
  cbn [List.map fst snd] in Hn. rewrite Ha, Hs in Hn.
  split.
  - unfold sounds at 1.
    rewrite (Permutation_flat_map _ Hn). cbn [flat_map fst snd app].
    destruct (user_played (base n)); cbn [app List.map];
      [exact IHs | constructor; exact IHs].
  - unfold appearances at 1.
    rewrite (Permutation_flat_map _ Hn). cbn [flat_map fst snd app].
    destruct (user_played (base n)); cbn [app List.map];
      [constructor; exact IHa | exact IHa].
Qed.

End PlaybackFacts.

Lemma playback_with_samplers
        (samples : list string) (extendedNotes : list ExtendedNoteSpec) :
  (forall n, In n (backgroundNotes extendedNotes) ->
             has_sampler samples (instrument_name (base n)) = true) ->
  (exists t, ending (playback_ samples extendedNotes) = Completed t) /\
  in_time_order (events (playback_ samples extendedNotes)) /\
  Permutation (sounds (events (playback_ samples extendedNotes)))
    (List.map (fun n => (sound_due n, intended_trigger n))
              (backgroundNotes extendedNotes)) /\
  Permutation (appearances (events (playback_ samples extendedNotes)))
    (List.map (fun n => (appears_at n, n)) (userPlayedNotes extendedNotes)).
Proof.
  intros Hs.
  set (g := fun c => match perform samples c with
                     | Returned b => b
                     | Threw _ => None
                     end).
  assert (Hbg : forall n, In n extendedNotes -> user_played (base n) = false ->
                          has_sampler samples (instrument_name (base n)) = true).
  { intros n Hn Hu. apply Hs. apply filter_In. split; [exact Hn|].
    rewrite Hu. reflexivity. }
  assert (Hok : forall x, In x (events (Rx.mergeMap note_cues extendedNotes)) ->
                          perform samples (snd x) = Returned (g (snd x))).
  { intros x Hx. apply cue_In in Hx. destruct Hx as [n [Hn [-> | ->]]];
      unfold g; cbn [snd].
    - rewrite perform_animation. reflexivity.
    - rewrite perform_sound. destruct (user_played (base n)) eqn:Hu;
        [reflexivity|]. rewrite (Hbg n Hn Hu). reflexivity. }
  assert (Hev : events (playback_ samples extendedNotes)
                = List.map (fun x => ((2000 + fst x)%Z, g (snd x)))
                    (events (Rx.mergeMap note_cues extendedNotes))).
  { unfold playback_, Rx.map_try.
    rewrite (map_try_events_returned _ g _ _ Hok).
    cbn [Rx.after events]. rewrite map_map. reflexivity. }
  assert (Hend : exists t, ending (playback_ samples extendedNotes) = Completed t).
  { unfold playback_, Rx.map_try.
    rewrite (map_try_events_returned _ g _ _ Hok).
    destruct (mergeMap_cues_completes extendedNotes) as [t Ht].
    cbn [Rx.after ending]. rewrite Ht. eexists. reflexivity. }
  split; [exact Hend|]. rewrite Hev. split.
  - apply shifted_in_time_order. apply cues_in_time_order.
  - pose proof (Permutation_map (fun x => ((2000 + fst x)%Z, g (snd x)))
                  (cues_perm extendedNotes)) as Hp.
    destruct (performed_by_note g extendedNotes) as [H1 H2].
    + intros n Hn. unfold g. rewrite perform_animation, perform_sound.
      split; [reflexivity|]. destruct (user_played (base n)) eqn:Hu;
        [reflexivity|]. rewrite (Hbg n Hn Hu). reflexivity.
    + split.
      * unfold sounds at 1. rewrite (Permutation_flat_map _ Hp). exact H1.
      * unfold appearances at 1. rewrite (Permutation_flat_map _ Hp). exact H2.
Qed.



(** X21.  Game over does not stop the song.  A background note that is due after
    the game has ended (2000 ms after the last user-played note) still
    sounds, at its own time, when all background notes have samplers. *)
Theorem song_plays_on_after_game_over
        (samples : list string) (extendedNotes : list ExtendedNoteSpec)
        (b : ExtendedNoteSpec) :
  (forall n, In n (backgroundNotes extendedNotes) ->
             has_sampler samples (instrument_name (base n)) = true) ->
  In b (backgroundNotes extendedNotes) ->
  (last_trigger extendedNotes + 2000 < sound_due b)%Z ->
  exists t_end : Z,
    events (gameEnd_ extendedNotes) = [(t_end, {| gameEnd := true |})] /\
    (t_end < sound_due b)%Z /\
    In (sound_due b, intended_trigger b)
       (sounds (events (playback_ samples extendedNotes))).
Proof.
  intros Hs Hb Hlate.
  assert (Hne : extendedNotes <> [])
    by (intros ->; destruct Hb).
  exists (last_trigger extendedNotes + 2000)%Z.
  rewrite (gameEnd_once extendedNotes Hne).
  split; [reflexivity|]. split; [exact Hlate|].
  destruct (playback_with_samplers samples extendedNotes Hs) as [_ [_ [Hp _]]].
  apply (Permutation_in _ (Permutation_sym Hp)).
  apply in_map_iff. exists b. split; [reflexivity | exact Hb].
Qed.

Lemma song_plays_on_after_game_over_witness :
  exists t_end : Z,
    events (gameEnd_ late_background) = [(t_end, {| gameEnd := true |})] /\
    (t_end < 12000)%Z.
Proof.
  destruct (song_plays_on_after_game_over instruments late_background
              (extend (mkNoteSpec false "violin" (JS.Fin (100 / 127))
                                  (JS.of_Z 60) (JS.Fin 10) (JS.Fin 11))))
    as [t_end [Hend [Hlt _]]].
  - intros n Hn. destruct Hn as [<-|[]]. reflexivity.
  - left. reflexivity.
  - vm_compute. reflexivity.
  - exists t_end. split; [exact Hend|].
    assert (E : sound_due
                  (extend (mkNoteSpec false "violin" (JS.Fin (100 / 127))
                                      (JS.of_Z 60) (JS.Fin 10) (JS.Fin 11)))
                = 12000%Z) by (vm_compute; reflexivity).
    rewrite E in Hlt. exact Hlt.
Defined.

Section PlaybackFailure.
Open Scope Z_scope.

Lemma sorted_around {A} (pre post : list (Z * A)) (x0 : Z * A) :
  in_time_order (pre ++ x0 :: post) ->
  (forall p, In p pre -> fst p <= fst x0) /\
  (forall p, In p post -> fst x0 <= fst p).
Proof.
  unfold in_time_order. induction pre as [|y pre IH]; intros H.
  - apply StronglySorted_inv in H. destruct H as [_ F].
    rewrite Forall_forall in F. split; [intros p []|exact F].
  - cbn [app] in H. apply StronglySorted_inv in H. destruct H as [H F].
    destruct (IH H) as [H1 H2]. split; [|exact H2].
    rewrite Forall_forall in F.
    intros p [<-|Hp]; [|apply H1; exact Hp].
    apply F. apply in_or_app. right. left. reflexivity.
Qed.

End PlaybackFailure.

(** X22.  A background note whose instrument has no sampler breaks the playback
    off.  It ends as an error when the first such note is due to sound, when
    the timer of that note fires (2000 ms plus the whole milliseconds of
    its [start * 1000] in doubles); no background note sounds and no circle
    appears after that moment. *)
Theorem playback_stops_at_first_missing_sampler
        (samples : list string) (extendedNotes : list ExtendedNoteSpec)
        (b : ExtendedNoteSpec) :
  In b (backgroundNotes extendedNotes) ->
  has_sampler samples (instrument_name (base b)) = false ->
  exists b0 : ExtendedNoteSpec,
    In b0 (backgroundNotes extendedNotes) /\
    has_sampler samples (instrument_name (base b0)) = false /\
    (sound_due b0 <= sound_due b)%Z /\
    ending (playback_ samples extendedNotes)
    = Failed (sound_due b0)
        (TypeError "samples[note.instrument_name].triggerAttackRelease") /\
    forall e, In e (events (playback_ samples extendedNotes)) ->
              (fst e <= sound_due b0)%Z.
Proof.
  intros Hb Hno. apply filter_In in Hb. destruct Hb as [Hb Hbg].
  apply negb_true_iff in Hbg.
  set (cues := events (Rx.mergeMap note_cues extendedNotes)).
  set (x := (Rx.timer_due (JS.mul64 (start (base b)) (JS.of_Z 1000)), Sound b)).
  assert (Hx : In x cues)
    by (apply cue_In; exists b; split; [exact Hb | right; reflexivity]).
  assert (Hthrow : perform samples (snd x)
                   = Threw (TypeError
                              "samples[note.instrument_name].triggerAttackRelease")).
  { unfold x. cbn [snd]. rewrite perform_sound, Hbg, Hno. reflexivity. }
  destruct (first_threw (perform samples) cues x _ Hx Hthrow)
    as [pre [x0 [post [exn0 [Hcues [Hpre Hx0]]]]]].
  destruct (perform_threw samples _ _ Hx0) as [b0 [Hc [Hu0 [Hno0 ->]]]].
  assert (Hx0in : In x0 cues)
    by (rewrite Hcues; apply in_or_app; right; left; reflexivity).
  apply cue_In in Hx0in. destruct Hx0in as [n [Hn Hx0eq]].
  assert (Hx0is : n = b0 /\
            fst x0 = Rx.timer_due (JS.mul64 (start (base b0)) (JS.of_Z 1000))).
  { destruct Hx0eq as [-> | ->]; cbn [snd] in Hc; [discriminate|].
    injection Hc as ->. split; reflexivity. }
  destruct Hx0is as [-> Ht0].
  pose proof (cues_in_time_order extendedNotes) as Hsorted.
  fold cues in Hsorted. rewrite Hcues in Hsorted.
  destruct (sorted_around _ _ _ Hsorted) as [Hbefore Hafter].
  destruct (map_try_events_threw (perform samples) pre post x0 _
              (ending (Rx.mergeMap note_cues extendedNotes)) Hpre Hx0)
    as [bs [Hbs Hfst]].
  exists b0. split; [apply filter_In; split; [exact Hn | rewrite Hu0; reflexivity]|].
  split; [exact Hno0|].
  assert (Hdue : sound_due b0 = (2000 + fst x0)%Z)
    by (rewrite Ht0; reflexivity).
  split; [|split].
  - rewrite Hdue. change (sound_due b) with (2000 + fst x)%Z.
    rewrite Hcues in Hx. apply in_app_or in Hx.
    destruct Hx as [Hx|[<-|Hx]]; [|lia|specialize (Hafter x Hx); lia].
    destruct (Hpre x Hx) as [r Hr]. congruence.
  - unfold playback_, Rx.map_try. fold cues. rewrite Hcues, Hbs.
    cbn [Rx.after ending]. rewrite Hdue. reflexivity.
  - intros e He. unfold playback_, Rx.map_try in He. fold cues in He.
    rewrite Hcues, Hbs in He. cbn [Rx.after events] in He.
    apply in_map_iff in He. destruct He as [y [<- Hy]]. cbn [fst].
    assert (Hyt : In (fst y) (List.map fst pre))
      by (rewrite <- Hfst; apply in_map; exact Hy).
    apply in_map_iff in Hyt. destruct Hyt as [p [Hp Hpin]].
    specialize (Hbefore p Hpin). lia.
Qed.

Lemma playback_stops_at_first_missing_sampler_witness :
  exists b0 : ExtendedNoteSpec,
    ending (playback_ [] late_background)
    = Failed (sound_due b0)
        (TypeError "samples[note.instrument_name].triggerAttackRelease").
Proof.
  destruct (playback_stops_at_first_missing_sampler [] late_background
              (extend (mkNoteSpec false "violin" (JS.Fin (100 / 127))
                                  (JS.of_Z 60) (JS.Fin 10) (JS.Fin 11))))
    as [b0 [_ [_ [_ [H _]]]]].
  - left. reflexivity.
  - reflexivity.
  - exists b0. exact H.
Defined.

Section Circles.
Open Scope Z_scope.




End Circles.

